(** * The department router: classification, dispatch queue and handoffs

    A shallow embedding of [src/agents/types.ts], [src/agents/orchestrator.ts],
    [src/agents/domain_agent.ts] and the [MultiAgentRouter] class of
    [src/multi_agent_system.ts], followed by the properties of the routing
    state machine.

    Strings are Rocq strings, the arrays of the source are lists, the
    [Set<DepartmentIntent>] of the dispatch loop is a [gset].  The calls that
    leave the process (retriever, language model, output parser) are
    parameters; they thread an opaque world and may throw. *)

From Stdlib Require Import QArith Ascii String.
From stdpp Require Import base decidable countable list gmap strings pretty.

Local Open Scope nat_scope.

(** ** [agents/types.ts] *)

Inductive DepartmentIntent : Set := hr | tech | finance | unknown.

#[global] Instance DepartmentIntent_eq_dec : EqDecision DepartmentIntent.
Proof. solve_decision. Defined.

Definition DepartmentIntent_to_nat (d : DepartmentIntent) : nat :=
  match d with hr => 0 | tech => 1 | finance => 2 | unknown => 3 end.

Definition DepartmentIntent_of_nat (n : nat) : option DepartmentIntent :=
  match n with
  | 0 => Some hr | 1 => Some tech | 2 => Some finance | 3 => Some unknown
  | _ => None
  end.

#[global] Instance DepartmentIntent_countable : Countable DepartmentIntent.
Proof.
  apply (inj_countable DepartmentIntent_to_nat DepartmentIntent_of_nat).
  intros []; reflexivity.
Defined.

(** The string a [DepartmentIntent] is at run time. *)
Definition intent_string (d : DepartmentIntent) : string :=
  match d with
  | hr => "hr" | tech => "tech" | finance => "finance" | unknown => "unknown"
  end.

(** ** [agents/orchestrator.ts]: the classification result *)

(** [z.infer<typeof schema>]: the parsed answer of the classifier. *)
Record OrchestratorResult := {
  intents : list DepartmentIntent;
  confidence : Q;
  reasoning : string
}.

(** [candidate === "hr" || candidate === "tech" || candidate === "finance"
     ? candidate : "unknown"] *)
Definition normalize (candidate : DepartmentIntent) : DepartmentIntent :=
  match candidate with
  | hr => candidate
  | tech => candidate
  | finance => candidate
  | _ => unknown
  end.

(** One round of the [for ... of] loop: push [normalized] unless
    [unique.includes(normalized)]. *)
Definition resolve_step (unique : list DepartmentIntent)
    (candidate : DepartmentIntent) : list DepartmentIntent :=
  let normalized := normalize candidate in
  if bool_decide (normalized ∈ unique) then unique else unique ++ [normalized].

(** [OrchestratorAgent.resolveOrderedIntents] *)
Definition resolveOrderedIntents (result : OrchestratorResult)
    : list DepartmentIntent :=
  fold_left resolve_step (intents result) [].

(** What the loop appends to an accumulator [seen] while it reads [l]. *)
Fixpoint first_seen (seen l : list DepartmentIntent) : list DepartmentIntent :=
  match l with
  | [] => []
  | x :: l' =>
      if bool_decide (x ∈ seen) then first_seen seen l'
      else x :: first_seen (seen ++ [x]) l'
  end.

(** ** Text *)

(** The line feed of the template literals. *)
Definition nl : string := String "010"%char "".

(** [Array.prototype.join] on an array of strings. *)
Definition join (sep : string) (parts : list string) : string :=
  String.concat sep parts.

(** [`chunk-${idx}`] *)
Definition chunk_label (idx : nat) : string := "chunk-" +:+ pretty idx.

(** ** [agents/domain_agent.ts]: data *)

(** [doc.metadata?.source]: a string, or some other value (kept with the text
    a template literal prints for it); [None] is [undefined] or [null]. *)
Inductive MetadataValue : Set :=
  | MetaString (s : string)
  | MetaOther (printed : string).

Record DocumentInterface := {
  pageContent : string;
  metadata_source : option MetadataValue
}.

(** The members of a [BaseMessage] content array that [extractAnswer] tells
    apart: a string, an object with a string [text], anything else. *)
Inductive ContentChunk : Set :=
  | ChunkString (s : string)
  | ChunkText (text : string)
  | ChunkOther.

Inductive MessageContent : Set :=
  | ContentString (s : string)
  | ContentArray (chunks : list ContentChunk)
  | ContentOther.

Record BaseMessage := { role : string; content : MessageContent }.

(** The values handed to [prompt.formatMessages], by key. *)
Definition PromptValues := list (string * string).

Module DomainAgentOptions.
Record t := mk { intent : DepartmentIntent; name : string; styleGuide : string }.
End DomainAgentOptions.

Module FollowUp.
Record t := mk {
  intent : DepartmentIntent;
  reason : string;
  context_package : option string
}.
End FollowUp.

(** What the agent's output parser yields (the [z.object] schema). *)
Record ParsedAnswer := {
  answer : string;
  citations : list string;
  follow_up : option FollowUp.t
}.

Module Handoff.
Record t := mk {
  intent : DepartmentIntent;
  reason : string;
  context : option string
}.
End Handoff.

Record DomainAgentResult := {
  text : string;
  sources : list string;
  handoff : option Handoff.t
}.

(** ** [multi_agent_system.ts]: data of the router *)

Record AgentTurn := {
  intentTried : DepartmentIntent;
  response : DomainAgentResult
}.

Module IntentQueueItem.
Record t := mk { intent : DepartmentIntent; note : option string }.
End IntentQueueItem.

Record RouteResult := {
  classification : OrchestratorResult;
  turns : list AgentTurn;
  unresolvedIntents : list DepartmentIntent
}.

(** The local variables of [route] that the dispatch loop updates. *)
Module Loop.
Record t := mk {
  queue : list IntentQueueItem.t;
  visited : gset DepartmentIntent;
  turns : list AgentTurn
}.
End Loop.

(** The turn budget of the [while] condition. *)
Definition TURN_BUDGET : nat := 5.

(** ** Effects: calls that await an outside service *)

(** How an awaited call ends: with a value, or with a thrown error. *)
Inductive Completion (Error A : Type) : Type :=
  | Normal (a : A)
  | Throw (e : Error).
Arguments Normal {Error A} a.
Arguments Throw {Error A} e.

(** An [async] computation over a state [S]. *)
Definition Async (S Error A : Type) : Type := S → Completion Error A * S.

Definition ret {S Error A} (a : A) : Async S Error A := λ s, (Normal a, s).

Definition bind {S Error A B} (c : Async S Error A) (k : A → Async S Error B)
    : Async S Error B :=
  λ s, match c s with
       | (Normal a, s') => k a s'
       | (Throw e, s') => (Throw e, s')
       end.

Notation "'let*' x ':=' c 'in' k" := (bind c (λ x, k))
  (at level 10, x name, c at level 100, k at level 200).

(** What the router asked of its collaborators, in the order of the calls;
    [failure] is the error the call threw, if it threw. *)
Inductive Event (Error : Type) : Type :=
  | Classified (question : string) (failure : option Error)
  | Invoked (intent : DepartmentIntent) (taskDirective history : string)
      (failure : option Error).
Arguments Classified {Error} question failure.
Arguments Invoked {Error} intent taskDirective history failure.

Definition failure {Error} (ev : Event Error) : option Error :=
  match ev with
  | Classified _ f => f
  | Invoked _ _ _ f => f
  end.

Definition thrown {Error A} (c : Completion Error A) : option Error :=
  match c with Normal _ => None | Throw e => Some e end.

(** The state a [route] call runs in: the outside world and the calls made. *)
Record Env (W Error : Type) := {
  world : W;
  trace : list (Event Error)
}.
Arguments world {W Error} _.
Arguments trace {W Error} _.

(** Run an outside call and write it down. *)
Definition observed {W Error A} (ev : option Error → Event Error)
    (c : Async W Error A) : Async (Env W Error) Error A :=
  λ env, let '(r, w) := c (world env) in
         (r, {| world := w; trace := trace env ++ [ev (thrown r)] |}).

Section Agents.
(** The outside world, the values that can be thrown, and the
    [RunnableConfig] that is passed through. *)
Context {W Error RunnableConfig : Type}.

Abbreviation Call := (Async W Error).

(** The collaborators, as objects with the one method that is used. *)
Record RetrieverLike := {
  retriever_invoke : string → option RunnableConfig → Call (list DocumentInterface)
}.

Record ChatOpenAI := {
  llm_invoke : list BaseMessage → option RunnableConfig → Call BaseMessage
}.

Record ChatPromptTemplate := {
  formatMessages : PromptValues → Call (list BaseMessage)
}.

Record StructuredOutputParser (T : Type) := {
  getFormatInstructions : string;
  parse : string → Call T
}.
Arguments getFormatInstructions {T} _.
Arguments parse {T} _ _.

(** The library and built-in functions the agents are built from. *)
Record Library := {
  (** [ChatPromptTemplate.fromMessages], on (role, template) pairs *)
  fromMessages : list (string * string) → ChatPromptTemplate;
  (** [String.prototype.trim] *)
  trim : string → string;
  (** [StructuredOutputParser.fromZodSchema] at the agents' schema *)
  agentParser : StructuredOutputParser ParsedAnswer;
  (** [orchestratorParser] *)
  orchestratorParser : StructuredOutputParser OrchestratorResult
}.

Variable lib : Library.

(** [extractAnswer] of [DomainRagAgent], and, with the same body,
    [extractText] of [OrchestratorAgent]. *)
Definition chunk_text (chunk : ContentChunk) : string :=
  match chunk with
  | ChunkString s => s
  | ChunkText t => t
  | ChunkOther => ""
  end.

Definition extractAnswer (message : BaseMessage) : string :=
  match content message with
  | ContentString s => s
  | ContentArray chunks => trim lib (join "" (chunk_text <$> chunks))
  | ContentOther => ""
  end.

Definition extractText := extractAnswer.

(** *** [DomainRagAgent] *)

Record DomainRagAgent := {
  llm : ChatOpenAI;
  retriever : RetrieverLike;
  options : DomainAgentOptions.t;
  prompt : ChatPromptTemplate;
  parser : StructuredOutputParser ParsedAnswer
}.

Definition agent_name (self : DomainRagAgent) : string :=
  DomainAgentOptions.name (options self).

Definition agent_intent (self : DomainRagAgent) : DepartmentIntent :=
  DomainAgentOptions.intent (options self).

(** [DomainRagAgent.init] *)
Definition init (llm : ChatOpenAI) (retriever : RetrieverLike)
    (options : DomainAgentOptions.t) : DomainRagAgent :=
  let prompt := fromMessages lib [
    ("system",
     "You are " +:+ DomainAgentOptions.name options +:+
     ". Follow this style guide: " +:+ DomainAgentOptions.styleGuide options +:+
     ". " +:+
     "Ground every reply in the provided context, cite KB identifiers when possible, and say you do not know if the answer is missing. If another department must help, clearly state that in the follow_up section of the JSON response described by {format_instructions}.");
    ("human",
     "Conversation so far:" +:+ nl +:+ "{history}" +:+ nl +:+ nl +:+
     "Question: {question}" +:+ nl +:+ nl +:+ "Context:" +:+ nl +:+
     "{context}" +:+ nl +:+ nl +:+ "Adhere to: {format_instructions}")
  ] in
  {| llm := llm; retriever := retriever; options := options;
     prompt := prompt; parser := agentParser lib |}.

(** [formatContext] *)
Definition source_label (idx : nat) (doc : DocumentInterface) : string :=
  match metadata_source doc with
  | Some (MetaString s) => s
  | Some (MetaOther printed) => printed
  | None => chunk_label idx
  end.

Definition formatContext (docs : list DocumentInterface) : string :=
  match docs with
  | [] => "No matching documents."
  | _ =>
      join (nl +:+ nl +:+ "---" +:+ nl +:+ nl)
        (imap (λ idx doc,
                 "Source: " +:+ source_label idx doc +:+ nl +:+ pageContent doc)
              docs)
  end.

(** The [sources] of a result: the citations, or else one label per
    retrieved passage. *)
Definition fallback_source (idx : nat) (doc : DocumentInterface) : string :=
  match metadata_source doc with
  | Some (MetaString s) => s
  | _ => chunk_label idx
  end.

(** The object that [invoke] returns, from the parsed answer. *)
Definition agent_result (parsed : ParsedAnswer)
    (sourceDocs : list DocumentInterface) : DomainAgentResult :=
  {| text := answer parsed;
     sources :=
       if 0 <? length (citations parsed) then citations parsed
       else imap fallback_source sourceDocs;
     handoff :=
       match follow_up parsed with
       | Some f =>
           if bool_decide (FollowUp.intent f ≠ unknown) then
             Some {| Handoff.intent := FollowUp.intent f;
                     Handoff.reason := FollowUp.reason f;
                     Handoff.context := FollowUp.context_package f |}
           else None
       | None => None
       end |}.

(** [DomainRagAgent.invoke] *)
Definition invoke (self : DomainRagAgent) (question : string)
    (history : option string) (config : option RunnableConfig)
    : Call DomainAgentResult :=
  let history := default "No prior agent responses." history in
  let* sourceDocs := retriever_invoke (retriever self) question config in
  let context := formatContext sourceDocs in
  let* messages :=
    formatMessages (prompt self)
      [("context", context); ("question", question); ("history", history);
       ("format_instructions", getFormatInstructions (parser self))] in
  let* llmResponse := llm_invoke (llm self) messages config in
  let* parsed := parse (parser self) (extractAnswer llmResponse) in
  ret (agent_result parsed sourceDocs).

(** [createHrAgent], [createTechAgent], [createFinanceAgent] *)
Definition createHrAgent (llm : ChatOpenAI) (retriever : RetrieverLike) :=
  init llm retriever
    {| DomainAgentOptions.intent := hr;
       DomainAgentOptions.name := "HR Knowledge Specialist";
       DomainAgentOptions.styleGuide :=
         "Prioritize empathy, cite policy IDs, mention leave types, onboarding steps, and benefits clarifications. Provide action items and escalation options for HRBP involvement." |}.

Definition createTechAgent (llm : ChatOpenAI) (retriever : RetrieverLike) :=
  init llm retriever
    {| DomainAgentOptions.intent := tech;
       DomainAgentOptions.name := "IT Support Strategist";
       DomainAgentOptions.styleGuide :=
         "Diagnose root causes, reference KB tickets, surface remediation steps with command examples, and list monitoring signals before resolving incidents." |}.

Definition createFinanceAgent (llm : ChatOpenAI) (retriever : RetrieverLike) :=
  init llm retriever
    {| DomainAgentOptions.intent := finance;
       DomainAgentOptions.name := "Finance Operations Advisor";
       DomainAgentOptions.styleGuide :=
         "Detail approval matrices, cite invoice and audit codes, include timelines, and flag SOX or budget compliance considerations explicitly." |}.

(** *** [OrchestratorAgent] *)

Record OrchestratorAgent := {
  orchestrator_llm : ChatOpenAI;
  orchestrator_prompt : ChatPromptTemplate;
  orchestrator_parser : StructuredOutputParser OrchestratorResult
}.

(** The constructor. *)
Definition newOrchestratorAgent (llm : ChatOpenAI) : OrchestratorAgent :=
  {| orchestrator_llm := llm;
     orchestrator_prompt := fromMessages lib [
       ("system",
        "You are the routing orchestrator for the employee helpdesk. Identify whether a question spans multiple departments (hr, tech, finance, unknown) and order the intents in the sequence they should be engaged. Always mention unknown if nothing fits.");
       ("human",
        "Question: {question}" +:+ nl +:+ nl +:+
        "Return JSON that follows: {format_instructions}")
     ];
     orchestrator_parser := orchestratorParser lib |}.

(** [OrchestratorAgent.classify] *)
Definition classify (self : OrchestratorAgent) (question : string)
    (config : option RunnableConfig) : Call OrchestratorResult :=
  let* messages :=
    formatMessages (orchestrator_prompt self)
      [("question", question);
       ("format_instructions",
        getFormatInstructions (orchestrator_parser self))] in
  let* response := llm_invoke (orchestrator_llm self) messages config in
  parse (orchestrator_parser self) (extractText response).

End Agents.

Arguments RetrieverLike : clear implicits.
Arguments ChatOpenAI : clear implicits.
Arguments ChatPromptTemplate : clear implicits.
Arguments StructuredOutputParser : clear implicits.
Arguments Library : clear implicits.
Arguments DomainRagAgent : clear implicits.
Arguments OrchestratorAgent : clear implicits.
Arguments getFormatInstructions {W Error T} _.
Arguments parse {W Error T} _ _.

(** ** [multi_agent_system.ts]: [MultiAgentRouter] *)

Section Router.
Context {W Error RunnableConfig : Type}.

Abbreviation Agent := (DomainRagAgent W Error RunnableConfig).
Abbreviation Route := (Async (Env W Error) Error).

Variable lib : Library W Error.

(** The two constructor arguments; [agents] is the object that is indexed
    by intent. *)
Record MultiAgentRouter := {
  orchestrator : OrchestratorAgent W Error RunnableConfig;
  agents : gmap DepartmentIntent Agent
}.

Variable self : MultiAgentRouter.

(** [turn.intentTried === 'unknown' ? 'Unknown intent'
     : this.agents[turn.intentTried]?.name ?? turn.intentTried] *)
Definition history_label (turn : AgentTurn) : string :=
  if bool_decide (intentTried turn = unknown) then "Unknown intent"
  else match agents self !! intentTried turn with
       | Some agent => agent_name agent
       | None => intent_string (intentTried turn)
       end.

Definition build_history (turns : list AgentTurn) : string :=
  join (nl +:+ nl)
    ((λ turn, history_label turn +:+ ":" +:+ nl +:+ text (response turn))
       <$> turns).

(** A string counts as true unless it is empty. *)
Definition truthy (s : string) : bool := negb (String.eqb s "").

(** [note ? `${question}\n\nFollow-up directive: ${note}` : question] *)
Definition task_directive (question : string) (note : option string) : string :=
  match note with
  | Some n =>
      if truthy n then question +:+ nl +:+ nl +:+ "Follow-up directive: " +:+ n
      else question
  | None => question
  end.

(** [history || 'No prior agent responses.'] *)
Definition history_or_sentinel (history : string) : string :=
  if truthy history then history else "No prior agent responses.".

(** The queue after the handoff of [response] has been looked at. *)
Definition enqueue_handoff (response : DomainAgentResult)
    (visited : gset DepartmentIntent) (queue : list IntentQueueItem.t)
    : list IntentQueueItem.t :=
  match handoff response with
  | Some h =>
      if bool_decide (Handoff.intent h ∉ visited) then
        queue ++ [ {| IntentQueueItem.intent := Handoff.intent h;
                      IntentQueueItem.note :=
                        Some (default (Handoff.reason h) (Handoff.context h)) |} ]
      else queue
  | None => queue
  end.

(** One round of the [while] loop, after [queue.shift()] has split the
    queue into [item] and [rest]. *)
Definition loop_body (question : string) (config : option RunnableConfig)
    (item : IntentQueueItem.t) (rest : list IntentQueueItem.t)
    (st : Loop.t) : Route Loop.t :=
  let intent := IntentQueueItem.intent item in
  let note := IntentQueueItem.note item in
  let skip := Loop.mk rest (Loop.visited st) (Loop.turns st) in
  if bool_decide (intent = unknown) || bool_decide (intent ∈ Loop.visited st)
  then ret skip
  else
    match agents self !! intent with
    | None => ret skip
    | Some agent =>
        let history := build_history (Loop.turns st) in
        let taskDirective := task_directive question note in
        let* response :=
          observed (Invoked intent taskDirective (history_or_sentinel history))
            (invoke lib agent taskDirective
               (Some (history_or_sentinel history)) config) in
        let turns := Loop.turns st ++
                     [ {| intentTried := intent; response := response |} ] in
        let visited := {[ intent ]} ∪ Loop.visited st in
        ret (Loop.mk (enqueue_handoff response visited rest) visited turns)
    end.

(** [while (queue.length && turns.length < 5) { ... }].  The rounds are
    counted down from [fuel]; [None] is a loop that wants more rounds. *)
Fixpoint dispatch (fuel : nat) (question : string)
    (config : option RunnableConfig) (st : Loop.t) (env : Env W Error)
    : option (Completion Error Loop.t * Env W Error) :=
  match Loop.queue st with
  | [] => Some (Normal st, env)
  | item :: rest =>
      if length (Loop.turns st) <? TURN_BUDGET then
        match fuel with
        | 0 => None
        | S fuel' =>
            match loop_body question config item rest st env with
            | (Normal st', env') => dispatch fuel' question config st' env'
            | (Throw e, env') => Some (Throw e, env')
            end
        end
      else Some (Normal st, env)
  end.

(** Rounds that are enough for a queue: a round either drops an item or
    records one of the [TURN_BUDGET] turns. *)
Definition rounds (st : Loop.t) : nat :=
  length (Loop.queue st) + 2 * (TURN_BUDGET - length (Loop.turns st)).

(** The locals before the loop. *)
Definition initial_locals (classification : OrchestratorResult) : Loop.t :=
  let orderedIntents := resolveOrderedIntents classification in
  Loop.mk ((λ intent, IntentQueueItem.mk intent None) <$> orderedIntents) ∅ [].

(** [route] up to the end of the loop: the classification and the locals. *)
Definition route_locals (question : string) (config : option RunnableConfig)
    (env : Env W Error)
    : option (Completion Error (OrchestratorResult * Loop.t) * Env W Error) :=
  match observed (Classified question)
          (classify lib (orchestrator self) question config) env with
  | (Throw e, env') => Some (Throw e, env')
  | (Normal classification, env') =>
      let st := initial_locals classification in
      match dispatch (rounds st) question config st env' with
      | None => None
      | Some (Throw e, env'') => Some (Throw e, env'')
      | Some (Normal st', env'') => Some (Normal (classification, st'), env'')
      end
  end.

(** The [RouteResult] that is built after the loop. *)
Definition route_result (classification : OrchestratorResult) (st : Loop.t)
    : RouteResult :=
  {| classification := classification;
     turns := Loop.turns st;
     unresolvedIntents :=
       filter (λ intent, intent ∉ Loop.visited st)
         (IntentQueueItem.intent <$> Loop.queue st) |}.

(** [MultiAgentRouter.route] *)
Definition route (question : string) (config : option RunnableConfig)
    (env : Env W Error) : option (Completion Error RouteResult * Env W Error) :=
  match route_locals question config env with
  | None => None
  | Some (Throw e, env') => Some (Throw e, env')
  | Some (Normal (classification, st), env') =>
      Some (Normal (route_result classification st), env')
  end.

(** The three ways a round can go: the item is dropped, its agent answers,
    or its agent throws. *)
Inductive Round (question : string) (config : option RunnableConfig)
    (item : IntentQueueItem.t) (rest : list IntentQueueItem.t)
    (st : Loop.t) (env : Env W Error)
    : Completion Error Loop.t → Env W Error → Prop :=
  | round_skip :
      IntentQueueItem.intent item = unknown ∨ IntentQueueItem.intent item ∈ Loop.visited st ∨
        agents self !! IntentQueueItem.intent item = None →
      Round question config item rest st env
        (Normal (Loop.mk rest (Loop.visited st) (Loop.turns st))) env
  | round_turn agent response w :
      IntentQueueItem.intent item ≠ unknown →
      IntentQueueItem.intent item ∉ Loop.visited st →
      agents self !! IntentQueueItem.intent item = Some agent →
      invoke lib agent (task_directive question (IntentQueueItem.note item))
        (Some (history_or_sentinel (build_history (Loop.turns st))))
        config (world env) = (Normal response, w) →
      Round question config item rest st env
        (Normal
           (Loop.mk
              (enqueue_handoff response ({[IntentQueueItem.intent item]} ∪ Loop.visited st) rest)
              ({[IntentQueueItem.intent item]} ∪ Loop.visited st)
              (Loop.turns st ++
                 [ {| intentTried := IntentQueueItem.intent item; response := response |} ])))
        {| world := w;
           trace := trace env ++
             [ Invoked (IntentQueueItem.intent item) (task_directive question (IntentQueueItem.note item))
                 (history_or_sentinel (build_history (Loop.turns st))) None ] |}
  | round_throw agent e w :
      IntentQueueItem.intent item ≠ unknown →
      IntentQueueItem.intent item ∉ Loop.visited st →
      agents self !! IntentQueueItem.intent item = Some agent →
      invoke lib agent (task_directive question (IntentQueueItem.note item))
        (Some (history_or_sentinel (build_history (Loop.turns st))))
        config (world env) = (Throw e, w) →
      Round question config item rest st env (Throw e)
        {| world := w;
           trace := trace env ++
             [ Invoked (IntentQueueItem.intent item) (task_directive question (IntentQueueItem.note item))
                 (history_or_sentinel (build_history (Loop.turns st)))
                 (Some e) ] |}.

End Router.

Arguments MultiAgentRouter : clear implicits.

(** ** Vocabulary of the properties *)

Abbreviation intent_of := IntentQueueItem.intent.
Abbreviation note_of := IntentQueueItem.note.

(** The intents of a transcript, in dispatch order. *)
Definition tried (ts : list AgentTurn) : list DepartmentIntent :=
  intentTried <$> ts.

(** The department an event invoked, for an agent call. *)
Definition invoked_intent {Error} (ev : Event Error) : option DepartmentIntent :=
  match ev with
  | Invoked intent _ _ _ => Some intent
  | Classified _ _ => None
  end.

(** [ev] is the call that produced [turn]: the agent of the turn's intent was
    invoked and answered. *)
Definition answered {Error} (ev : Event Error) (turn : AgentTurn) : Prop :=
  ∃ taskDirective history,
    ev = Invoked (intentTried turn) taskDirective history None.

(** What the dispatch loop keeps true of its locals. *)
Record LoopInvariant (st : Loop.t) : Prop := {
  visited_tried : Loop.visited st = list_to_set (tried (Loop.turns st));
  tried_NoDup : NoDup (tried (Loop.turns st));
  tried_known : unknown ∉ tried (Loop.turns st);
  within_budget : length (Loop.turns st) ≤ TURN_BUDGET
}.

(** The calls since the trace [t0], one per turn and all answered. *)
Definition Logged {W Error} (t0 : list (Event Error)) (st : Loop.t)
    (env : Env W Error) : Prop :=
  ∃ invs, trace env = t0 ++ invs ∧ Forall2 answered invs (Loop.turns st).

(** The calls since [t0] when the loop was left by the error [e]: answered
    calls, then the call that threw [e]. *)
Definition Aborted {W Error} (t0 : list (Event Error)) (e : Error)
    (env : Env W Error) : Prop :=
  ∃ st invs intent taskDirective history,
    LoopInvariant st ∧ Forall2 answered invs (Loop.turns st) ∧
    intent ≠ unknown ∧
    trace env = t0 ++ invs ++ [Invoked intent taskDirective history (Some e)].

(** What the loop keeps true of the requests it has seen: every turn holds
    an answer of the agent of its intent, and every department that the
    classification or a handoff of a turn asked for, and that has an agent,
    is visited or still queued. *)
Definition Served {W Error RunnableConfig} (lib : Library W Error)
    (self : MultiAgentRouter W Error RunnableConfig)
    (config : option RunnableConfig) (c : OrchestratorResult) (st : Loop.t)
    : Prop :=
  (∀ turn, turn ∈ Loop.turns st →
     ∃ agent task history w w',
       agents self !! intentTried turn = Some agent ∧
       invoke lib agent task history config w = (Normal (response turn), w')) ∧
  (∀ d, d ∈ intents c → d ≠ unknown → is_Some (agents self !! d) →
     d ∈ Loop.visited st ∨ d ∈ IntentQueueItem.intent <$> Loop.queue st) ∧
  (∀ turn h, turn ∈ Loop.turns st → handoff (response turn) = Some h →
     Handoff.intent h ≠ unknown → is_Some (agents self !! Handoff.intent h) →
     Handoff.intent h ∈ Loop.visited st ∨
     Handoff.intent h ∈ IntentQueueItem.intent <$> Loop.queue st).

(** An agent whose every answer hands off to [target]. *)
Definition hands_off_to {W Error RunnableConfig} (lib : Library W Error)
    (agent : DomainRagAgent W Error RunnableConfig)
    (target : DepartmentIntent) : Prop :=
  ∀ task history config w r w',
    invoke lib agent task history config w = (Normal r, w') →
    ∃ h, handoff r = Some h ∧ Handoff.intent h = target.

(** An agent whose every answer hands off to [target] with the context
    package [note]. *)
Definition hands_off_with {W Error RunnableConfig} (lib : Library W Error)
    (agent : DomainRagAgent W Error RunnableConfig)
    (target : DepartmentIntent) (note : string) : Prop :=
  ∀ task history config w r w',
    invoke lib agent task history config w = (Normal r, w') →
    ∃ h, handoff r = Some h ∧ Handoff.intent h = target ∧
         Handoff.context h = Some note.

(** An agent whose answers never hand off. *)
Definition hands_off_to_nobody {W Error RunnableConfig} (lib : Library W Error)
    (agent : DomainRagAgent W Error RunnableConfig) : Prop :=
  ∀ task history config w r w',
    invoke lib agent task history config w = (Normal r, w') →
    handoff r = None.

(** An agent that never throws. *)
Definition always_answers {W Error RunnableConfig} (lib : Library W Error)
    (agent : DomainRagAgent W Error RunnableConfig) : Prop :=
  ∀ task history config w,
    ∃ r w', invoke lib agent task history config w = (Normal r, w').

(** ** Test doubles

    Scripted collaborators, to run the router on: the world counts the calls
    to language models, errors are messages, and the model of an agent always
    gives the same reply, which the parser looks up in a table. *)

Module Stub.

Definition World := nat.
Definition Err := string.
Definition Config := unit.

Definition llm_says (reply : string) : ChatOpenAI World Err Config :=
  {| llm_invoke _ _ :=
       λ n, (Normal {| role := "ai"; content := ContentString reply |}, S n) |}.

Definition llm_fails (message : string) : ChatOpenAI World Err Config :=
  {| llm_invoke _ _ := λ n, (Throw message, S n) |}.

Definition retriever_of (docs : list DocumentInterface)
    : RetrieverLike World Err Config :=
  {| retriever_invoke _ _ := ret docs |}.

(** Templates are passed on as they are. *)
Definition prompt_of (templates : list (string * string))
    : ChatPromptTemplate World Err :=
  {| formatMessages _ :=
       ret ((λ t, {| role := t.1; content := ContentString t.2 |}) <$> templates) |}.

Fixpoint lookup_reply {T} (table : list (string * T)) (reply : string)
    : option T :=
  match table with
  | [] => None
  | (key, value) :: table' =>
      if String.eqb key reply then Some value else lookup_reply table' reply
  end.

Definition parser_of {T} (table : list (string * T))
    : StructuredOutputParser World Err T :=
  {| getFormatInstructions := "Reply with one of the scripted answers.";
     parse reply :=
       match lookup_reply table reply with
       | Some value => ret value
       | None => λ w, (Throw "Failed to parse", w)
       end |}.

Definition says (body : string) (next : option FollowUp.t) : ParsedAnswer :=
  {| answer := body; citations := []; follow_up := next |}.

Definition to (intent : DepartmentIntent) (reason : string)
    (context_package : option string) : option FollowUp.t :=
  Some (FollowUp.mk intent reason context_package).

(** The replies of the scripted agents. *)
Definition agent_replies : list (string * ParsedAnswer) :=
  [ ("done", says "Here is the answer." None);
    ("ask hr", says "HR should look at this." (to hr "policy question" None));
    ("ask tech", says "IT should look at this." (to tech "access problem" None));
    ("ask finance",
     says "Finance should look at this." (to finance "approval needed" None));
    ("ask finance for sign-off",
     says "Leave is approved by HR."
       (to finance "budget" (Some "needs budget sign-off")));
    ("ask nobody",
     says "Nobody else can help." (to unknown "out of scope" None)) ].

(** The replies of the scripted classifier. *)
Definition classified (l : list DepartmentIntent) : OrchestratorResult :=
  {| intents := l; confidence := 9 # 10; reasoning := "scripted classification" |}.

Definition classifier_replies : list (string * OrchestratorResult) :=
  [ ("hr", classified [hr]);
    ("hr, tech", classified [hr; tech]);
    ("unknown", classified [unknown]);
    ("unknown, tech, tech", classified [unknown; tech; tech]) ].

Definition lib : Library World Err :=
  {| fromMessages := prompt_of;
     trim := id;
     agentParser := parser_of agent_replies;
     orchestratorParser := parser_of classifier_replies |}.

Definition doc (body source : string) : DocumentInterface :=
  {| pageContent := body; metadata_source := Some (MetaString source) |}.

(** The three agents, each with the model it is given. *)
Definition hr_agent (llm : ChatOpenAI World Err Config) :=
  createHrAgent lib llm (retriever_of [doc "Leave policy" "hr/leave.md"]).

Definition tech_agent (llm : ChatOpenAI World Err Config) :=
  createTechAgent lib llm (retriever_of [doc "VPN runbook" "tech/vpn.md"]).

Definition finance_agent (llm : ChatOpenAI World Err Config) :=
  createFinanceAgent lib llm
    (retriever_of [doc "Approval matrix" "finance/approvals.csv"]).

(** A router whose classifier and three agents follow a script. *)
Definition router (classifier hr_llm tech_llm finance_llm
    : ChatOpenAI World Err Config) : MultiAgentRouter World Err Config :=
  {| orchestrator := newOrchestratorAgent lib classifier;
     agents :=
       <[ hr := hr_agent hr_llm ]>
       (<[ tech := tech_agent tech_llm ]>
       (<[ finance := finance_agent finance_llm ]> ∅)) |}.

(** The handoff cycle through the three departments. *)
Definition next (d : DepartmentIntent) : DepartmentIntent :=
  match d with
  | hr => tech
  | tech => finance
  | finance => hr
  | unknown => unknown
  end.

Definition start : Env World Err := {| world := 0; trace := [] |}.

(** What a run shows: the intents of the turns, the unresolved intents and
    the calls. *)
Definition summary (run : option (Completion Err RouteResult * Env World Err))
    : option (Completion Err (list DepartmentIntent * list DepartmentIntent)
              * list (Event Err)) :=
  match run with
  | Some (Normal r, env) =>
      Some (Normal (intentTried <$> turns r, unresolvedIntents r), trace env)
  | Some (Throw e, env) => Some (Throw e, trace env)
  | None => None
  end.

(** The scripts of the scenarios. *)
Definition sign_off_router :=
  router (llm_says "hr, tech") (llm_says "ask finance for sign-off")
    (llm_says "done") (llm_says "done").

Definition ping_pong_router :=
  router (llm_says "hr") (llm_says "ask tech") (llm_says "ask hr")
    (llm_says "done").

Definition cycle_router :=
  router (llm_says "hr") (llm_says "ask tech") (llm_says "ask finance")
    (llm_says "ask hr").

Definition deaf_classifier_router :=
  router (llm_fails "classifier timeout") (llm_says "done") (llm_says "done")
    (llm_says "done").

Definition broken_tech_router :=
  router (llm_says "hr, tech") (llm_says "ask finance") (llm_fails "model overloaded")
    (llm_says "done").

Definition unknown_router :=
  router (llm_says "unknown, tech, tech") (llm_says "done")
    (llm_says "ask nobody") (llm_says "done").

End Stub.

(** ** Vocabulary of the properties of the calls *)

(** Where a queue item comes from: the classification, which gives no note,
    or the handoff of a turn, which gives the context, or else the reason,
    as the note. *)
Definition from_classification (c : OrchestratorResult)
    (item : IntentQueueItem.t) : Prop :=
  intent_of item ∈ intents c ∧ note_of item = None.

Definition from_handoff (ts : list AgentTurn) (item : IntentQueueItem.t) : Prop :=
  ∃ turn h,
    turn ∈ ts ∧ handoff (response turn) = Some h ∧
    item = IntentQueueItem.mk (Handoff.intent h)
             (Some (default (Handoff.reason h) (Handoff.context h))).

Definition origin (c : OrchestratorResult) (ts : list AgentTurn)
    (item : IntentQueueItem.t) : Prop :=
  from_classification c item ∨ from_handoff ts item.

(** [ev] is the call that made turn [k] of the transcript [ts]: the agent of
    the turn's intent was invoked for a queue item that came from the
    classification or from an earlier turn, with the directive of that item
    and the history of the [k] earlier turns, and answered with the response
    of the turn. *)
Definition call_of {W Error RunnableConfig} (lib : Library W Error)
    (self : MultiAgentRouter W Error RunnableConfig) (question : string)
    (config : option RunnableConfig) (c : OrchestratorResult)
    (ts : list AgentTurn) (k : nat) (ev : Event Error) : Prop :=
  ∃ turn item agent w w',
    ts !! k = Some turn ∧
    origin c (take k ts) item ∧
    intent_of item = intentTried turn ∧
    agents self !! intentTried turn = Some agent ∧
    invoke lib agent (task_directive question (note_of item))
      (Some (history_or_sentinel (build_history self (take k ts))))
      config w = (Normal (response turn), w') ∧
    ev = Invoked (intentTried turn) (task_directive question (note_of item))
           (history_or_sentinel (build_history self (take k ts))) None.

(** What the loop keeps true of its queue and of its calls since [t0]. *)
Definition Story {W Error RunnableConfig} (lib : Library W Error)
    (self : MultiAgentRouter W Error RunnableConfig) (question : string)
    (config : option RunnableConfig) (c : OrchestratorResult)
    (t0 : list (Event Error)) (st : Loop.t) (env : Env W Error) : Prop :=
  Forall (origin c (Loop.turns st)) (Loop.queue st) ∧
  ∃ invs,
    trace env = t0 ++ invs ∧
    length invs = length (Loop.turns st) ∧
    ∀ k ev, invs !! k = Some ev →
            call_of lib self question config c (Loop.turns st) k ev.

(** The calls since [t0] of a loop that the error [e] ended: the calls of
    the turns so far, then the call that threw [e], made for a queue item of
    a department that was not visited. *)
Definition Failed {W Error RunnableConfig} (lib : Library W Error)
    (self : MultiAgentRouter W Error RunnableConfig) (question : string)
    (config : option RunnableConfig) (c : OrchestratorResult)
    (t0 : list (Event Error)) (e : Error) (env : Env W Error) : Prop :=
  ∃ st invs item agent w w',
    LoopInvariant st ∧
    length invs = length (Loop.turns st) ∧
    (∀ k ev, invs !! k = Some ev →
             call_of lib self question config c (Loop.turns st) k ev) ∧
    origin c (Loop.turns st) item ∧
    intent_of item ≠ unknown ∧
    (intent_of item ∉ Loop.visited st) ∧
    agents self !! intent_of item = Some agent ∧
    invoke lib agent (task_directive question (note_of item))
      (Some (history_or_sentinel (build_history self (Loop.turns st))))
      config w = (Throw e, w') ∧
    trace env = t0 ++ invs ++
      [ Invoked (intent_of item) (task_directive question (note_of item))
          (history_or_sentinel (build_history self (Loop.turns st))) (Some e) ].

(** A department that the loop can dispatch: not [unknown], and with an agent. *)
Definition dispatchable {W Error RunnableConfig}
    (self : MultiAgentRouter W Error RunnableConfig) (d : DepartmentIntent)
    : Prop :=
  d ≠ unknown ∧ is_Some (agents self !! d).

#[global] Instance dispatchable_dec {W Error RunnableConfig}
    (self : MultiAgentRouter W Error RunnableConfig) (d : DepartmentIntent) :
  Decision (dispatchable self d).
Proof. unfold dispatchable. apply _. Defined.

(** What the loop keeps true of the order of its turns: while intents of
    the classification are pending at the head of the queue, the turns are
    those of the dispatchable intents that are done, in their order. *)
Definition Ordered {W Error RunnableConfig}
    (self : MultiAgentRouter W Error RunnableConfig) (c : OrchestratorResult)
    (st : Loop.t) : Prop :=
  ∃ done pending pushed later,
    resolveOrderedIntents c = done ++ pending ∧
    intent_of <$> Loop.queue st = pending ++ pushed ∧
    tried (Loop.turns st) = filter (dispatchable self) done ++ later ∧
    (pending ≠ [] → later = []).

(** The queue item that the handoff of a turn asks for. *)
Definition handoff_item (turn : AgentTurn) : option IntentQueueItem.t :=
  (λ h, IntentQueueItem.mk (Handoff.intent h)
          (Some (default (Handoff.reason h) (Handoff.context h))))
    <$> handoff (response turn).

(** The items that the handoffs of a transcript ask for, in the order of
    the turns. *)
Definition handoff_items (ts : list AgentTurn) : list IntentQueueItem.t :=
  omap handoff_item ts.

Definition items_for (d : DepartmentIntent) (items : list IntentQueueItem.t)
    : list IntentQueueItem.t :=
  filter (λ item, intent_of item = d) items.

(** The directive that department [d] is given after the turns [ts]: the
    question as it was asked when the classification names [d], and else
    the directive of the first handoff of [ts] to [d]. *)
Definition directive_for (question : string) (c : OrchestratorResult)
    (ts : list AgentTurn) (d : DepartmentIntent) : string :=
  if decide (d ∈ intents c) then question
  else match head (items_for d (handoff_items ts)) with
       | Some item => task_directive question (note_of item)
       | None => question
       end.

(** What the loop keeps true of the notes in its queue and of the
    directives of its calls since [t0]: the items of the classification
    that are pending are at the head of the queue; behind them, the items
    of a department that can still be dispatched are those of the handoffs
    to it, in the order of the turns. *)
Definition Directed {W Error RunnableConfig}
    (self : MultiAgentRouter W Error RunnableConfig) (question : string)
    (c : OrchestratorResult) (t0 : list (Event Error)) (st : Loop.t)
    (env : Env W Error) : Prop :=
  (∃ done pending pushed,
     resolveOrderedIntents c = done ++ pending ∧
     Loop.queue st =
       ((λ d, IntentQueueItem.mk d None) <$> pending) ++ pushed ∧
     (∀ d, d ∈ done → dispatchable self d → d ∈ Loop.visited st) ∧
     (∀ d, dispatchable self d → d ∉ Loop.visited st →
        items_for d pushed = items_for d (handoff_items (Loop.turns st)))) ∧
  ∃ invs,
    trace env = t0 ++ invs ∧
    length invs = length (Loop.turns st) ∧
    ∀ k turn, Loop.turns st !! k = Some turn →
      ∃ history,
        invs !! k =
          Some (Invoked (intentTried turn)
                  (directive_for question c (take k (Loop.turns st))
                     (intentTried turn))
                  history None).

(** ** [multi_agent_system.ts]: namespaces, vector stores, the index

    Strings are strings of bytes.  A character outside ASCII is a run of
    bytes above 127, none of which is an ASCII letter or digit, so that
    the two regular expressions below, which tell ASCII letters and digits
    from everything else, act on the bytes as they act on the characters. *)

(** What [/[a-z0-9]/i] matches: an ASCII letter or digit. *)
Definition is_alnum (a : ascii) : bool :=
  let n := nat_of_ascii a in
  ((48 <=? n) && (n <=? 57)) || ((65 <=? n) && (n <=? 90)) ||
  ((97 <=? n) && (n <=? 122)).

Definition is_upper (a : ascii) : bool :=
  let n := nat_of_ascii a in (65 <=? n) && (n <=? 90).

(** The lower case of an ASCII letter; other bytes are left alone. *)
Definition lower_ascii (a : ascii) : ascii :=
  if is_upper a then ascii_of_nat (nat_of_ascii a + 32) else a.

Fixpoint lower_string (s : string) : string :=
  match s with
  | EmptyString => EmptyString
  | String a s' => String (lower_ascii a) (lower_string s')
  end.

(** The part of [s] before its end [suffix], where the end may differ from
    [suffix] in the case of its letters: a pattern of literal characters
    with the flag [i], anchored by [$]. *)
Fixpoint strip_suffix_ci (suffix s : string) : option string :=
  if String.eqb (lower_string s) suffix then Some EmptyString
  else match s with
       | EmptyString => None
       | String a s' => String a <$> strip_suffix_ci suffix s'
       end.

(** [.replace(/_docs?$/i, '')] *)
Definition strip_docs (s : string) : string :=
  match strip_suffix_ci "_docs" s with
  | Some s' => s'
  | None => default s (strip_suffix_ci "_doc" s)
  end.

(** [.replace(/[^a-z0-9]+/gi, '-')]: every longest run of bytes that are
    not letters or digits becomes one dash; [in_run] tells that the dash of
    the current run is written. *)
Fixpoint squash (in_run : bool) (s : string) : string :=
  match s with
  | EmptyString => EmptyString
  | String a s' =>
      if is_alnum a then String a (squash false s')
      else if in_run then squash true s'
      else String "-" (squash true s')
  end.

(** The constant [slug] of [namespaceForDomain]. *)
Definition slug (domainFolder : string) : string :=
  squash false (strip_docs domainFolder).

(** [namespaceForDomain]; [toLowerCase] is [String.prototype.toLowerCase]. *)
Definition namespaceForDomain (toLowerCase : string → string)
    (PINECONE_NAMESPACE_PREFIX domainFolder : string) : string :=
  toLowerCase (PINECONE_NAMESPACE_PREFIX +:+ "-" +:+ slug domainFolder).

(** Every byte of [s] satisfies [P]. *)
Fixpoint string_forall (P : ascii → bool) (s : string) : bool :=
  match s with
  | EmptyString => true
  | String a s' => P a && string_forall P s'
  end.

Definition is_dash (a : ascii) : bool := Ascii.eqb a "-".

(** No dash of [s] is followed by a dash. *)
Fixpoint no_double_dash (s : string) : bool :=
  match s with
  | EmptyString => true
  | String a s' =>
      match s' with
      | String b _ => negb (is_dash a && is_dash b)
      | EmptyString => true
      end && no_double_dash s'
  end.

(** A byte of ASCII. *)
Definition is_ascii (a : ascii) : bool := nat_of_ascii a <? 128.

(** A lower-case ASCII letter or a digit. *)
Definition is_lower_alnum (a : ascii) : bool := is_alnum a && negb (is_upper a).

(** [String.prototype.includes] *)
Fixpoint includes (needle hay : string) : bool :=
  String.prefix needle hay ||
  match hay with
  | EmptyString => false
  | String _ hay' => includes needle hay'
  end.

(** [splitDocs.map((_, idx) => `${namespace}-${idx}`)] *)
Definition chunk_ids (namespace : string) (splitDocs : list DocumentInterface)
    : list string :=
  imap (λ idx _, namespace +:+ "-" +:+ pretty idx) splitDocs.

Section Stores.
Context {W Error RunnableConfig Embeddings Index : Type}.

(** A [PineconeStore], with the three methods that are used. *)
Record PineconeStore := {
  store_delete : string → Async W Error unit;
  store_addDocuments :
    list DocumentInterface → list string → string → Async W Error unit;
  asRetriever : nat → RetrieverLike W Error RunnableConfig
}.

(** What the environment and the libraries give to the functions below. *)
Record Platform := {
  PINECONE_NAMESPACE_PREFIX : string;
  SHOULD_SEED_PINECONE : bool;
  PINECONE_API_KEY : string;
  PINECONE_INDEX : string;
  PINECONE_CONTROLLER_HOST : option string;
  dataDir : string;
  (** [path.join] *)
  path_join : string → string → string;
  toLowerCase : string → string;
  (** [new DirectoryLoader(folderPath, ...).load()] *)
  loader_load : string → Async W Error (list DocumentInterface);
  (** [splitter.splitDocuments] of the splitter of 250 characters *)
  splitDocuments :
    list DocumentInterface → Async W Error (list DocumentInterface);
  (** [PineconeStore.fromExistingIndex], on the namespace *)
  fromExistingIndex : Embeddings → Index → string → Async W Error PineconeStore;
  (** [error?.message] when it is a string *)
  error_message : Error → option string;
  console_warn : string → Async W Error unit;
  (** [new Pinecone(...).index(...)], on the key, the host and the name *)
  pinecone_index : string → option string → string → Async W Error Index;
  (** [new Error(message)] *)
  new_Error : string → Error
}.

Variable platform : Platform.

(** [loadDocuments] *)
Definition loadDocuments (domainFolder : string)
    : Async W Error (list DocumentInterface) :=
  let folderPath := path_join platform (dataDir platform) domainFolder in
  loader_load platform folderPath.

(** The [try] and [catch] around [store.delete]. *)
Definition delete_namespace (store : PineconeStore) (namespace : string)
    : Async W Error unit :=
  λ w, match store_delete store namespace w with
       | (Normal _, w') => (Normal (), w')
       | (Throw error, w') =>
           match error_message platform error with
           | Some message =>
               if includes "404" message then
                 console_warn platform
                   ("Pinecone namespace " +:+ namespace +:+
                    " not found yet. Skipping delete.") w'
               else (Throw error, w')
           | None => (Throw error, w')
           end
       end.

(** [buildVectorStore] *)
Definition buildVectorStore (domainFolder : string) (embeddings : Embeddings)
    (pineconeIndex : Index) : Async W Error PineconeStore :=
  let* docs := loadDocuments domainFolder in
  let* splitDocs := splitDocuments platform docs in
  let namespace :=
    namespaceForDomain (toLowerCase platform)
      (PINECONE_NAMESPACE_PREFIX platform) domainFolder in
  let* store := fromExistingIndex platform embeddings pineconeIndex namespace in
  if SHOULD_SEED_PINECONE platform then
    let* _ := delete_namespace store namespace in
    let ids := chunk_ids namespace splitDocs in
    let* _ := store_addDocuments store splitDocs ids namespace in
    ret store
  else ret store.

(** [createRetriever] *)
Definition createRetriever (store : PineconeStore)
    : RetrieverLike W Error RunnableConfig :=
  asRetriever store 5.

(** [buildAgents], on the three stores of [stores]. *)
Definition buildAgents (lib : Library W Error)
    (llm : ChatOpenAI W Error RunnableConfig)
    (stores_hr stores_tech stores_finance : PineconeStore)
    : gmap DepartmentIntent (DomainRagAgent W Error RunnableConfig) :=
  let hrAgent := createHrAgent lib llm (createRetriever stores_hr) in
  let techAgent := createTechAgent lib llm (createRetriever stores_tech) in
  let financeAgent :=
    createFinanceAgent lib llm (createRetriever stores_finance) in
  <[ hr := hrAgent ]> (<[ tech := techAgent ]> (<[ finance := financeAgent ]> ∅)).

(** [resolvePineconeIndex]; the state holds [pineconeIndexPromise] beside
    the world. *)
Definition resolvePineconeIndex : Async (W * option Index) Error Index :=
  λ '(w, pineconeIndexPromise),
    if negb (truthy (PINECONE_API_KEY platform)) ||
       negb (truthy (PINECONE_INDEX platform))
    then
      (Throw (new_Error platform
                "Pinecone configuration missing. Set PINECONE_API_KEY and PINECONE_INDEX."),
       (w, pineconeIndexPromise))
    else
      match pineconeIndexPromise with
      | Some index => (Normal index, (w, pineconeIndexPromise))
      | None =>
          let host :=
            match PINECONE_CONTROLLER_HOST platform with
            | Some h => if truthy h then Some h else None
            | None => None
            end in
          match pinecone_index platform (PINECONE_API_KEY platform) host
                  (PINECONE_INDEX platform) w with
          | (Normal index, w') => (Normal index, (w', Some index))
          | (Throw e, w') => (Throw e, (w', None))
          end
      end.

End Stores.

Arguments PineconeStore : clear implicits.
Arguments Platform : clear implicits.

(** Locals with five turns recorded and tech still queued, as the loop
    would have them when the budget is used up. *)
Definition spent_locals : Loop.t :=
  let turn :=
    {| intentTried := hr;
       response := {| text := "Ask again."; sources := []; handoff := None |} |} in
  Loop.mk [IntentQueueItem.mk tech None] {[hr]} (replicate 5 turn).

(** Scripted stores and a scripted platform, in the world of [Stub]. *)
Module StubStore.

(** A store whose deletion throws [failure], if any; the world counts the
    chunks that were added. *)
Definition store (failure : option string)
    : PineconeStore Stub.World Stub.Err Stub.Config :=
  {| store_delete _ :=
       λ n, match failure with
            | Some message => (Throw message, n)
            | None => (Normal (), n)
            end;
     store_addDocuments docs _ _ := λ n, (Normal (), n + length docs);
     asRetriever _ := Stub.retriever_of [] |}.

(** A platform that loads two passages, splits them into three chunks and
    finds a store whose deletion throws [failure]. *)
Definition platform (key : string) (failure : option string)
    : Platform Stub.World Stub.Err Stub.Config unit nat :=
  {| PINECONE_NAMESPACE_PREFIX := "dept";
     SHOULD_SEED_PINECONE := true;
     PINECONE_API_KEY := key;
     PINECONE_INDEX := "helpdesk";
     PINECONE_CONTROLLER_HOST := None;
     dataDir := "/srv/data";
     path_join a b := a +:+ "/" +:+ b;
     toLowerCase := lower_string;
     loader_load _ :=
       ret [Stub.doc "Leave policy" "hr/leave.md";
            Stub.doc "Onboarding" "hr/onboarding.md"];
     splitDocuments docs := ret (docs ++ take 1 docs);
     fromExistingIndex _ _ _ := ret (store failure);
     error_message e := Some e;
     console_warn _ := ret ();
     pinecone_index _ _ name := λ n, (Normal (String.length name), S n);
     new_Error message := message |}.

(** Two passages without a [metadata.source]. *)
Definition bare_docs : list DocumentInterface :=
  [ {| pageContent := "Reset the token."; metadata_source := None |};
    {| pageContent := "Restart the client.";
       metadata_source := Some (MetaOther "42") |} ].

Definition bare_agent : DomainRagAgent Stub.World Stub.Err Stub.Config :=
  createTechAgent Stub.lib (Stub.llm_says "done") (Stub.retriever_of bare_docs).

End StubStore.

(** ** [MultiAgentRouter.route] over any set of departments

    The lines of [route] once more, with the type of the intents as a
    parameter instead of the four values of [agents/types.ts], and with an
    agent as the two members that [route] uses, its [name] and its
    [invoke].  At [DepartmentIntent] this is [route] ([wide_route_agrees]
    below); at a type with more departments it shows what the turn budget
    does. *)

Module Wide.

Module Handoff.
Record t (I : Type) := mk {
  intent : I;
  reason : string;
  context : option string
}.
Arguments mk {I} _ _ _.
Arguments intent {I} _.
Arguments reason {I} _.
Arguments context {I} _.
End Handoff.

Record DomainAgentResult (I : Type) := {
  text : string;
  sources : list string;
  handoff : option (Handoff.t I)
}.
Arguments text {I} _.
Arguments sources {I} _.
Arguments handoff {I} _.

Record AgentTurn (I : Type) := {
  intentTried : I;
  response : DomainAgentResult I
}.
Arguments intentTried {I} _.
Arguments response {I} _.

Module IntentQueueItem.
Record t (I : Type) := mk { intent : I; note : option string }.
Arguments mk {I} _ _.
Arguments intent {I} _.
Arguments note {I} _.
End IntentQueueItem.

Record RouteResult (I C : Type) := {
  classification : C;
  turns : list (AgentTurn I);
  unresolvedIntents : list I
}.
Arguments classification {I C} _.
Arguments turns {I C} _.
Arguments unresolvedIntents {I C} _.

Module Loop.
Record t (I : Type) `{Countable I} := mk {
  queue : list (IntentQueueItem.t I);
  visited : gset I;
  turns : list (AgentTurn I)
}.
Arguments mk {I _ _} _ _ _.
Arguments queue {I _ _} _.
Arguments visited {I _ _} _.
Arguments turns {I _ _} _.
End Loop.

Section Router.
Context {I : Type} `{Countable I} {W Error RunnableConfig C : Type}.

(** What [route] uses of an agent. *)
Record Agent := {
  name : string;
  invoke :
    string → option string → option RunnableConfig →
    Async W Error (DomainAgentResult I)
}.

(** The value ['unknown'] and the string of an intent. *)
Variable unknown_intent : I.
Variable intent_string : I → string.

(** [this.orchestrator.classify], [OrchestratorAgent.resolveOrderedIntents]
    and [this.agents]. *)
Variable classify : string → option RunnableConfig → Async W Error C.
Variable resolveOrderedIntents : C → list I.
Variable agents : gmap I Agent.

Definition history_label (turn : AgentTurn I) : string :=
  if bool_decide (intentTried turn = unknown_intent) then "Unknown intent"
  else match agents !! intentTried turn with
       | Some agent => name agent
       | None => intent_string (intentTried turn)
       end.

Definition build_history (turns : list (AgentTurn I)) : string :=
  join (nl +:+ nl)
    ((λ turn, history_label turn +:+ ":" +:+ nl +:+ text (response turn))
       <$> turns).

Definition enqueue_handoff (response : DomainAgentResult I)
    (visited : gset I) (queue : list (IntentQueueItem.t I))
    : list (IntentQueueItem.t I) :=
  match handoff response with
  | Some h =>
      if bool_decide (Handoff.intent h ∉ visited) then
        queue ++ [ {| IntentQueueItem.intent := Handoff.intent h;
                      IntentQueueItem.note :=
                        Some (default (Handoff.reason h) (Handoff.context h)) |} ]
      else queue
  | None => queue
  end.

(** One round of the [while] loop, after [queue.shift()]. *)
Definition loop_body (question : string) (config : option RunnableConfig)
    (item : IntentQueueItem.t I) (rest : list (IntentQueueItem.t I))
    (st : Loop.t I) : Async W Error (Loop.t I) :=
  let intent := IntentQueueItem.intent item in
  let note := IntentQueueItem.note item in
  let skip := Loop.mk rest (Loop.visited st) (Loop.turns st) in
  if bool_decide (intent = unknown_intent)
     || bool_decide (intent ∈ Loop.visited st)
  then ret skip
  else
    match agents !! intent with
    | None => ret skip
    | Some agent =>
        let history := build_history (Loop.turns st) in
        let taskDirective := task_directive question note in
        let* response :=
          invoke agent taskDirective (Some (history_or_sentinel history))
            config in
        let turns := Loop.turns st ++
                     [ {| intentTried := intent; response := response |} ] in
        let visited := {[ intent ]} ∪ Loop.visited st in
        ret (Loop.mk (enqueue_handoff response visited rest) visited turns)
    end.

(** [while (queue.length && turns.length < 5) { ... }], with the rounds
    counted down from [fuel]. *)
Fixpoint dispatch (fuel : nat) (question : string)
    (config : option RunnableConfig) (st : Loop.t I) (w : W)
    : option (Completion Error (Loop.t I) * W) :=
  match Loop.queue st with
  | [] => Some (Normal st, w)
  | item :: rest =>
      if length (Loop.turns st) <? TURN_BUDGET then
        match fuel with
        | 0 => None
        | S fuel' =>
            match loop_body question config item rest st w with
            | (Normal st', w') => dispatch fuel' question config st' w'
            | (Throw e, w') => Some (Throw e, w')
            end
        end
      else Some (Normal st, w)
  end.

Definition rounds (st : Loop.t I) : nat :=
  length (Loop.queue st) + 2 * (TURN_BUDGET - length (Loop.turns st)).

Definition initial_locals (classification : C) : Loop.t I :=
  let orderedIntents := resolveOrderedIntents classification in
  Loop.mk ((λ intent, IntentQueueItem.mk intent None) <$> orderedIntents) ∅ [].

Definition route_result (classification : C) (st : Loop.t I)
    : RouteResult I C :=
  {| classification := classification;
     turns := Loop.turns st;
     unresolvedIntents :=
       filter (λ intent, intent ∉ Loop.visited st)
         (IntentQueueItem.intent <$> Loop.queue st) |}.

(** [route] *)
Definition route (question : string) (config : option RunnableConfig) (w : W)
    : option (Completion Error (RouteResult I C) * W) :=
  match classify question config w with
  | (Throw e, w') => Some (Throw e, w')
  | (Normal classification, w') =>
      let st := initial_locals classification in
      match dispatch (rounds st) question config st w' with
      | None => None
      | Some (Throw e, w'') => Some (Throw e, w'')
      | Some (Normal st', w'') =>
          Some (Normal (route_result classification st'), w'')
      end
  end.

(** An agent that never throws and whose every answer hands off to
    [target]. *)
Definition answers_handing_off_to (agent : Agent) (target : I) : Prop :=
  ∀ task history config w,
    ∃ r w' h,
      invoke agent task history config w = (Normal r, w') ∧
      handoff r = Some h ∧ Handoff.intent h = target.

(** The departments of [chain] are all the departments that have an agent,
    and the agent of each always hands off to the one after it, the last
    one to the first. *)
Definition chained (chain : list I) : Prop :=
  NoDup chain ∧ (unknown_intent ∉ chain) ∧
  (∀ d, is_Some (agents !! d) → d ∈ chain) ∧
  ∀ i d, chain !! i = Some d →
    ∃ agent d',
      chain !! (S i mod length chain) = Some d' ∧
      agents !! d = Some agent ∧
      answers_handing_off_to agent d'.

(** What the loop keeps true of its locals when the departments are
    [chained]. *)
Definition ChainInvariant (chain : list I) (st : Loop.t I) : Prop :=
  Loop.visited st = list_to_set (intentTried <$> Loop.turns st) ∧
  NoDup (intentTried <$> Loop.turns st) ∧
  length (Loop.turns st) ≤ TURN_BUDGET ∧
  (∀ d, d ∈ Loop.visited st → d ∈ chain) ∧
  (∀ i d d', chain !! i = Some d → chain !! (S i mod length chain) = Some d' →
     d ∈ Loop.visited st →
     d' ∈ Loop.visited st ∨ d' ∈ IntentQueueItem.intent <$> Loop.queue st) ∧
  ∃ d, d ∈ chain ∧
       (d ∈ Loop.visited st ∨ d ∈ IntentQueueItem.intent <$> Loop.queue st).

End Router.

End Wide.

(** The router of [route] as a router over any departments. *)
Definition wide_handoff (h : Handoff.t) : Wide.Handoff.t DepartmentIntent :=
  Wide.Handoff.mk (Handoff.intent h) (Handoff.reason h) (Handoff.context h).

Definition wide_result (r : DomainAgentResult)
    : Wide.DomainAgentResult DepartmentIntent :=
  {| Wide.text := text r; Wide.sources := sources r;
     Wide.handoff := wide_handoff <$> handoff r |}.

Definition wide_turn (t : AgentTurn) : Wide.AgentTurn DepartmentIntent :=
  {| Wide.intentTried := intentTried t;
     Wide.response := wide_result (response t) |}.

Definition wide_item (item : IntentQueueItem.t)
    : Wide.IntentQueueItem.t DepartmentIntent :=
  Wide.IntentQueueItem.mk (intent_of item) (note_of item).

Definition wide_locals (st : Loop.t) : Wide.Loop.t DepartmentIntent :=
  Wide.Loop.mk (wide_item <$> Loop.queue st) (Loop.visited st)
    (wide_turn <$> Loop.turns st).

Definition wide_route_result (r : RouteResult)
    : Wide.RouteResult DepartmentIntent OrchestratorResult :=
  {| Wide.classification := classification r;
     Wide.turns := wide_turn <$> turns r;
     Wide.unresolvedIntents := unresolvedIntents r |}.

Definition wide_completion {Error A B} (f : A → B) (c : Completion Error A)
    : Completion Error B :=
  match c with Normal a => Normal (f a) | Throw e => Throw e end.

Definition wide_agent {W Error RunnableConfig} (lib : Library W Error)
    (agent : DomainRagAgent W Error RunnableConfig)
    : Wide.Agent (I:=DepartmentIntent) (W:=W) (Error:=Error)
        (RunnableConfig:=RunnableConfig) :=
  {| Wide.name := agent_name agent;
     Wide.invoke task history config :=
       λ w, let '(r, w') := invoke lib agent task history config w in
            (wide_completion wide_result r, w') |}.

(** Modelled from the spec: the six departments of the scenario of the
    turn budget; [agents/types.ts] has three. *)
Module Six.

Inductive Department : Set :=
  | hr | tech | finance | legal | facilities | security | unknown.

#[global] Instance Department_eq_dec : EqDecision Department.
Proof. solve_decision. Defined.

Definition to_nat (d : Department) : nat :=
  match d with
  | hr => 0 | tech => 1 | finance => 2 | legal => 3 | facilities => 4
  | security => 5 | unknown => 6
  end.

Definition of_nat (n : nat) : option Department :=
  match n with
  | 0 => Some hr | 1 => Some tech | 2 => Some finance | 3 => Some legal
  | 4 => Some facilities | 5 => Some security | 6 => Some unknown
  | _ => None
  end.

#[global] Instance Department_countable : Countable Department.
Proof.
  apply (inj_countable to_nat of_nat). intros []; reflexivity.
Defined.

Definition intent_string (d : Department) : string :=
  match d with
  | hr => "hr" | tech => "tech" | finance => "finance" | legal => "legal"
  | facilities => "facilities" | security => "security" | unknown => "unknown"
  end.

Definition chain : list Department :=
  [hr; tech; finance; legal; facilities; security].

(** The department after [d] in the cycle. *)
Definition next (d : Department) : Department :=
  match d with
  | hr => tech | tech => finance | finance => legal | legal => facilities
  | facilities => security | security => hr | unknown => unknown
  end.

(** A scripted agent of [d]: it answers and hands off to [next d]. *)
Definition agent (d : Department)
    : Wide.Agent (I:=Department) (W:=nat) (Error:=string) (RunnableConfig:=unit) :=
  {| Wide.name := intent_string d +:+ " desk";
     Wide.invoke _ _ _ :=
       λ n, (Normal {| Wide.text := "Ask " +:+ intent_string (next d) +:+ ".";
                       Wide.sources := [];
                       Wide.handoff :=
                         Some (Wide.Handoff.mk (next d) "next in line" None) |},
             S n) |}.

Definition agents
    : gmap Department
        (Wide.Agent (I:=Department) (W:=nat) (Error:=string) (RunnableConfig:=unit)) :=
  list_to_map ((λ d, (d, agent d)) <$> chain).

(** A classifier that names the departments it is given. *)
Definition classify (l : list Department)
    : string → option unit → Async nat string (list Department) :=
  λ _ _ n, (Normal l, S n).

Definition route (l : list Department) (question : string) :=
  Wide.route unknown intent_string (classify l) id agents question None 0.

End Six.

(** What a run of the router is as a run of the wide router: the calls
    that were written down are left out. *)
Definition wide_run {W Error A B} (f : A → B)
    (run : option (Completion Error A * Env W Error))
    : option (Completion Error B * W) :=
  (λ '(out, env), (wide_completion f out, world env)) <$> run.

(** The values that [invoke] gives to the prompt of an agent. *)
Definition prompt_values {W Error RunnableConfig}
    (self : DomainRagAgent W Error RunnableConfig)
    (question history context : string) : PromptValues :=
  [("context", context); ("question", question); ("history", history);
   ("format_instructions", getFormatInstructions (parser self))].

Lemma normalize_id c : normalize c = c.
Proof. by destruct c. Qed.

Lemma resolve_fold_first_seen l acc :
  fold_left resolve_step l acc = acc ++ first_seen acc l.
Proof.
  revert acc. induction l as [|x l IH]; intros acc; simpl.
  - by rewrite app_nil_r.
  - rewrite IH. unfold resolve_step. rewrite normalize_id.
    case_bool_decide; [done|]. by rewrite <- app_assoc.
Qed.

Lemma resolveOrderedIntents_first_seen r :
  resolveOrderedIntents r = first_seen [] (intents r).
Proof. unfold resolveOrderedIntents. by rewrite resolve_fold_first_seen. Qed.

Lemma elem_of_first_seen seen l d :
  d ∈ first_seen seen l ↔ d ∈ l ∧ (d ∉ seen).
Proof.
  revert seen. induction l as [|x l IH]; intros seen; simpl.
  - set_solver.
  - case_bool_decide as Hx.
    + rewrite IH. set_solver.
    + rewrite elem_of_cons, IH. rewrite elem_of_cons.
      destruct (decide (d = x)) as [->|Hne]; set_solver.
Qed.

Lemma first_seen_NoDup seen l : NoDup (first_seen seen l).
Proof.
  revert seen. induction l as [|x l IH]; intros seen; simpl.
  - constructor.
  - case_bool_decide; [apply IH|].
    constructor; [|apply IH].
    rewrite elem_of_first_seen. set_solver.
Qed.

Lemma first_seen_sublist seen l : first_seen seen l `sublist_of` l.
Proof.
  revert seen. induction l as [|x l IH]; intros seen; simpl.
  - constructor.
  - case_bool_decide.
    + by apply sublist_cons.
    + by apply sublist_skip.
Qed.

(** Every surviving entry sits, in the input, at the first place where its
    department occurs, and it has moved up by the entries dropped before it. *)
Lemma first_seen_lookup seen l i a :
  first_seen seen l !! i = Some a →
  ∃ i', l !! i' = Some a ∧ (a ∉ take i' l) ∧ (a ∉ seen) ∧
        i = length (first_seen seen (take i' l)).
Proof.
  revert seen i. induction l as [|x l IH]; intros seen i; simpl; [done|].
  case_bool_decide as Hx.
  - intros H. destruct (IH _ _ H) as (i' & Hl & Hf & Hs & Hle).
    exists (S i'). simpl. rewrite bool_decide_eq_true_2 by done.
    repeat split; try done.
    rewrite not_elem_of_cons. split; [|done]. by intros ->.
  - destruct i as [|i]; simpl.
    + intros [= ->]. exists 0. simpl. repeat split; try done. set_solver.
    + intros H. destruct (IH _ _ H) as (i' & Hl & Hf & Hs & Hle).
      exists (S i'). simpl. rewrite bool_decide_eq_false_2 by done. simpl.
      repeat split; try done; [set_solver..|lia].
Qed.

(** The entries that survive are as many as the departments that occur. *)
Lemma first_seen_length l :
  length (first_seen [] l) = size (list_to_set l : gset DepartmentIntent).
Proof.
  rewrite <- (size_list_to_set (C:=gset DepartmentIntent))
    by apply first_seen_NoDup.
  f_equal. apply set_eq. intros x.
  rewrite !elem_of_list_to_set, elem_of_first_seen. set_solver.
Qed.

Lemma first_seen_order seen l i j a b :
  i < j →
  first_seen seen l !! i = Some a →
  first_seen seen l !! j = Some b →
  ∃ i' j', i' < j' ∧
    l !! i' = Some a ∧ (a ∉ take i' l) ∧
    l !! j' = Some b ∧ (b ∉ take j' l).
Proof.
  revert seen i j. induction l as [|x l IH]; intros seen i j Hij; simpl; [done|].
  case_bool_decide as Hx.
  - intros Ha Hb.
    assert (a ≠ x ∧ b ≠ x) as [Hax Hbx].
    { apply list_elem_of_lookup_2 in Ha, Hb.
      rewrite elem_of_first_seen in Ha, Hb. split; by intros ->; naive_solver. }
    destruct (IH _ _ _ Hij Ha Hb) as (i' & j' & ? & ? & ? & ? & ?).
    exists (S i'), (S j'). simpl. rewrite !not_elem_of_cons.
    repeat split; try done. lia.
  - destruct j as [|j]; [lia|]. destruct i as [|i]; simpl.
    + intros [= ->] Hb.
      destruct (first_seen_lookup _ _ _ _ Hb) as (j' & Hl & Hf & Hs & _).
      exists 0, (S j'). simpl. repeat split; try done; [lia|set_solver..].
    + intros Ha Hb.
      assert (a ≠ x ∧ b ≠ x) as [Hax Hbx].
      { apply list_elem_of_lookup_2 in Ha, Hb.
        rewrite elem_of_first_seen in Ha, Hb. set_solver. }
      destruct (IH _ i j ltac:(lia) Ha Hb) as (i' & j' & ? & ? & ? & ? & ?).
      exists (S i'), (S j'). simpl. rewrite !not_elem_of_cons.
      repeat split; try done. lia.
Qed.

(** C4.  [resolveOrderedIntents] returns every department of the input once,
    and nothing else, in the order in which the departments are first seen.
    The output is a subsequence of the input.  Each entry of the output is
    the first occurrence of its department in the input (an occurrence at
    index [k] is the first one when the department is not among the [k]
    entries before it); its index in the output is the number of different
    departments before that occurrence, so it is [k] itself when nothing
    was dropped before it.  Two entries of the output stand in the order of
    these first occurrences. *)
Theorem resolveOrderedIntents_dedup_first_seen (r : OrchestratorResult) :
  NoDup (resolveOrderedIntents r) ∧
  (∀ d, d ∈ resolveOrderedIntents r ↔ d ∈ intents r) ∧
  resolveOrderedIntents r `sublist_of` intents r ∧
  (∀ i a, resolveOrderedIntents r !! i = Some a →
     ∃ k, intents r !! k = Some a ∧ (a ∉ take k (intents r)) ∧
          i = size (list_to_set (take k (intents r)) : gset DepartmentIntent) ∧
          (NoDup (take k (intents r)) → i = k)) ∧
  (∀ i j a b, i < j →
     resolveOrderedIntents r !! i = Some a →
     resolveOrderedIntents r !! j = Some b →
     ∃ i' j', i' < j' ∧
       intents r !! i' = Some a ∧ (a ∉ take i' (intents r)) ∧
       intents r !! j' = Some b ∧ (b ∉ take j' (intents r))).
Proof.
  rewrite resolveOrderedIntents_first_seen. repeat split.
  - apply first_seen_NoDup.
  - rewrite elem_of_first_seen. naive_solver.
  - rewrite elem_of_first_seen. set_solver.
  - apply first_seen_sublist.
  - intros i a H.
    destruct (first_seen_lookup _ _ _ _ H) as (k & Hk & Hf & _ & Hi).
    exists k. rewrite first_seen_length in Hi. repeat split; try done.
    intros Hn. rewrite Hi, size_list_to_set by done.
    apply lookup_lt_Some in Hk. rewrite length_take. lia.
  - intros i j a b. apply first_seen_order.
Qed.

(** On [tech; hr; tech; unknown; hr] the second [tech] and the second [hr]
    are dropped. *)
Example resolveOrderedIntents_example :
  resolveOrderedIntents (Stub.classified [tech; hr; tech; unknown; hr])
  = [tech; hr; unknown].
Proof. reflexivity. Qed.

(** A transcript without [unknown] and without repetition has at most one
    turn for each of the three departments. *)
Lemma departments_length (l : list DepartmentIntent) :
  NoDup l → unknown ∉ l → length l ≤ 3.
Proof.
  intros Hn Hu.
  change 3 with (length [hr; tech; finance]).
  apply submseteq_length, NoDup_submseteq; [done|].
  intros [] Hx; set_solver.
Qed.

Lemma LoopInvariant_three st :
  LoopInvariant st → length (Loop.turns st) ≤ 3.
Proof.
  intros [_ Hn Hk _].
  rewrite <- (length_fmap intentTried). by apply departments_length.
Qed.

(** * The dispatch loop *)

Section Dispatch.
Context {W Error RunnableConfig : Type}.
Variable lib : Library W Error.
Variable self : MultiAgentRouter W Error RunnableConfig.
Variable question : string.
Variable config : option RunnableConfig.

Lemma loop_body_round item rest st env :
  Round lib self question config item rest st env
    (loop_body lib self question config item rest st env).1
    (loop_body lib self question config item rest st env).2.
Proof.
  unfold loop_body.
  destruct (bool_decide (intent_of item = unknown)) eqn:Hu; simpl.
  { apply bool_decide_eq_true in Hu. apply round_skip. by left. }
  apply bool_decide_eq_false in Hu.
  destruct (bool_decide (intent_of item ∈ Loop.visited st)) eqn:Hv; simpl.
  { apply bool_decide_eq_true in Hv. apply round_skip. by right; left. }
  apply bool_decide_eq_false in Hv.
  destruct (agents self !! intent_of item) as [agent|] eqn:Ha; simpl.
  2: { apply round_skip. by right; right. }
  unfold bind, observed.
  destruct (invoke lib agent _ _ config (world env)) as [[response|e] w] eqn:Hi;
    simpl.
  - by eapply round_turn.
  - by eapply round_throw.
Qed.

Lemma loop_body_Round item rest st env out env' :
  loop_body lib self question config item rest st env = (out, env') →
  Round lib self question config item rest st env out env'.
Proof.
  intros H. pose proof (loop_body_round item rest st env) as HR.
  by rewrite H in HR.
Qed.

Lemma enqueue_handoff_length response visited rest :
  length (enqueue_handoff response visited rest) ≤ S (length rest).
Proof.
  unfold enqueue_handoff. destruct (handoff response) as [h|]; [|lia].
  case_bool_decide; [|lia]. rewrite length_app. simpl. lia.
Qed.

(** A round that does not throw leaves fewer rounds to do. *)
Lemma Round_decreases item rest st env st' env' :
  Loop.queue st = item :: rest →
  length (Loop.turns st) < TURN_BUDGET →
  Round lib self question config item rest st env (Normal st') env' →
  rounds st' < rounds st.
Proof.
  intros Hq Hlt HR. unfold rounds. rewrite Hq.
  inversion HR as [|agent r w ? ? ? ?|]; subst; simpl.
  - lia.
  - rewrite length_app. simpl.
    pose proof (enqueue_handoff_length r
                  ({[intent_of item]} ∪ Loop.visited st) rest).
    unfold TURN_BUDGET in *. lia.
Qed.

(** The loop returns when it is given the rounds of its first state. *)
Lemma dispatch_returns fuel st env :
  rounds st ≤ fuel →
  is_Some (dispatch lib self fuel question config st env).
Proof.
  revert st env. induction fuel as [|fuel IH]; intros st env Hfuel.
  - unfold rounds in Hfuel. simpl.
    destruct (Loop.queue st) as [|item rest] eqn:Hq; [by eexists|].
    simpl in Hfuel. lia.
  - simpl. destruct (Loop.queue st) as [|item rest] eqn:Hq; [by eexists|].
    destruct (length (Loop.turns st) <? TURN_BUDGET) eqn:Hlt; [|by eexists].
    apply Nat.ltb_lt in Hlt.
    destruct (loop_body lib self question config item rest st env)
      as [[st'|e] env'] eqn:Hb; [|by eexists].
    apply IH. apply loop_body_Round in Hb.
    pose proof (Round_decreases _ _ _ _ _ _ Hq Hlt Hb). lia.
Qed.

(** The rule of the loop: what every round keeps holds when the loop is
    left, and then the queue is empty or the budget is used up; a round
    that throws ends the loop. *)
Lemma dispatch_rule (P : Loop.t → Env W Error → Prop)
    (Q : Error → Env W Error → Prop) :
  (∀ item rest st env st' env',
      Loop.queue st = item :: rest →
      length (Loop.turns st) < TURN_BUDGET →
      P st env →
      Round lib self question config item rest st env (Normal st') env' →
      P st' env') →
  (∀ item rest st env e env',
      Loop.queue st = item :: rest →
      length (Loop.turns st) < TURN_BUDGET →
      P st env →
      Round lib self question config item rest st env (Throw e) env' →
      Q e env') →
  ∀ fuel st env out env',
    P st env →
    dispatch lib self fuel question config st env = Some (out, env') →
    match out with
    | Normal st' =>
        P st' env' ∧
        (Loop.queue st' = [] ∨ TURN_BUDGET ≤ length (Loop.turns st'))
    | Throw e => Q e env'
    end.
Proof.
  intros Hstep Hthrow fuel.
  induction fuel as [|fuel IH]; intros st env out env' HP; simpl.
  - destruct (Loop.queue st) as [|item rest] eqn:Hq.
    { intros [= <- <-]. auto. }
    destruct (length (Loop.turns st) <? TURN_BUDGET) eqn:Hlt; [done|].
    apply Nat.ltb_ge in Hlt. intros [= <- <-]. auto.
  - destruct (Loop.queue st) as [|item rest] eqn:Hq.
    { intros [= <- <-]. auto. }
    destruct (length (Loop.turns st) <? TURN_BUDGET) eqn:Hlt.
    2: { apply Nat.ltb_ge in Hlt. intros [= <- <-]. auto. }
    apply Nat.ltb_lt in Hlt.
    destruct (loop_body lib self question config item rest st env)
      as [[st'|e] env1] eqn:Hb; apply loop_body_Round in Hb.
    + apply IH. eauto.
    + intros [= <- <-]. eauto.
Qed.

Lemma tried_app ts t : tried (ts ++ [t]) = tried ts ++ [intentTried t].
Proof. unfold tried. by rewrite fmap_app. Qed.

Lemma initial_LoopInvariant c : LoopInvariant (initial_locals c).
Proof.
  split; simpl.
  - done.
  - constructor.
  - set_solver.
  - unfold TURN_BUDGET. lia.
Qed.

(** A round that does not throw keeps the invariant of the locals. *)
Lemma Round_LoopInvariant item rest st env st' env' :
  length (Loop.turns st) < TURN_BUDGET →
  LoopInvariant st →
  Round lib self question config item rest st env (Normal st') env' →
  LoopInvariant st'.
Proof.
  intros Hlt [Hv Hn Hk Hb] HR.
  inversion HR as [|agent r w Hu Hnv Ha Hi|]; subst; [by split|].
  split; simpl; rewrite ?tried_app.
  - rewrite list_to_set_app_L, <- Hv. set_solver.
  - apply NoDup_app. repeat split; [done| |apply NoDup_singleton].
    intros x Hx ->%list_elem_of_singleton.
    apply Hnv. rewrite Hv. by apply elem_of_list_to_set.
  - rewrite elem_of_app, list_elem_of_singleton. naive_solver.
  - rewrite length_app. simpl. lia.
Qed.

(** A round that does not throw adds the call of its turn to the trace, and
    nothing else. *)
Lemma Round_Logged t0 item rest st env st' env' :
  Logged t0 st env →
  Round lib self question config item rest st env (Normal st') env' →
  Logged t0 st' env'.
Proof.
  intros (invs & Ht & Hall) HR.
  inversion HR as [|agent r w Hu Hnv Ha Hi|]; subst; [by exists invs|].
  eexists (invs ++ [_]). simpl. split.
  - rewrite app_assoc, <- Ht. reflexivity.
  - apply Forall2_app; [done|]. constructor; [|constructor].
    by eexists _, _.
Qed.

Lemma Round_Aborted t0 item rest st env e env' :
  LoopInvariant st →
  Logged t0 st env →
  Round lib self question config item rest st env (Throw e) env' →
  Aborted t0 e env'.
Proof.
  intros HI (invs & Ht & Hall) HR.
  inversion HR as [| |agent e' w Hu Hnv Ha Hi]; subst.
  exists st, invs. eexists _, _, _.
  split; [done|]. split; [done|]. split; [done|].
  simpl. by rewrite Ht, app_assoc.
Qed.

Lemma elem_of_enqueue_handoff r visited rest d :
  d ∈ intent_of <$> enqueue_handoff r visited rest ↔
  d ∈ intent_of <$> rest ∨
  ∃ h, handoff r = Some h ∧ (Handoff.intent h ∉ visited) ∧ d = Handoff.intent h.
Proof.
  unfold enqueue_handoff. destruct (handoff r) as [h|]; [|naive_solver].
  case_bool_decide; [|naive_solver].
  rewrite fmap_app, elem_of_app. simpl. rewrite list_elem_of_singleton.
  naive_solver.
Qed.

Lemma enqueue_handoff_Some r visited rest h :
  handoff r = Some h → Handoff.intent h ∉ visited →
  enqueue_handoff r visited rest =
  rest ++ [ IntentQueueItem.mk (Handoff.intent h)
              (Some (default (Handoff.reason h) (Handoff.context h))) ].
Proof.
  intros Hh Hn. unfold enqueue_handoff. rewrite Hh.
  by rewrite bool_decide_eq_true_2.
Qed.

Lemma enqueue_handoff_None r visited rest :
  handoff r = None → enqueue_handoff r visited rest = rest.
Proof. intros Hh. unfold enqueue_handoff. by rewrite Hh. Qed.

Lemma initial_queue_intents c :
  intent_of <$> Loop.queue (initial_locals c) = resolveOrderedIntents c.
Proof.
  simpl. rewrite <- list_fmap_compose. apply list_fmap_id.
Qed.

Lemma initial_Served c : Served lib self config c (initial_locals c).
Proof.
  split; [|split].
  - intros turn Hin. simpl in Hin. by apply elem_of_nil in Hin.
  - intros d Hd _ _. right. rewrite initial_queue_intents.
    rewrite resolveOrderedIntents_first_seen, elem_of_first_seen.
    split; [done|]. apply not_elem_of_nil.
  - intros turn h Hin. simpl in Hin. by apply elem_of_nil in Hin.
Qed.

(** A round that does not throw keeps every request visited or queued. *)
Lemma Round_Served c item rest st env st' env' :
  Loop.queue st = item :: rest →
  Served lib self config c st →
  Round lib self question config item rest st env (Normal st') env' →
  Served lib self config c st'.
Proof.
  intros Hq (Hturns & Hc & Hh) HR.
  assert (∀ d, d ≠ unknown → is_Some (agents self !! d) →
               d ∈ Loop.visited st ∨ d ∈ intent_of <$> Loop.queue st →
               d ∈ Loop.visited st' ∨ d ∈ intent_of <$> Loop.queue st') as Hkeep.
  { intros d Hd [a Ha] Hin. rewrite Hq, fmap_cons, elem_of_cons in Hin.
    inversion HR as [Hskip|agent r w Hu Hnv Hag Hi|]; subst;
      cbn [Loop.turns Loop.queue Loop.visited].
    - destruct Hin as [?|[->|?]]; [by left| |by right].
      destruct Hskip as [?|[?|?]]; [done|by left|congruence].
    - rewrite elem_of_enqueue_handoff. set_solver. }
  inversion HR as [Hskip|agent r w Hu Hnv Hag Hi|]; subst;
    unfold Served; cbn [Loop.turns Loop.queue Loop.visited] in *.
  { split; [done|]. split.
    - intros d ? ? ?. by apply (Hkeep d), Hc.
    - intros turn h ? ? ? ?. by apply (Hkeep (Handoff.intent h)), (Hh turn). }
  split; [|split].
  - intros turn [Hin| ->%list_elem_of_singleton]%elem_of_app; [by apply Hturns|].
    simpl. by eexists agent, _, _, _, _.
  - intros d ? ? ?. by apply (Hkeep d), Hc.
  - intros turn h [Hin| ->%list_elem_of_singleton]%elem_of_app Hho Hne Hag'.
    + by apply (Hkeep (Handoff.intent h)), (Hh turn).
    + cbn [response] in Hho. rewrite elem_of_enqueue_handoff.
      destruct (decide (Handoff.intent h ∈ {[intent_of item]} ∪ Loop.visited st));
        [by left|].
      right. right. by exists h.
Qed.

(** The loop, run from locals that satisfy the invariant. *)
Lemma dispatch_spec t0 fuel st env out env' :
  LoopInvariant st →
  Logged t0 st env →
  dispatch lib self fuel question config st env = Some (out, env') →
  match out with
  | Normal st' =>
      (LoopInvariant st' ∧ Logged t0 st' env') ∧
      (Loop.queue st' = [] ∨ TURN_BUDGET ≤ length (Loop.turns st'))
  | Throw e => Aborted t0 e env'
  end.
Proof.
  intros HI HL.
  apply (dispatch_rule (λ st env, LoopInvariant st ∧ Logged t0 st env)
           (Aborted t0)); [| |done].
  - intros item rest st1 env1 st2 env2 _ Hlt [HI1 HL1] HR. split.
    + by eapply Round_LoopInvariant.
    + by eapply Round_Logged.
  - intros item rest st1 env1 e env2 _ _ [HI1 HL1] HR.
    by eapply Round_Aborted.
Qed.

(** [route] up to the end of the loop. *)
Lemma route_locals_spec env out env' :
  route_locals lib self question config env = Some (out, env') →
  match out with
  | Normal (c, st) =>
      (classify lib (orchestrator self) question config (world env)).1 = Normal c ∧
      LoopInvariant st ∧
      Logged (trace env ++ [Classified question None]) st env' ∧
      (Loop.queue st = [] ∨ TURN_BUDGET ≤ length (Loop.turns st))
  | Throw e =>
      ((classify lib (orchestrator self) question config (world env)).1 = Throw e ∧
       trace env' = trace env ++ [Classified question (Some e)]) ∨
      ((∃ c, (classify lib (orchestrator self) question config (world env)).1
               = Normal c) ∧
       Aborted (trace env ++ [Classified question None]) e env')
  end.
Proof.
  unfold route_locals, observed.
  destruct (classify lib (orchestrator self) question config (world env))
    as [[c|e] w] eqn:Hc; simpl.
  2: { intros [= <- <-]. by left. }
  destruct (dispatch _ _ _ _ _ _ _) as [[[st'|e] env1]|] eqn:Hd; [| |done].
  - intros [= <- <-].
    eapply (dispatch_spec (trace env ++ [Classified question None])) in Hd.
    + naive_solver.
    + apply initial_LoopInvariant.
    + exists []. simpl. split; [by rewrite app_nil_r|constructor].
  - intros [= <- <-]. right. split; [by eexists|].
    eapply (dispatch_spec (trace env ++ [Classified question None])) in Hd.
    + done.
    + apply initial_LoopInvariant.
    + exists []. simpl. split; [by rewrite app_nil_r|constructor].
Qed.

(** [route] returns: the loop comes to an end. *)
Lemma route_locals_returns env :
  is_Some (route_locals lib self question config env).
Proof.
  unfold route_locals.
  destruct (observed _ _ env) as [[c|e] env1]; [|by eexists].
  destruct (dispatch_returns (rounds (initial_locals c)) (initial_locals c) env1)
    as [[[st|e] env2] ->]; [done|by eexists..].
Qed.

Lemma route_returns env : is_Some (route lib self question config env).
Proof.
  unfold route.
  destruct (route_locals_returns env) as [[[[c st]|e] env1] ->]; by eexists.
Qed.

Lemma route_Normal env r env' :
  route lib self question config env = Some (Normal r, env') →
  ∃ st, route_locals lib self question config env
          = Some (Normal (classification r, st), env') ∧
        r = route_result (classification r) st.
Proof.
  unfold route.
  destruct (route_locals _ _ _ _ env) as [[[[c st]|e] env1]|]; [|done..].
  intros [= <- <-]. by exists st.
Qed.

Lemma route_Throw env e env' :
  route lib self question config env = Some (Throw e, env') →
  route_locals lib self question config env = Some (Throw e, env').
Proof.
  unfold route.
  destruct (route_locals _ _ _ _ env) as [[[[c st]|e1] env1]|]; [done| |done].
  by intros [= <- <-].
Qed.

Lemma dispatch_Served c fuel st env st' env' :
  Served lib self config c st →
  dispatch lib self fuel question config st env = Some (Normal st', env') →
  Served lib self config c st'.
Proof.
  intros HS Hd.
  apply (dispatch_rule (λ st _, Served lib self config c st) (λ _ _, True))
    in Hd; [by destruct Hd| | |done].
  - intros item rest st1 env1 st2 env2 Hq _ HS1 HR. by eapply Round_Served.
  - done.
Qed.

(** When no agent ever throws, the loop does not throw. *)
Lemma dispatch_answers fuel st env out env' :
  (∀ d agent, agents self !! d = Some agent → always_answers lib agent) →
  dispatch lib self fuel question config st env = Some (out, env') →
  ∃ st', out = Normal st'.
Proof.
  intros Hans Hd.
  apply (dispatch_rule (λ _ _, True) (λ _ _, False)) in Hd; [| | |done].
  - destruct out; [by eexists|done].
  - done.
  - intros item rest st1 env1 e env2 _ _ _ HR.
    inversion HR as [| |agent e' w Hu Hnv Ha Hi]; subst.
    destruct (Hans _ _ Ha (task_directive question (note_of item))
                (Some (history_or_sentinel (build_history self (Loop.turns st1))))
                config (world env1)) as (r & w' & Hi').
    congruence.
Qed.

(** One round that records a turn, as an equation of the loop. *)
Lemma dispatch_turn fuel item rest st env agent r w :
  Loop.queue st = item :: rest →
  length (Loop.turns st) < TURN_BUDGET →
  intent_of item ≠ unknown →
  intent_of item ∉ Loop.visited st →
  agents self !! intent_of item = Some agent →
  invoke lib agent (task_directive question (note_of item))
    (Some (history_or_sentinel (build_history self (Loop.turns st))))
    config (world env) = (Normal r, w) →
  dispatch lib self (S fuel) question config st env =
  dispatch lib self fuel question config
    (Loop.mk (enqueue_handoff r ({[intent_of item]} ∪ Loop.visited st) rest)
       ({[intent_of item]} ∪ Loop.visited st)
       (Loop.turns st ++ [ {| intentTried := intent_of item; response := r |} ]))
    {| world := w;
       trace := trace env ++
         [ Invoked (intent_of item) (task_directive question (note_of item))
             (history_or_sentinel (build_history self (Loop.turns st))) None ] |}.
Proof.
  intros Hq Hlt Hu Hnv Ha Hi. simpl. rewrite Hq.
  apply Nat.ltb_lt in Hlt. rewrite Hlt.
  unfold loop_body.
  rewrite (bool_decide_eq_false_2 _ Hu), (bool_decide_eq_false_2 _ Hnv), Ha.
  simpl. unfold bind, observed. by rewrite Hi.
Qed.

(** The loop is left at once when the queue is empty. *)
Lemma dispatch_done fuel st env :
  Loop.queue st = [] →
  dispatch lib self fuel question config st env = Some (Normal st, env).
Proof. intros Hq. destruct fuel; simpl; by rewrite Hq. Qed.

(** What holds of the locals with which a returning [route] left the loop. *)
Lemma route_exit env r env' :
  route lib self question config env = Some (Normal r, env') →
  ∃ st,
    route_locals lib self question config env
      = Some (Normal (classification r, st), env') ∧
    r = route_result (classification r) st ∧
    LoopInvariant st ∧
    Served lib self config (classification r) st ∧
    Loop.queue st = [].
Proof.
  intros (st & Hl & Hr)%route_Normal. exists st.
  pose proof (route_locals_spec _ _ _ Hl) as (_ & HI & _ & Hexit).
  split; [done|]. split; [done|]. split; [done|]. split.
  - revert Hl. unfold route_locals.
    destruct (observed _ _ env) as [[c|e] env1]; [|done].
    destruct (dispatch _ _ _ _ _ _ _) as [[[st'|e] env2]|] eqn:Hd; [|done..].
    intros [= <- <- <-]. eapply dispatch_Served; [|done].
    apply initial_Served.
  - pose proof (LoopInvariant_three _ HI) as H3.
    destruct Hexit as [?|Hge]; [done|]. unfold TURN_BUDGET in Hge. lia.
Qed.

(** When the classification succeeds and no agent ever throws, [route]
    returns a result. *)
Lemma route_answers env c w :
  classify lib (orchestrator self) question config (world env) = (Normal c, w) →
  (∀ d agent, agents self !! d = Some agent → always_answers lib agent) →
  ∃ r env',
    route lib self question config env = Some (Normal r, env') ∧
    classification r = c.
Proof.
  intros Hc Hans.
  destruct (route_returns env) as [[out env'] Hr]. revert Hr.
  unfold route, route_locals, observed. rewrite Hc.
  destruct (dispatch _ _ _ _ _ _ _) as [[[st'|e] env2]|] eqn:Hd; [| |done].
  - intros [= <- <-]. by eexists _, _.
  - by destruct (dispatch_answers _ _ _ _ _ Hans Hd).
Qed.

End Dispatch.

(** * Properties of [DomainRagAgent.invoke] *)

(** C8.  A result of [invoke] never hands off to [unknown].  The result is
    built from the answer that the parser made of the model's reply: a
    [follow_up] for [unknown] gives no handoff, just as no [follow_up] does,
    and a [follow_up] for a department gives a handoff to that department
    with its reason and its optional context. *)
Theorem invoke_handoff_not_unknown {W Error RunnableConfig : Type}
    (lib : Library W Error) (self : DomainRagAgent W Error RunnableConfig)
    (question : string) (history : option string)
    (config : option RunnableConfig) (w : W) (r : DomainAgentResult) (w' : W) :
  invoke lib self question history config w = (Normal r, w') →
  (∀ h, handoff r = Some h → Handoff.intent h ≠ unknown) ∧
  ∃ llmResponse w0 parsed,
    parse (parser self) (extractAnswer lib llmResponse) w0 = (Normal parsed, w') ∧
    text r = answer parsed ∧
    (follow_up parsed = None → handoff r = None) ∧
    (∀ f, follow_up parsed = Some f → FollowUp.intent f = unknown →
          handoff r = None) ∧
    (∀ f, follow_up parsed = Some f → FollowUp.intent f ≠ unknown →
          handoff r = Some {| Handoff.intent := FollowUp.intent f;
                              Handoff.reason := FollowUp.reason f;
                              Handoff.context := FollowUp.context_package f |}).
Proof.
  unfold invoke, bind, ret.
  destruct (retriever_invoke _ _ _ w) as [[sourceDocs|?] w1]; [|done].
  destruct (formatMessages _ _ w1) as [[messages|?] w2]; [|done].
  destruct (llm_invoke _ _ _ w2) as [[llmResponse|?] w3]; [|done].
  destruct (parse _ _ w3) as [[parsed|?] w4] eqn:Hp; [|done].
  intros [= <- <-]. split.
  - unfold agent_result. simpl. intros h.
    destruct (follow_up parsed) as [f|]; [|done].
    case_bool_decide as Hu; [|done]. by intros [= <-].
  - exists llmResponse, w3, parsed. split; [done|]. split; [done|].
    unfold agent_result. simpl. repeat split.
    + by intros ->.
    + intros f -> Hu. by rewrite bool_decide_eq_false_2 by (by intros ?).
    + intros f -> Hu. by rewrite bool_decide_eq_true_2.
Qed.

(** * Properties of [MultiAgentRouter.route] *)

Section Route.
Context {W Error RunnableConfig : Type}.
Variable lib : Library W Error.
Variable self : MultiAgentRouter W Error RunnableConfig.
Variable question : string.
Variable config : option RunnableConfig.

(** The calls of answered turns are calls for the departments of the turns. *)
Lemma answered_not_unknown (invs : list (Event Error)) ts :
  Forall2 answered invs ts →
  unknown ∉ tried ts →
  Forall (λ ev, invoked_intent ev ≠ Some unknown) invs.
Proof.
  induction 1 as [|ev t invs ts (task & hist & ->) _ IH]; intros Hu.
  - constructor.
  - unfold tried in Hu. rewrite fmap_cons, not_elem_of_cons in Hu.
    destruct Hu as [Hne Hu]. constructor; [|by apply IH].
    simpl. intros [= Heq]. by rewrite Heq in Hne.
Qed.

Lemma answered_succeeded (invs : list (Event Error)) ts :
  Forall2 answered invs ts → Forall (λ ev, failure ev = None) invs.
Proof.
  induction 1 as [|ev t invs ts (task & hist & ->) _ IH]; by constructor.
Qed.

Lemma answered_invoked (invs : list (Event Error)) ts :
  Forall2 answered invs ts → omap invoked_intent invs = tried ts.
Proof.
  induction 1 as [|ev t invs ts (task & hist & ->) _ IH]; [done|].
  unfold tried. rewrite fmap_cons. fold (tried ts). rewrite <- IH. reflexivity.
Qed.

(** C1.  When [route] returns a result, the [visited] set with which the loop
    was left has at most 5 elements, the result has at most 5 turns, and
    [visited] is the set of the intents tried in these turns. *)
Theorem route_visited_within_budget env r env' :
  route lib self question config env = Some (Normal r, env') →
  ∃ st,
    route_locals lib self question config env
      = Some (Normal (classification r, st), env') ∧
    turns r = Loop.turns st ∧
    size (Loop.visited st) ≤ TURN_BUDGET ∧
    length (turns r) ≤ TURN_BUDGET ∧
    Loop.visited st = list_to_set (intentTried <$> turns r).
Proof.
  intros (st & Hl & ->)%route_Normal. exists st. simpl in *.
  pose proof (route_locals_spec _ _ _ _ _ _ _ Hl) as (_ & [Hv Hn Hk Hb] & _).
  repeat split; try done.
  rewrite Hv, size_list_to_set by done.
  unfold tried. by rewrite length_fmap.
Qed.

(** C2.  No intent is tried twice among the turns that [route] returns. *)
Theorem route_turns_NoDup env r env' :
  route lib self question config env = Some (Normal r, env') →
  NoDup (intentTried <$> turns r).
Proof.
  intros (st & Hl & ->)%route_Normal. simpl in *.
  by pose proof (route_locals_spec _ _ _ _ _ _ _ Hl) as (_ & [Hv Hn Hk Hb] & _).
Qed.

(** The loop never invokes an agent for [unknown], whatever its queue holds. *)
Lemma dispatch_never_unknown fuel queue env out env' :
  dispatch lib self fuel question config (Loop.mk queue ∅ []) env
    = Some (out, env') →
  (∀ st, out = Normal st → unknown ∉ intentTried <$> Loop.turns st) ∧
  ∃ evs, trace env' = trace env ++ evs ∧
         Forall (λ ev, invoked_intent ev ≠ Some unknown) evs.
Proof.
  intros Hd.
  eapply (dispatch_spec _ _ _ _ (trace env)) in Hd.
  - destruct out as [st|e].
    + destruct Hd as [[[Hv Hn Hk Hb] (invs & Ht & Hall)] _].
      split; [by intros ? [= <-]|].
      exists invs. split; [done|]. by eapply answered_not_unknown.
    + split; [done|].
      destruct Hd as (st & invs & i & task & hist & [Hv Hn Hk Hb] & Hall & Hi & Ht).
      exists (invs ++ [Invoked i task hist (Some e)]). split; [done|].
      apply Forall_app. split; [by eapply answered_not_unknown|].
      constructor; [|done]. simpl. by intros [= ->].
  - split; simpl; [done|constructor|set_solver|unfold TURN_BUDGET; lia].
  - exists []. split; [by rewrite app_nil_r|constructor].
Qed.

(** C3.  [unknown] is the intent of no returned turn, and no call that
    [route] makes, whether it returns or throws, invokes an agent for
    [unknown].  The loop does this for every queue, so also for one in
    which [unknown] was put by the classification or by a handoff. *)
Theorem route_never_dispatches_unknown env out env' :
  route lib self question config env = Some (out, env') →
  (∀ r, out = Normal r → unknown ∉ intentTried <$> turns r) ∧
  (∃ evs, trace env' = trace env ++ evs ∧
          Forall (λ ev, invoked_intent ev ≠ Some unknown) evs) ∧
  (∀ fuel queue env0 out0 env0',
     dispatch lib self fuel question config (Loop.mk queue ∅ []) env0
       = Some (out0, env0') →
     (∀ st, out0 = Normal st → unknown ∉ intentTried <$> Loop.turns st) ∧
     ∃ evs, trace env0' = trace env0 ++ evs ∧
            Forall (λ ev, invoked_intent ev ≠ Some unknown) evs).
Proof.
  intros Hr.
  cut ((∀ r, out = Normal r → unknown ∉ intentTried <$> turns r) ∧
       (∃ evs, trace env' = trace env ++ evs ∧
               Forall (λ ev, invoked_intent ev ≠ Some unknown) evs)).
  { intros [? ?]. split; [done|]. split; [done|].
    apply dispatch_never_unknown. }
  revert Hr. unfold route, route_locals, observed.
  destruct (classify lib (orchestrator self) question config (world env))
    as [[c|e] w]; simpl.
  2: { intros [= <- <-]. split; [done|]. eexists. split; [done|].
       by constructor. }
  destruct (dispatch _ _ _ _ _ _ _) as [[[st|e] env1]|] eqn:Hd; [| |done].
  - intros [= <- <-].
    destruct (dispatch_never_unknown _ _ _ _ _ Hd) as (Hu & evs & Ht & Hall).
    split; [intros r [= <-]; by apply Hu|].
    exists (Classified question None :: evs). simpl in Ht.
    split; [by rewrite Ht, <- app_assoc|by constructor].
  - intros [= <- <-].
    destruct (dispatch_never_unknown _ _ _ _ _ Hd) as (_ & evs & Ht & Hall).
    split; [done|].
    exists (Classified question None :: evs). simpl in Ht.
    split; [by rewrite Ht, <- app_assoc|by constructor].
Qed.

Lemma answered_is_invoked (invs : list (Event Error)) ts :
  Forall2 answered invs ts → Forall (λ ev, is_Some (invoked_intent ev)) invs.
Proof.
  induction 1 as [|ev t invs ts (task & hist & ->) _ IH]; by constructor.
Qed.

(** What [route] has asked for when it ends: the classification, once and
    first, then agents; when it returns a result every call was answered;
    when it throws [e], the call that threw [e] is the last one. *)
Lemma route_trace env out env' :
  route lib self question config env = Some (out, env') →
  ∃ f invs,
    trace env' = trace env ++ Classified question f :: invs ∧
    Forall (λ ev, is_Some (invoked_intent ev)) invs ∧
    match out with
    | Normal r => f = None ∧ Forall (λ ev, failure ev = None) invs
    | Throw e =>
        (f = Some e ∧ invs = []) ∨
        (f = None ∧ ∃ oks ev,
           invs = oks ++ [ev] ∧
           Forall (λ ev, failure ev = None) oks ∧ failure ev = Some e)
    end.
Proof.
  destruct out as [r|e].
  - intros (st & Hl & _)%route_Normal.
    pose proof (route_locals_spec _ _ _ _ _ _ _ Hl)
      as (_ & _ & (invs & Ht & Hall) & _).
    exists None, invs. rewrite Ht, <- app_assoc.
    split; [done|]. split; [by eapply answered_is_invoked|].
    split; [done|by eapply answered_succeeded].
  - intros Hl%route_Throw.
    pose proof (route_locals_spec _ _ _ _ _ _ _ Hl) as [[_ Ht]|[_ HA]].
    + exists (Some e), []. rewrite Ht. split; [done|]. split; [constructor|by left].
    + destruct HA as (st & invs & i & task & hist & _ & Hall & Hi & Ht).
      exists None, (invs ++ [Invoked i task hist (Some e)]).
      rewrite Ht, <- app_assoc. split; [done|]. split.
      * apply Forall_app. split; [by eapply answered_is_invoked|].
        by repeat constructor.
      * right. split; [done|]. eexists _, _.
        split; [done|]. split; [by eapply answered_succeeded|done].
Qed.

(** C7.  An error of the classification makes [route] throw that error
    before any agent is invoked.  Whenever [route] throws, the call that
    threw is the last call made, every call before it was answered, and the
    classification was asked for once; when a result is returned, no call
    had failed.  So a call that fails ends [route] with its error, no result
    is returned, and nothing is called again. *)
Theorem route_propagates_errors env :
  (∀ e w,
     classify lib (orchestrator self) question config (world env) = (Throw e, w) →
     route lib self question config env
       = Some (Throw e,
               {| world := w;
                  trace := trace env ++ [Classified question (Some e)] |})) ∧
  (∀ out env',
     route lib self question config env = Some (out, env') →
     ∃ f invs,
       trace env' = trace env ++ Classified question f :: invs ∧
       Forall (λ ev, is_Some (invoked_intent ev)) invs ∧
       match out with
       | Normal r => f = None ∧ Forall (λ ev, failure ev = None) invs
       | Throw e =>
           (f = Some e ∧ invs = []) ∨
           (f = None ∧ ∃ oks ev,
              invs = oks ++ [ev] ∧
              Forall (λ ev, failure ev = None) oks ∧ failure ev = Some e)
       end) ∧
  (∀ out env' evs ev e,
     route lib self question config env = Some (out, env') →
     trace env' = trace env ++ evs →
     ev ∈ evs → failure ev = Some e →
     out = Throw e ∧ last evs = Some ev).
Proof.
  split; [|split].
  - intros e w Hc. unfold route, route_locals, observed. by rewrite Hc.
  - apply route_trace.
  - intros out env' evs ev e Hr Ht Hin Hf.
    destruct (route_trace _ _ _ Hr) as (f & invs & Ht' & _ & Hout).
    rewrite Ht' in Ht. apply app_inv_head in Ht. subst evs.
    destruct out as [r|e'].
    + destruct Hout as [-> Hok].
      apply elem_of_cons in Hin as [->|Hin]; [done|].
      rewrite Forall_forall in Hok. apply Hok in Hin. congruence.
    + destruct Hout as [[-> ->]|[-> (oks & ev' & -> & Hok & Hf')]].
      * apply list_elem_of_singleton in Hin as ->.
        simpl in Hf. by injection Hf as ->.
      * rewrite Forall_forall in Hok.
        apply elem_of_cons in Hin as [->|Hin]; [done|].
        apply elem_of_app in Hin as [Hin|Hin].
        { apply Hok in Hin. congruence. }
        apply list_elem_of_singleton in Hin as ->.
        split; [congruence|].
        by rewrite app_comm_cons, last_snoc.
Qed.

(** C10.  When [route] returns a result it has at most 3 turns and no
    unresolved intents: the loop was left with an empty queue and with the
    budget of 5 turns not used up. *)
Theorem route_at_most_three_turns env r env' :
  route lib self question config env = Some (Normal r, env') →
  length (turns r) ≤ 3 ∧
  unresolvedIntents r = [] ∧
  ∃ st,
    route_locals lib self question config env
      = Some (Normal (classification r, st), env') ∧
    Loop.queue st = [] ∧
    length (Loop.turns st) < TURN_BUDGET.
Proof.
  intros (st & Hl & ->)%route_Normal. simpl in *.
  pose proof (route_locals_spec _ _ _ _ _ _ _ Hl) as (_ & HI & _ & Hexit).
  pose proof (LoopInvariant_three _ HI) as H3.
  assert (Loop.queue st = []) as Hq.
  { destruct Hexit as [?|Hge]; [done|]. unfold TURN_BUDGET in Hge. lia. }
  split; [done|]. split; [by rewrite Hq|].
  exists st. unfold TURN_BUDGET. repeat split; try done. lia.
Qed.

(** What a returned result has served: each turn holds an answer of the
    agent of its intent, and every department with an agent that the
    classification or the handoff of a turn asked for has its turn. *)
Lemma route_serves env r env' :
  route lib self question config env = Some (Normal r, env') →
  (∀ turn, turn ∈ turns r →
     ∃ agent task history w w',
       agents self !! intentTried turn = Some agent ∧
       invoke lib agent task history config w = (Normal (response turn), w')) ∧
  (∀ d, d ∈ intents (classification r) → d ≠ unknown →
     is_Some (agents self !! d) → d ∈ tried (turns r)) ∧
  (∀ turn h, turn ∈ turns r → handoff (response turn) = Some h →
     Handoff.intent h ≠ unknown → is_Some (agents self !! Handoff.intent h) →
     Handoff.intent h ∈ tried (turns r)).
Proof.
  intros (st & _ & -> & [Hv _ _ _] & (Hturns & Hc & Hh) & Hq)%route_exit.
  simpl. rewrite Hq in Hc, Hh. rewrite Hv in Hc, Hh.
  split; [done|]. split.
  - intros d Hd Hu Ha. destruct (Hc d Hd Hu Ha) as [Hin|Hin].
    + by apply elem_of_list_to_set in Hin.
    + by apply elem_of_nil in Hin.
  - intros turn h Hin Hho Hu Ha. destruct (Hh turn h Hin Hho Hu Ha) as [H|H].
    + by apply elem_of_list_to_set in H.
    + by apply elem_of_nil in H.
Qed.

(** A department whose agent always hands off to [target] brings [target]
    into the transcript with it. *)
Lemma route_follows_handoff env r env' d agent target :
  route lib self question config env = Some (Normal r, env') →
  agents self !! d = Some agent →
  hands_off_to lib agent target →
  target ≠ unknown → is_Some (agents self !! target) →
  d ∈ tried (turns r) → target ∈ tried (turns r).
Proof.
  intros Hr Ha Hho Hu Hta Hd.
  destruct (route_serves _ _ _ Hr) as (Hturns & _ & Hh).
  apply list_elem_of_fmap in Hd as (turn & -> & Hin).
  destruct (Hturns turn Hin) as (agent' & task & hist & w & w' & Ha' & Hi).
  rewrite Ha in Ha'. injection Ha' as <-.
  destruct (Hho _ _ _ _ _ _ Hi) as (h & Hh' & <-).
  by apply (Hh turn h).
Qed.

Lemma filter_pair_length (A B : DepartmentIntent) l :
  NoDup l → length (filter (λ d, d = A ∨ d = B) l) ≤ 2.
Proof.
  intros Hn. change 2 with (length [A; B]).
  apply submseteq_length, NoDup_submseteq; [by apply NoDup_filter|].
  intros d [[->| ->] _]%list_elem_of_filter; set_solver.
Qed.

Lemma filter_eq_length (A : DepartmentIntent) l :
  NoDup l → length (filter (λ d, d = A) l) ≤ 1.
Proof.
  intros Hn. change 1 with (length [A]).
  apply submseteq_length, NoDup_submseteq; [by apply NoDup_filter|].
  intros d [-> _]%list_elem_of_filter. set_solver.
Qed.

(** C6.  When the agent of [A] always hands off to [B] and the agent of [B]
    always hands off to [A], [route] still ends, and a result that it returns
    has at most 2 turns for [A] and [B] together, at most one for each; [A]
    has its turn exactly when [B] has. *)
Theorem handoff_cycle_terminates (A B : DepartmentIntent) a b env :
  A ≠ unknown → B ≠ unknown →
  agents self !! A = Some a → agents self !! B = Some b →
  hands_off_to lib a B → hands_off_to lib b A →
  ∃ out env',
    route lib self question config env = Some (out, env') ∧
    ∀ r, out = Normal r →
      length (filter (λ d, d = A ∨ d = B) (intentTried <$> turns r)) ≤ 2 ∧
      length (filter (λ d, d = A) (intentTried <$> turns r)) ≤ 1 ∧
      length (filter (λ d, d = B) (intentTried <$> turns r)) ≤ 1 ∧
      (A ∈ intentTried <$> turns r ↔ B ∈ intentTried <$> turns r).
Proof.
  intros HA HB Ha Hb HaB HbA.
  destruct (route_returns lib self question config env) as [[out env'] Hr].
  exists out, env'. split; [done|]. intros r ->.
  destruct (route_exit _ _ _ _ _ _ _ Hr) as (st & _ & Hrr & [_ Hn _ _] & _).
  assert (turns r = Loop.turns st) as Ht by (by rewrite Hrr).
  rewrite <- Ht in Hn. fold (tried (turns r)).
  split; [by apply filter_pair_length|].
  split; [by apply filter_eq_length|].
  split; [by apply filter_eq_length|].
  split; intros Hin.
  - by eapply (route_follows_handoff _ _ _ A a B).
  - by eapply (route_follows_handoff _ _ _ B b A).
Qed.

Lemma three_departments (l : list DepartmentIntent) d :
  NoDup l → unknown ∉ l → length l = 3 → d ≠ unknown → d ∈ l.
Proof.
  intros Hn Hu Hl Hd. destruct (decide (d ∈ l)) as [|Hnin]; [done|].
  assert (length (d :: l) ≤ 3) as Hle.
  { apply departments_length; [by constructor|]. set_solver. }
  simpl in Hle. lia.
Qed.

(** X24.  When the three departments that DepartmentIntent has are chained
    in a handoff cycle (each has an agent that never throws and always
    hands off to the next one) and the classification names a department,
    [route] returns exactly 3 turns, one for each department, and no
    unresolved intents: the turn budget is not reached. *)
Theorem route_department_cycle (next : DepartmentIntent → DepartmentIntent)
    env c w :
  (∀ d, d ≠ unknown →
     next d ≠ unknown ∧ NoDup [d; next d; next (next d)]) →
  (∀ d, d ≠ unknown →
     ∃ agent, agents self !! d = Some agent ∧ hands_off_to lib agent (next d)) →
  (∀ d agent, agents self !! d = Some agent → always_answers lib agent) →
  classify lib (orchestrator self) question config (world env) = (Normal c, w) →
  (∃ d, d ∈ intents c ∧ d ≠ unknown) →
  ∃ r env',
    route lib self question config env = Some (Normal r, env') ∧
    length (turns r) = 3 ∧
    (∀ d, d ≠ unknown → d ∈ intentTried <$> turns r) ∧
    NoDup (intentTried <$> turns r) ∧
    unresolvedIntents r = [].
Proof.
  intros Hnext Hchain Hans Hc (d0 & Hd0 & Hu0).
  destruct (route_answers lib self question config env c w Hc Hans)
    as (r & env' & Hr & Hcr).
  exists r, env'. split; [done|].
  assert (∀ d, d ≠ unknown → d ∈ tried (turns r) → next d ∈ tried (turns r))
    as Hstep.
  { intros d Hu Hin. destruct (Hchain d Hu) as (agent & Ha & Hho).
    destruct (Hnext d Hu) as [Hnu _].
    destruct (Hchain (next d) Hnu) as (agent' & Ha' & _).
    by eapply (route_follows_handoff _ _ _ d agent (next d)). }
  assert (d0 ∈ tried (turns r)) as H0.
  { destruct (route_serves _ _ _ Hr) as (_ & Hcl & _).
    destruct (Hchain d0 Hu0) as (agent & Ha & _).
    apply Hcl; [by rewrite Hcr|done|by eexists]. }
  destruct (Hnext d0 Hu0) as [Hu1 Hnd].
  destruct (Hnext (next d0) Hu1) as [Hu2 _].
  pose proof (Hstep _ Hu0 H0) as H1. pose proof (Hstep _ Hu1 H1) as H2.
  destruct (route_exit _ _ _ _ _ _ _ Hr) as (st & _ & Hrr & HI & _ & Hq).
  pose proof (LoopInvariant_three _ HI) as H3. destruct HI as [_ Hn Hk _].
  assert (turns r = Loop.turns st) as Ht by (by rewrite Hrr).
  rewrite <- Ht in *.
  assert (3 ≤ length (tried (turns r))) as Hge.
  { change 3 with (length [d0; next d0; next (next d0)]).
    apply submseteq_length, NoDup_submseteq; [done|]. set_solver. }
  unfold tried in Hge. rewrite length_fmap in Hge.
  split; [lia|]. split; [|split; [done|]].
  - intros d Hd. apply three_departments; try done.
    rewrite length_fmap. lia.
  - rewrite Hrr. simpl. by rewrite Hq.
Qed.

(** C5.  The classification gives [hr; tech]; the answer of the hr agent
    hands off to finance with the context "needs budget sign-off"; the other
    agents do not hand off.  Then the turns are those of hr, tech and
    finance, in this order, nothing is left unresolved, hr and tech are
    invoked with the question, and finance is invoked with the question
    followed by the follow-up directive that carries the context. *)
Theorem route_sign_off_scenario a_hr a_tech a_finance env c w :
  classify lib (orchestrator self) question config (world env) = (Normal c, w) →
  intents c = [hr; tech] →
  agents self !! hr = Some a_hr →
  agents self !! tech = Some a_tech →
  agents self !! finance = Some a_finance →
  always_answers lib a_hr →
  always_answers lib a_tech →
  always_answers lib a_finance →
  hands_off_with lib a_hr finance "needs budget sign-off" →
  hands_off_to_nobody lib a_tech →
  hands_off_to_nobody lib a_finance →
  ∃ r env' h1 h2 h3,
    route lib self question config env = Some (Normal r, env') ∧
    intentTried <$> turns r = [hr; tech; finance] ∧
    unresolvedIntents r = [] ∧
    trace env' = trace env ++
      [ Classified question None;
        Invoked hr question h1 None;
        Invoked tech question h2 None;
        Invoked finance
          (question +:+ nl +:+ nl +:+
           "Follow-up directive: needs budget sign-off") h3 None ].
Proof.
  intros Hc Hints Hhr Htech Hfin Ahr Atech Afin Hho Ntech Nfin.
  unfold route, route_locals, observed. rewrite Hc.
  assert (initial_locals c
          = Loop.mk [IntentQueueItem.mk hr None; IntentQueueItem.mk tech None] ∅ [])
    as ->.
  { unfold initial_locals, resolveOrderedIntents. by rewrite Hints. }
  change (rounds _) with 12.
  (* hr *)
  edestruct Ahr as (r1 & w1 & Hi1).
  destruct (Hho _ _ _ _ _ _ Hi1) as (h & Hh & Hhi & Hhc).
  erewrite dispatch_turn;
    [|reflexivity|simpl; unfold TURN_BUDGET; lia|done|set_solver|exact Hhr
     |exact Hi1].
  cbn [IntentQueueItem.intent IntentQueueItem.note Loop.turns Loop.visited
       world trace].
  rewrite (enqueue_handoff_Some _ _ _ h Hh) by (rewrite Hhi; set_solver).
  rewrite Hhi, Hhc. cbn [default app].
  (* tech *)
  edestruct Atech as (r2 & w2 & Hi2).
  pose proof (Ntech _ _ _ _ _ _ Hi2) as Hn2.
  erewrite dispatch_turn;
    [|reflexivity|simpl; unfold TURN_BUDGET; lia|done|set_solver|exact Htech
     |exact Hi2].
  cbn [IntentQueueItem.intent IntentQueueItem.note Loop.turns Loop.visited
       world trace].
  rewrite (enqueue_handoff_None _ _ _ Hn2).
  (* finance *)
  edestruct Afin as (r3 & w3 & Hi3).
  pose proof (Nfin _ _ _ _ _ _ Hi3) as Hn3.
  erewrite dispatch_turn;
    [|reflexivity|simpl; unfold TURN_BUDGET; lia|done|set_solver|exact Hfin
     |exact Hi3].
  cbn [IntentQueueItem.intent IntentQueueItem.note Loop.turns Loop.visited
       world trace].
  rewrite (enqueue_handoff_None _ _ _ Hn3).
  rewrite dispatch_done by reflexivity.
  eexists _, _, _, _, _. split; [reflexivity|].
  split; [reflexivity|]. split; [reflexivity|].
  cbn [trace]. rewrite <- !app_assoc. reflexivity.
Qed.

End Route.

(** ** The turn budget, over any set of departments *)

Section TurnBudget.
Context {I : Type} `{Countable I} {W Error RunnableConfig : Type}.
Variable unknown_intent : I.
Variable intent_string : I → string.
Variable agents :
  gmap I (Wide.Agent (I:=I) (W:=W) (Error:=Error)
            (RunnableConfig:=RunnableConfig)).
Variable question : string.
Variable config : option RunnableConfig.
Variable chain : list I.

Abbreviation wide_tried ts := (Wide.intentTried <$> ts).
Abbreviation wide_intents q := (Wide.IntentQueueItem.intent <$> q).

Lemma wide_enqueue_handoff_intents (r : Wide.DomainAgentResult I) v rest d :
  d ∈ wide_intents (Wide.enqueue_handoff r v rest) ↔
  d ∈ wide_intents rest ∨
  ∃ h, Wide.handoff r = Some h ∧ Wide.Handoff.intent h = d ∧ d ∉ v.
Proof.
  unfold Wide.enqueue_handoff.
  destruct (Wide.handoff r) as [h|].
  2: { split; [by left|]. by intros [?|(h & ? & _)]. }
  case_bool_decide as Hv.
  - rewrite fmap_app, elem_of_app. simpl. rewrite list_elem_of_singleton.
    split.
    + intros [?| ->]; [by left|]. right. by exists h.
    + intros [?|(h' & [= <-] & <- & _)]; [by left|by right].
  - split; [by left|].
    intros [?|(h' & E & Hh & Hd)]; [done|]. destruct Hd. congruence.
Qed.

Lemma wide_enqueue_handoff_length (r : Wide.DomainAgentResult I) v rest :
  length (Wide.enqueue_handoff r v rest) ≤ S (length rest).
Proof.
  unfold Wide.enqueue_handoff. destruct (Wide.handoff r) as [h|]; [|lia].
  case_bool_decide; [|lia]. rewrite length_app. simpl. lia.
Qed.

Hypothesis Hchained : Wide.chained unknown_intent agents chain.

(** With chained departments a round never throws, keeps the invariant
    and leaves fewer rounds to do. *)
Lemma wide_round item rest st w :
  Wide.Loop.queue st = item :: rest →
  length (Wide.Loop.turns st) < TURN_BUDGET →
  Wide.ChainInvariant chain st →
  ∃ st' w',
    Wide.loop_body unknown_intent intent_string agents question config
      item rest st w = (Normal st', w') ∧
    Wide.ChainInvariant chain st' ∧
    Wide.rounds st' < Wide.rounds st.
Proof.
  destruct Hchained as (Hnd & Hunk & Honly & Hnext).
  intros Hq Hlt (Hset & Hdup & Hlen & Hin & Hclosed & d0 & Hd0 & Hreq).
  rewrite Hq in Hclosed, Hreq. simpl in Hclosed, Hreq.
  assert (Hskip :
    Wide.IntentQueueItem.intent item = unknown_intent ∨
    Wide.IntentQueueItem.intent item ∈ Wide.Loop.visited st ∨
    agents !! Wide.IntentQueueItem.intent item = None →
    Wide.ChainInvariant chain
      (Wide.Loop.mk rest (Wide.Loop.visited st) (Wide.Loop.turns st)) ∧
    Wide.rounds (Wide.Loop.mk rest (Wide.Loop.visited st) (Wide.Loop.turns st))
      < Wide.rounds st).
  { intros Hwhy.
    assert (Hdrop : ∀ d, d ∈ chain →
              d ∈ Wide.Loop.visited st ∨
                d ∈ Wide.IntentQueueItem.intent item :: wide_intents rest →
              d ∈ Wide.Loop.visited st ∨ d ∈ wide_intents rest).
    { intros d Hd [Hv|Hi]; [by left|].
      apply elem_of_cons in Hi as [->|Hi]; [|by right].
      destruct Hwhy as [Hu|[Hv|Hno]].
      - rewrite Hu in Hd. by destruct Hunk.
      - by left.
      - apply list_elem_of_lookup in Hd as [i Hi].
        destruct (Hnext i _ Hi) as (agent & d' & _ & Ha & _). congruence. }
    split.
    - split; [done|]. split; [done|]. split; [done|]. split; [done|].
      split.
      + intros i d d' Hi Hi' Hv. simpl. apply Hdrop.
        * by eapply list_elem_of_lookup_2.
        * exact (Hclosed _ _ _ Hi Hi' Hv).
      + exists d0. split; [done|]. simpl. by apply Hdrop.
    - unfold Wide.rounds. rewrite Hq. simpl. lia. }
  unfold Wide.loop_body.
  destruct (bool_decide (Wide.IntentQueueItem.intent item = unknown_intent))
    eqn:Hu; simpl.
  { apply bool_decide_eq_true in Hu. eexists _, _. split; [reflexivity|].
    apply Hskip. by left. }
  apply bool_decide_eq_false in Hu.
  destruct (bool_decide (Wide.IntentQueueItem.intent item ∈ Wide.Loop.visited st))
    eqn:Hv; simpl.
  { apply bool_decide_eq_true in Hv. eexists _, _. split; [reflexivity|].
    apply Hskip. by right; left. }
  apply bool_decide_eq_false in Hv.
  destruct (agents !! Wide.IntentQueueItem.intent item) as [agent|] eqn:Ha;
    simpl.
  2: { eexists _, _. split; [reflexivity|]. apply Hskip. by right; right. }
  set (x := Wide.IntentQueueItem.intent item) in *.
  assert (Hx : x ∈ chain) by (apply Honly; by eexists).
  apply list_elem_of_lookup in Hx as [i Hi].
  destruct (Hnext i x Hi) as (agent' & d' & Hi' & Ha' & Hans).
  assert (agent' = agent) as -> by congruence.
  destruct (Hans (task_directive question (Wide.IntentQueueItem.note item))
              (Some (history_or_sentinel
                       (Wide.build_history unknown_intent intent_string agents
                          (Wide.Loop.turns st))))
              config w) as (r & w' & h & Hinv & Hh & Hto).
  unfold bind. rewrite Hinv. simpl. unfold ret.
  eexists _, _. split; [reflexivity|].
  split.
  - split.
    { simpl. rewrite fmap_app, list_to_set_app_L, Hset. simpl. set_solver. }
    split.
    { simpl. rewrite fmap_app. apply NoDup_app. split; [done|].
      split; [|apply NoDup_singleton].
      intros y Hy. simpl. rewrite list_elem_of_singleton. intros ->.
      apply Hv. rewrite Hset. by apply elem_of_list_to_set. }
    split.
    { simpl. rewrite length_app. simpl. unfold TURN_BUDGET in *. lia. }
    split.
    { simpl. intros d Hd. apply elem_of_union in Hd as [Hd|Hd]; [|by apply Hin].
      apply elem_of_singleton in Hd as ->. by eapply list_elem_of_lookup_2. }
    assert (Hkeep : ∀ d,
              d ∈ Wide.Loop.visited st ∨ d ∈ x :: wide_intents rest →
              d ∈ {[x]} ∪ Wide.Loop.visited st ∨
              d ∈ wide_intents
                    (Wide.enqueue_handoff r ({[x]} ∪ Wide.Loop.visited st) rest)).
    { intros d [Hd|Hd]; [left; set_solver|].
      apply elem_of_cons in Hd as [->|Hd]; [left; set_solver|].
      right. apply wide_enqueue_handoff_intents. by left. }
    split.
    + simpl. intros j d d2 Hj Hj' Hd.
      apply elem_of_union in Hd as [Hd|Hd].
      * apply elem_of_singleton in Hd as ->.
        assert (j = i) as -> by exact (NoDup_lookup _ _ _ _ Hnd Hj Hi).
        assert (d2 = d') as -> by congruence.
        destruct (decide (d' ∈ {[x]} ∪ Wide.Loop.visited st)) as [Hd'|Hd'];
          [by left|].
        right. apply wide_enqueue_handoff_intents. right. by exists h.
      * apply Hkeep. exact (Hclosed _ _ _ Hj Hj' Hd).
    + exists d0. split; [done|]. simpl. by apply Hkeep.
  - unfold Wide.rounds. rewrite Hq. simpl. rewrite length_app. simpl.
    pose proof (wide_enqueue_handoff_length r
                  ({[x]} ∪ Wide.Loop.visited st) rest).
    unfold TURN_BUDGET in *. lia.
Qed.

(** The loop over chained departments returns, and it is left with the
    invariant and with an empty queue or a used-up budget. *)
Lemma wide_dispatch_chained fuel st w :
  Wide.rounds st ≤ fuel →
  Wide.ChainInvariant chain st →
  ∃ st' w',
    Wide.dispatch unknown_intent intent_string agents fuel question config
      st w = Some (Normal st', w') ∧
    Wide.ChainInvariant chain st' ∧
    (Wide.Loop.queue st' = [] ∨ TURN_BUDGET ≤ length (Wide.Loop.turns st')).
Proof.
  revert st w. induction fuel as [|fuel IH]; intros st w Hfuel Hinv; simpl.
  - destruct (Wide.Loop.queue st) as [|item rest] eqn:Hq.
    { eexists _, _. split; [reflexivity|]. auto. }
    destruct (length (Wide.Loop.turns st) <? TURN_BUDGET) eqn:Hlt.
    { apply Nat.ltb_lt in Hlt. unfold Wide.rounds in Hfuel.
      rewrite Hq in Hfuel. simpl in Hfuel. lia. }
    apply Nat.ltb_ge in Hlt. eexists _, _. split; [reflexivity|]. auto.
  - destruct (Wide.Loop.queue st) as [|item rest] eqn:Hq.
    { eexists _, _. split; [reflexivity|]. auto. }
    destruct (length (Wide.Loop.turns st) <? TURN_BUDGET) eqn:Hlt.
    2: { apply Nat.ltb_ge in Hlt. eexists _, _. split; [reflexivity|]. auto. }
    apply Nat.ltb_lt in Hlt.
    destruct (wide_round item rest st w Hq Hlt Hinv)
      as (st1 & w1 & -> & Hinv1 & Hdec).
    apply IH; [lia|done].
Qed.

(** A step along the cycle, [n] times. *)
Lemma chain_closed st :
  chain ≠ [] →
  Wide.ChainInvariant chain st →
  Wide.Loop.queue st = [] →
  ∀ n i d, chain !! i = Some d → d ∈ Wide.Loop.visited st →
    ∃ d', chain !! ((i + n) mod length chain) = Some d' ∧
          d' ∈ Wide.Loop.visited st.
Proof.
  intros Hne (_ & _ & _ & _ & Hclosed & _) Hq.
  assert (Hlen : length chain ≠ 0) by (by destruct chain).
  induction n as [|n IH]; intros i d Hi Hd.
  - exists d. split; [|done]. rewrite Nat.add_0_r.
    rewrite Nat.mod_small; [done|]. by eapply lookup_lt_Some.
  - destruct (IH i d Hi Hd) as (d1 & Hi1 & Hd1).
    destruct (lookup_lt_is_Some_2 chain (S ((i + n) mod length chain)
                                          mod length chain)) as [d2 Hi2].
    { by apply Nat.mod_upper_bound. }
    exists d2. split.
    + rewrite <- Hi2. f_equal.
      replace (i + S n) with ((i + n) + 1) by lia.
      replace (S ((i + n) mod length chain))
        with ((i + n) mod length chain + 1) by lia.
      by rewrite Nat.Div0.add_mod_idemp_l.
    + destruct (Hclosed _ _ _ Hi1 Hi2 Hd1) as [?|Hin]; [done|].
      rewrite Hq in Hin. simpl in Hin. by apply elem_of_nil in Hin.
Qed.

(** With six chained departments the loop is left by the budget, and a
    department that had no turn is still wanted. *)
Lemma chain_exit st :
  length chain = 6 →
  Wide.ChainInvariant chain st →
  Wide.Loop.queue st = [] ∨ TURN_BUDGET ≤ length (Wide.Loop.turns st) →
  length (Wide.Loop.turns st) = TURN_BUDGET ∧
  (∃ d, d ∈ chain ∧ d ∉ wide_tried (Wide.Loop.turns st)) ∧
  ∀ d, d ∈ chain → d ∉ wide_tried (Wide.Loop.turns st) →
    d ∈ filter (λ intent, intent ∉ Wide.Loop.visited st)
          (wide_intents (Wide.Loop.queue st)).
Proof.
  destruct Hchained as (Hnd & Hunk & Honly & Hnext).
  intros Hsix Hinv Hexit.
  pose proof Hinv as (Hset & Hdup & Hlen & Hin & Hclosed & d0 & Hd0 & Hreq).
  assert (Hne : chain ≠ []) by (intros E; by rewrite E in Hsix).
  assert (Hfew : ∀ l, NoDup l → (∀ d, d ∈ l → d ∈ chain) →
                      (∀ d, d ∈ l → d ∉ wide_tried (Wide.Loop.turns st)) →
                      length l + length (Wide.Loop.turns st) ≤ 6).
  { intros l Hl Hsub Hnot. rewrite <- Hsix, <- (length_fmap Wide.intentTried).
    rewrite <- length_app. apply submseteq_length, NoDup_submseteq.
    - apply NoDup_app. split; [done|]. split; [|done]. intros d Hd. by apply Hnot.
    - intros d Hd. apply elem_of_app in Hd as [Hd|Hd]; [by apply Hsub|].
      apply Hin. rewrite Hset. by apply elem_of_list_to_set. }
  assert (Hall : ¬ ∀ d, d ∈ chain → d ∈ Wide.Loop.visited st).
  { intros Hall.
    assert (length chain ≤ length (wide_tried (Wide.Loop.turns st))).
    { apply submseteq_length, NoDup_submseteq; [done|].
      intros d Hd. apply Hall in Hd. rewrite Hset in Hd.
      by apply elem_of_list_to_set in Hd. }
    rewrite length_fmap in *. unfold TURN_BUDGET in *. lia. }
  assert (Hbudget : TURN_BUDGET ≤ length (Wide.Loop.turns st)).
  { destruct Hexit as [Hq|?]; [|done]. exfalso. apply Hall.
    intros d Hd. rewrite Hq in Hreq. simpl in Hreq.
    destruct Hreq as [Hv0|Hn]; [|by apply elem_of_nil in Hn].
    apply list_elem_of_lookup in Hd0 as [i0 Hi0].
    apply list_elem_of_lookup in Hd as [i Hi].
    pose proof (lookup_lt_Some _ _ _ Hi0) as Hlt0.
    pose proof (lookup_lt_Some _ _ _ Hi) as Hlt.
    destruct (chain_closed st Hne Hinv Hq (i + length chain - i0) i0 d0 Hi0 Hv0)
      as (d' & Hi' & Hd').
    replace (i0 + (i + length chain - i0)) with (i + 1 * length chain) in Hi'
      by lia.
    rewrite Nat.Div0.mod_add, Nat.mod_small in Hi' by done.
    congruence. }
  split; [lia|]. split.
  { destruct (decide (Forall (λ d, d ∈ Wide.Loop.visited st) chain))
      as [Hf|Hf].
    - exfalso. apply Hall. by apply Forall_forall.
    - apply not_Forall_Exists in Hf; [|apply _].
      apply Exists_exists in Hf as (d & Hd & Hnv). exists d. split; [done|].
      intros Ht. apply Hnv. rewrite Hset. by apply elem_of_list_to_set. }
  intros m Hm Hnot.
  assert (Hmv : m ∉ Wide.Loop.visited st).
  { rewrite Hset. by rewrite elem_of_list_to_set. }
  apply list_elem_of_lookup in Hm as [k Hk].
  pose proof (lookup_lt_Some _ _ _ Hk) as Hklt.
  destruct (lookup_lt_is_Some_2 chain ((k + 5) mod length chain)) as [p Hp].
  { by apply Nat.mod_upper_bound; lia. }
  assert (Hback : S ((k + 5) mod length chain) mod length chain = k).
  { replace (S ((k + 5) mod length chain))
      with ((k + 5) mod length chain + 1) by lia.
    rewrite Nat.Div0.add_mod_idemp_l.
    replace (k + 5 + 1) with (k + 1 * length chain) by lia.
    rewrite Nat.Div0.mod_add. by apply Nat.mod_small. }
  assert (Hpm : p ≠ m).
  { intros ->. pose proof (NoDup_lookup _ _ _ _ Hnd Hp Hk) as E.
    rewrite Hsix in E.
    do 6 (destruct k as [|k]; [by vm_compute in E|]). lia. }
  assert (Hpv : p ∈ Wide.Loop.visited st).
  { destruct (decide (p ∈ Wide.Loop.visited st)) as [?|Hpn]; [done|].
    exfalso.
    pose proof (Hfew [p; m]) as Hc. simpl in Hc.
    unfold TURN_BUDGET in *.
    enough (2 + length (Wide.Loop.turns st) ≤ 6) by lia.
    apply Hc.
    - apply NoDup_cons. split; [by rewrite list_elem_of_singleton|].
      apply NoDup_singleton.
    - intros d Hd. apply elem_of_cons in Hd as [->|Hd];
        [by eapply list_elem_of_lookup_2|].
      apply list_elem_of_singleton in Hd as ->.
      by eapply list_elem_of_lookup_2.
    - intros d Hd. apply elem_of_cons in Hd as [->|Hd].
      + intros Ht. apply Hpn. rewrite Hset. by apply elem_of_list_to_set.
      + by apply list_elem_of_singleton in Hd as ->. }
  apply list_elem_of_filter. split; [done|].
  rewrite <- Hback in Hk.
  by destruct (Hclosed _ _ _ Hp Hk Hpv).
Qed.

End TurnBudget.


(** ** [Wide.route] at the departments of [agents/types.ts] is [route] *)

Section WideAgrees.
Context {W Error RunnableConfig : Type}.
Variable lib : Library W Error.
Variable self : MultiAgentRouter W Error RunnableConfig.
Variable question : string.
Variable config : option RunnableConfig.

Abbreviation wide_agents := (wide_agent lib <$> agents self).

Lemma wide_build_history ts :
  Wide.build_history unknown intent_string wide_agents (wide_turn <$> ts) =
  build_history self ts.
Proof.
  unfold Wide.build_history, build_history. f_equal.
  rewrite <- list_fmap_compose. apply list_fmap_ext. intros _ t _. simpl.
  f_equal. unfold Wide.history_label, history_label. simpl.
  case_bool_decide; [done|]. rewrite lookup_fmap.
  by destruct (agents self !! intentTried t).
Qed.

Lemma wide_enqueue_handoff r v rest :
  Wide.enqueue_handoff (wide_result r) v (wide_item <$> rest) =
  wide_item <$> enqueue_handoff r v rest.
Proof.
  unfold Wide.enqueue_handoff, enqueue_handoff. simpl.
  destruct (handoff r) as [h|]; simpl; [|done].
  case_bool_decide; [|done]. by rewrite fmap_app.
Qed.

Lemma wide_loop_body_agrees item rest st env :
  Wide.loop_body unknown intent_string wide_agents question config
    (wide_item item) (wide_item <$> rest) (wide_locals st) (world env) =
  (wide_completion wide_locals
     (loop_body lib self question config item rest st env).1,
   world (loop_body lib self question config item rest st env).2).
Proof.
  unfold Wide.loop_body, loop_body. simpl.
  destruct (bool_decide (intent_of item = unknown)
            || bool_decide (intent_of item ∈ Loop.visited st)); [done|].
  rewrite lookup_fmap.
  destruct (agents self !! intent_of item) as [agent|]; simpl; [|done].
  unfold bind, observed. simpl. rewrite wide_build_history.
  destruct (invoke lib agent (task_directive question (note_of item))
              (Some (history_or_sentinel (build_history self (Loop.turns st))))
              config (world env)) as [[r|e] w]; simpl; [|done].
  unfold ret, wide_locals. simpl.
  by rewrite wide_enqueue_handoff, fmap_app.
Qed.

Lemma wide_dispatch_agrees fuel st env :
  Wide.dispatch unknown intent_string wide_agents fuel question config
    (wide_locals st) (world env) =
  wide_run wide_locals (dispatch lib self fuel question config st env).
Proof.
  revert st env. induction fuel as [|fuel IH]; intros st env; simpl.
  - destruct (Loop.queue st) as [|item rest]; simpl; [done|].
    rewrite length_fmap. by destruct (length (Loop.turns st) <? TURN_BUDGET).
  - destruct (Loop.queue st) as [|item rest] eqn:Hq; simpl; [done|].
    rewrite length_fmap.
    destruct (length (Loop.turns st) <? TURN_BUDGET); [|done].
    rewrite wide_loop_body_agrees.
    destruct (loop_body lib self question config item rest st env)
      as [[st'|e] env']; simpl; [apply IH|done].
Qed.

(** On the departments of [agents/types.ts] the wide router returns what
    [route] returns. *)
Lemma wide_route_agrees env :
  Wide.route unknown intent_string (classify lib (orchestrator self))
    resolveOrderedIntents wide_agents question config (world env) =
  wide_run wide_route_result (route lib self question config env).
Proof.
  unfold Wide.route, route, route_locals, observed.
  destruct (classify lib (orchestrator self) question config (world env))
    as [[c|e] w]; simpl; [|done].
  set (env1 := {| world := w; trace := _ |}).
  change w with (world env1).
  replace (Wide.initial_locals resolveOrderedIntents c)
    with (wide_locals (initial_locals c)).
  2: { unfold Wide.initial_locals, initial_locals, wide_locals. simpl.
       by rewrite <- list_fmap_compose. }
  replace (Wide.rounds (wide_locals (initial_locals c)))
    with (rounds (initial_locals c)).
  2: { unfold Wide.rounds, rounds. simpl. by rewrite !length_fmap. }
  rewrite wide_dispatch_agrees.
  destruct (dispatch lib self (rounds (initial_locals c)) question config
              (initial_locals c) env1) as [[[st|e] env2]|]; simpl; [|done|done].
  f_equal. f_equal. f_equal. unfold Wide.route_result, wide_route_result.
  simpl. f_equal. by rewrite <- list_fmap_compose.
Qed.

End WideAgrees.

(** * The scripted routers *)

(** A scripted agent answers what the table has for the reply of its model. *)
Lemma stub_invoke reply docs options parsed task history config w :
  Stub.lookup_reply Stub.agent_replies reply = Some parsed →
  invoke Stub.lib
    (init Stub.lib (Stub.llm_says reply) (Stub.retriever_of docs) options)
    task history config w
  = (Normal (agent_result parsed docs), S w).
Proof.
  intros Hp. unfold invoke, bind.
  cbn -[Stub.lookup_reply Stub.agent_replies]. by rewrite Hp.
Qed.

Lemma stub_always_answers reply docs options parsed :
  Stub.lookup_reply Stub.agent_replies reply = Some parsed →
  always_answers Stub.lib
    (init Stub.lib (Stub.llm_says reply) (Stub.retriever_of docs) options).
Proof.
  intros Hp task history config w. eexists _, _. by apply stub_invoke.
Qed.

Lemma stub_hands_off_to reply docs options parsed f :
  Stub.lookup_reply Stub.agent_replies reply = Some parsed →
  follow_up parsed = Some f →
  FollowUp.intent f ≠ unknown →
  hands_off_to Stub.lib
    (init Stub.lib (Stub.llm_says reply) (Stub.retriever_of docs) options)
    (FollowUp.intent f).
Proof.
  intros Hp Hf Hu task history config w r w' Hi.
  rewrite (stub_invoke _ _ _ _ _ _ _ _ Hp) in Hi. injection Hi as <- <-.
  unfold agent_result. simpl. rewrite Hf.
  rewrite bool_decide_eq_true_2 by done. by eexists.
Qed.

Lemma stub_hands_off_with reply docs options parsed f note :
  Stub.lookup_reply Stub.agent_replies reply = Some parsed →
  follow_up parsed = Some f →
  FollowUp.intent f ≠ unknown →
  FollowUp.context_package f = Some note →
  hands_off_with Stub.lib
    (init Stub.lib (Stub.llm_says reply) (Stub.retriever_of docs) options)
    (FollowUp.intent f) note.
Proof.
  intros Hp Hf Hu Hn task history config w r w' Hi.
  rewrite (stub_invoke _ _ _ _ _ _ _ _ Hp) in Hi. injection Hi as <- <-.
  unfold agent_result. simpl. rewrite Hf.
  rewrite bool_decide_eq_true_2 by done. by eexists.
Qed.

Lemma stub_hands_off_to_nobody reply docs options parsed :
  Stub.lookup_reply Stub.agent_replies reply = Some parsed →
  follow_up parsed = None →
  hands_off_to_nobody Stub.lib
    (init Stub.lib (Stub.llm_says reply) (Stub.retriever_of docs) options).
Proof.
  intros Hp Hf task history config w r w' Hi.
  rewrite (stub_invoke _ _ _ _ _ _ _ _ Hp) in Hi. injection Hi as <- <-.
  unfold agent_result. simpl. by rewrite Hf.
Qed.

(** The department cycle hr, tech, finance, hr. *)
Lemma cycle_router_run :
  Stub.summary (route Stub.lib Stub.cycle_router "Who approves this?" None Stub.start)
  = Some (Normal ([hr; tech; finance], []),
          [ Classified "Who approves this?" None;
            Invoked hr "Who approves this?" "No prior agent responses." None;
            Invoked tech
              ("Who approves this?" +:+ nl +:+ nl +:+
               "Follow-up directive: access problem")
              ("HR Knowledge Specialist:" +:+ nl +:+ "IT should look at this.")
              None;
            Invoked finance
              ("Who approves this?" +:+ nl +:+ nl +:+
               "Follow-up directive: approval needed")
              ("HR Knowledge Specialist:" +:+ nl +:+ "IT should look at this."
               +:+ nl +:+ nl +:+
               "IT Support Strategist:" +:+ nl +:+ "Finance should look at this.")
              None ]).
Proof. vm_compute. reflexivity. Qed.

(** C1, on the run with the sign-off handoff. *)
Lemma route_visited_within_budget_witness :
  ∃ r env',
    route Stub.lib Stub.sign_off_router "Can I take leave?" None Stub.start
      = Some (Normal r, env') ∧
    ∃ st,
      route_locals Stub.lib Stub.sign_off_router "Can I take leave?" None
        Stub.start = Some (Normal (classification r, st), env') ∧
      turns r = Loop.turns st ∧
      size (Loop.visited st) ≤ TURN_BUDGET ∧
      length (turns r) ≤ TURN_BUDGET ∧
      Loop.visited st = list_to_set (intentTried <$> turns r).
Proof.
  eexists _, _. split; [reflexivity|].
  apply (route_visited_within_budget Stub.lib Stub.sign_off_router
           "Can I take leave?" None Stub.start).
  reflexivity.
Defined.

(** C2, on the run in which hr and tech hand off to each other. *)
Lemma route_turns_NoDup_witness :
  ∃ r env',
    route Stub.lib Stub.ping_pong_router "VPN and leave" None Stub.start
      = Some (Normal r, env') ∧
    NoDup (intentTried <$> turns r).
Proof.
  eexists _, _. split; [reflexivity|].
  eapply (route_turns_NoDup Stub.lib Stub.ping_pong_router "VPN and leave" None
            Stub.start).
  reflexivity.
Defined.

(** C3, on a run whose classification starts with [unknown] and whose tech
    agent names [unknown] in its follow-up. *)
Lemma route_never_dispatches_unknown_witness :
  ∃ out env',
    route Stub.lib Stub.unknown_router "Where is the canteen?" None Stub.start
      = Some (out, env') ∧
    (∀ r, out = Normal r → unknown ∉ intentTried <$> turns r) ∧
    (∃ evs, trace env' = trace Stub.start ++ evs ∧
            Forall (λ ev, invoked_intent ev ≠ Some unknown) evs) ∧
    (∀ fuel queue env0 out0 env0',
       dispatch Stub.lib Stub.unknown_router fuel "Where is the canteen?" None
         (Loop.mk queue ∅ []) env0 = Some (out0, env0') →
       (∀ st, out0 = Normal st → unknown ∉ intentTried <$> Loop.turns st) ∧
       ∃ evs, trace env0' = trace env0 ++ evs ∧
              Forall (λ ev, invoked_intent ev ≠ Some unknown) evs).
Proof.
  eexists _, _. split; [reflexivity|].
  eapply (route_never_dispatches_unknown Stub.lib Stub.unknown_router
            "Where is the canteen?" None Stub.start).
  reflexivity.
Defined.

(** C10, on the cycle through the three departments. *)
Lemma route_at_most_three_turns_witness :
  ∃ r env',
    route Stub.lib Stub.cycle_router "Who approves this?" None Stub.start
      = Some (Normal r, env') ∧
    length (turns r) ≤ 3 ∧
    unresolvedIntents r = [] ∧
    ∃ st,
      route_locals Stub.lib Stub.cycle_router "Who approves this?" None
        Stub.start = Some (Normal (classification r, st), env') ∧
      Loop.queue st = [] ∧
      length (Loop.turns st) < TURN_BUDGET.
Proof.
  eexists _, _. split; [reflexivity|].
  apply (route_at_most_three_turns Stub.lib Stub.cycle_router
           "Who approves this?" None Stub.start).
  reflexivity.
Defined.

(** C7, on a classifier that throws and on a tech agent that throws. *)
Lemma route_propagates_errors_witness :
  route Stub.lib Stub.deaf_classifier_router "Is payroll late?" None Stub.start
    = Some (Throw "classifier timeout",
            {| world := 1;
               trace := [Classified "Is payroll late?" (Some "classifier timeout")] |}) ∧
  ∃ env' ev,
    route Stub.lib Stub.broken_tech_router "New laptop" None Stub.start
      = Some (Throw "model overloaded", env') ∧
    last (trace env') = Some ev ∧
    invoked_intent ev = Some tech ∧
    failure ev = Some "model overloaded".
Proof.
  split.
  - apply (proj1 (route_propagates_errors Stub.lib Stub.deaf_classifier_router
                    "Is payroll late?" None Stub.start)).
    reflexivity.
  - eexists _, _. split; [reflexivity|].
    destruct (route_propagates_errors Stub.lib Stub.broken_tech_router
                "New laptop" None Stub.start) as (_ & _ & Hlast).
    destruct (Hlast (Throw "model overloaded") _ _
                (Invoked tech "New laptop"
                   ("HR Knowledge Specialist:" +:+ nl +:+
                    "Finance should look at this.")
                   (Some "model overloaded"))
                "model overloaded" eq_refl eq_refl) as [_ Hl].
    + apply elem_of_cons. right. apply elem_of_cons. right. apply list_elem_of_here.
    + reflexivity.
    + split; [exact Hl|]. split; reflexivity.
Defined.

(** C8, on a reply whose follow-up names [unknown]. *)
Lemma invoke_handoff_not_unknown_witness :
  ∃ r w',
    invoke Stub.lib
      (Stub.tech_agent (Stub.llm_says "ask nobody"))
      "Where is the canteen?" None None 0 = (Normal r, w') ∧
    handoff r = None ∧
    (∀ h, handoff r = Some h → Handoff.intent h ≠ unknown).
Proof.
  exists (agent_result
            (Stub.says "Nobody else can help." (Stub.to unknown "out of scope" None))
            [Stub.doc "VPN runbook" "tech/vpn.md"]), 1.
  split; [vm_compute; reflexivity|]. split; [reflexivity|].
  apply (invoke_handoff_not_unknown Stub.lib
           (Stub.tech_agent (Stub.llm_says "ask nobody"))
           "Where is the canteen?" None None 0 _ 1).
  vm_compute. reflexivity.
Defined.

(** C5, on the scripted run of the scenario. *)
Lemma route_sign_off_scenario_witness :
  ∃ r env' h1 h2 h3,
    route Stub.lib Stub.sign_off_router "Can I take leave?" None Stub.start
      = Some (Normal r, env') ∧
    intentTried <$> turns r = [hr; tech; finance] ∧
    unresolvedIntents r = [] ∧
    trace env' = trace Stub.start ++
      [ Classified "Can I take leave?" None;
        Invoked hr "Can I take leave?" h1 None;
        Invoked tech "Can I take leave?" h2 None;
        Invoked finance
          ("Can I take leave?" +:+ nl +:+ nl +:+
           "Follow-up directive: needs budget sign-off") h3 None ].
Proof.
  apply (route_sign_off_scenario Stub.lib Stub.sign_off_router
           "Can I take leave?" None
           (Stub.hr_agent (Stub.llm_says "ask finance for sign-off"))
           (Stub.tech_agent (Stub.llm_says "done"))
           (Stub.finance_agent (Stub.llm_says "done"))
           Stub.start (Stub.classified [hr; tech]) 1).
  - vm_compute. reflexivity.
  - reflexivity.
  - reflexivity.
  - reflexivity.
  - reflexivity.
  - eapply stub_always_answers. reflexivity.
  - eapply stub_always_answers. reflexivity.
  - eapply stub_always_answers. reflexivity.
  - apply (stub_hands_off_with "ask finance for sign-off" _ _ _
             (FollowUp.mk finance "budget" (Some "needs budget sign-off"))
             "needs budget sign-off" eq_refl eq_refl); [discriminate|reflexivity].
  - eapply stub_hands_off_to_nobody; reflexivity.
  - eapply stub_hands_off_to_nobody; reflexivity.
Defined.

(** C6, on the run in which hr and tech hand off to each other. *)
Lemma handoff_cycle_terminates_witness :
  ∃ out env',
    route Stub.lib Stub.ping_pong_router "VPN and leave" None Stub.start
      = Some (out, env') ∧
    ∀ r, out = Normal r →
      length (filter (λ d, d = hr ∨ d = tech) (intentTried <$> turns r)) ≤ 2 ∧
      length (filter (λ d, d = hr) (intentTried <$> turns r)) ≤ 1 ∧
      length (filter (λ d, d = tech) (intentTried <$> turns r)) ≤ 1 ∧
      (hr ∈ intentTried <$> turns r ↔ tech ∈ intentTried <$> turns r).
Proof.
  apply (handoff_cycle_terminates Stub.lib Stub.ping_pong_router
           "VPN and leave" None hr tech
           (Stub.hr_agent (Stub.llm_says "ask tech"))
           (Stub.tech_agent (Stub.llm_says "ask hr")) Stub.start).
  - discriminate.
  - discriminate.
  - reflexivity.
  - reflexivity.
  - apply (stub_hands_off_to "ask tech" _ _ _
             (FollowUp.mk tech "access problem" None) eq_refl eq_refl).
    discriminate.
  - apply (stub_hands_off_to "ask hr" _ _ _
             (FollowUp.mk hr "policy question" None) eq_refl eq_refl).
    discriminate.
Defined.

Lemma cycle_router_agents d agent :
  agents Stub.cycle_router !! d = Some agent →
  (d = hr ∧ agent = Stub.hr_agent (Stub.llm_says "ask tech")) ∨
  (d = tech ∧ agent = Stub.tech_agent (Stub.llm_says "ask finance")) ∨
  (d = finance ∧ agent = Stub.finance_agent (Stub.llm_says "ask hr")).
Proof.
  destruct d; intros H.
  - left. split; [done|].
    change (Some (Stub.hr_agent (Stub.llm_says "ask tech")) = Some agent) in H.
    by injection H.
  - right; left. split; [done|].
    change (Some (Stub.tech_agent (Stub.llm_says "ask finance")) = Some agent) in H.
    by injection H.
  - right; right. split; [done|].
    change (Some (Stub.finance_agent (Stub.llm_says "ask hr")) = Some agent) in H.
    by injection H.
  - change (None = Some agent) in H. discriminate.
Defined.

(** X24, on the cycle through the three departments. *)
Lemma route_department_cycle_witness :
  ∃ r env',
    route Stub.lib Stub.cycle_router "Who approves this?" None Stub.start
      = Some (Normal r, env') ∧
    length (turns r) = 3 ∧
    (∀ d, d ≠ unknown → d ∈ intentTried <$> turns r) ∧
    NoDup (intentTried <$> turns r) ∧
    unresolvedIntents r = [].
Proof.
  apply (route_department_cycle Stub.lib Stub.cycle_router
           "Who approves this?" None Stub.next Stub.start
           (Stub.classified [hr]) 1).
  - intros [] Hd; try done; (split; [discriminate|]);
      repeat (constructor; [set_solver|]); constructor.
  - intros [] Hd; try done; eexists; (split; [reflexivity|]).
    + apply (stub_hands_off_to "ask tech" _ _ _
               (FollowUp.mk tech "access problem" None) eq_refl eq_refl).
      discriminate.
    + apply (stub_hands_off_to "ask finance" _ _ _
               (FollowUp.mk finance "approval needed" None) eq_refl eq_refl).
      discriminate.
    + apply (stub_hands_off_to "ask hr" _ _ _
               (FollowUp.mk hr "policy question" None) eq_refl eq_refl).
      discriminate.
  - intros d agent [[_ ->]|[[_ ->]|[_ ->]]]%cycle_router_agents;
      eapply stub_always_answers; reflexivity.
  - vm_compute. reflexivity.
  - exists hr. split; [apply list_elem_of_here|discriminate].
Defined.

(** The six scripted departments are chained. *)
Lemma six_chained : Wide.chained Six.unknown Six.agents Six.chain.
Proof.
  split; [|split; [|split]].
  - apply (bool_decide_unpack _). vm_compute. exact I.
  - apply (bool_decide_unpack _). vm_compute. exact I.
  - intros [] [a Ha]; try (apply (bool_decide_unpack _); vm_compute; exact I).
    vm_compute in Ha. discriminate.
  - intros i d Hi.
    do 6 (destruct i as [|i];
          [injection Hi as <-; eexists _, _;
           split; [reflexivity|]; split; [reflexivity|];
           intros task history config w; eexists _, _, _;
           split; [reflexivity|]; split; reflexivity|]).
    discriminate.
Defined.

(** The run of the six departments when the classification names the
    first: five turns in the order of the chain, the sixth unresolved. *)
Lemma six_department_run :
  ∃ r w',
    Six.route [Six.hr] "Who approves this?" = Some (Normal r, w') ∧
    Wide.intentTried <$> Wide.turns r =
      [Six.hr; Six.tech; Six.finance; Six.legal; Six.facilities] ∧
    Wide.unresolvedIntents r = [Six.security].
Proof. eexists _, _. split; [reflexivity|]. split; reflexivity. Qed.


(** * The calls of [route]: provenance, order and bounds *)

Section Calls.
Context {W Error RunnableConfig : Type}.
Variable lib : Library W Error.
Variable self : MultiAgentRouter W Error RunnableConfig.
Variable question : string.
Variable config : option RunnableConfig.

Lemma origin_app c ts ts' item : origin c ts item → origin c (ts ++ ts') item.
Proof.
  intros [?|(turn & h & Hin & Hh & ->)]; [by left|right].
  exists turn, h. split; [|done]. apply elem_of_app. by left.
Qed.

Lemma call_of_app c ts t k ev :
  call_of lib self question config c ts k ev →
  call_of lib self question config c (ts ++ [t]) k ev.
Proof.
  intros (turn & item & agent & w & w' & Hk & Hor & Hit & Ha & Hi & ->).
  pose proof (lookup_lt_Some _ _ _ Hk) as Hlt.
  exists turn, item, agent, w, w'.
  rewrite take_app_le by lia. rewrite lookup_app_l by done. done.
Qed.

Lemma initial_Story c t0 env :
  trace env = t0 →
  Story lib self question config c t0 (initial_locals c) env.
Proof.
  intros Ht. split.
  - simpl. apply Forall_fmap, Forall_forall. intros d Hd. left. split; [|done].
    simpl. rewrite resolveOrderedIntents_first_seen, elem_of_first_seen in Hd.
    by destruct Hd.
  - exists []. simpl. rewrite app_nil_r. split; [done|]. split; [done|].
    intros k ev Hk. by rewrite lookup_nil in Hk.
Qed.

(** A round that does not throw keeps the provenance of items and calls. *)
Lemma Round_Story c t0 item rest st env st' env' :
  Loop.queue st = item :: rest →
  Story lib self question config c t0 st env →
  Round lib self question config item rest st env (Normal st') env' →
  Story lib self question config c t0 st' env'.
Proof.
  intros Hq (Hor & invs & Ht & Hlen & Hcalls) HR.
  rewrite Hq in Hor. apply Forall_cons in Hor as [Hitem Hrest].
  inversion HR as [Hskip|agent r w Hu Hnv Ha Hi|]; subst.
  { split; [done|]. by exists invs. }
  split; cbn [Loop.turns Loop.queue Loop.visited trace].
  - assert (Forall (origin c (Loop.turns st ++
              [ {| intentTried := intent_of item; response := r |} ])) rest)
      as Hrest'.
    { eapply Forall_impl; [done|]. intros it. apply origin_app. }
    unfold enqueue_handoff. destruct (handoff r) as [h|] eqn:Hh; [|done].
    case_bool_decide; [|done].
    apply Forall_app. split; [done|]. constructor; [|constructor].
    right. eexists _, h.
    split; [apply elem_of_app; right; apply list_elem_of_here|]. done.
  - eexists (invs ++ [_]). split; [by rewrite Ht, app_assoc|].
    split; [rewrite !length_app; simpl; lia|].
    intros k ev Hk. apply lookup_snoc_Some in Hk as [[Hlt Hk]|[-> <-]].
    + by apply call_of_app, Hcalls.
    + rewrite Hlen. eexists _, item, agent, (world env), w.
      rewrite take_app_length, list_lookup_middle by done. done.
Qed.

Lemma Round_Failed c t0 item rest st env e env' :
  Loop.queue st = item :: rest →
  LoopInvariant st →
  Story lib self question config c t0 st env →
  Round lib self question config item rest st env (Throw e) env' →
  Failed lib self question config c t0 e env'.
Proof.
  intros Hq HI (Hor & invs & Ht & Hlen & Hcalls) HR.
  rewrite Hq in Hor. apply Forall_cons in Hor as [Hitem Hrest].
  inversion HR as [| |agent e' w Hu Hnv Ha Hi]; subst.
  exists st, invs, item, agent, (world env), w.
  cbn [trace]. rewrite Ht, app_assoc. done.
Qed.

Lemma initial_Ordered c : Ordered self c (initial_locals c).
Proof.
  exists [], (resolveOrderedIntents c), [], []. simpl.
  rewrite app_nil_r, <- list_fmap_compose, list_fmap_id. done.
Qed.

Lemma resolveOrderedIntents_NoDup c : NoDup (resolveOrderedIntents c).
Proof. rewrite resolveOrderedIntents_first_seen. apply first_seen_NoDup. Qed.

Lemma filter_snoc_dispatchable (l : list DepartmentIntent) d :
  filter (dispatchable self) (l ++ [d]) =
  filter (dispatchable self) l ++ (if decide (dispatchable self d) then [d] else []).
Proof.
  rewrite filter_app. reflexivity.
Qed.

Lemma enqueue_handoff_intents r visited rest :
  ∃ extra,
    intent_of <$> enqueue_handoff r visited rest = (intent_of <$> rest) ++ extra.
Proof.
  unfold enqueue_handoff. destruct (handoff r) as [h|].
  - case_bool_decide.
    + eexists. by rewrite fmap_app.
    + exists []. by rewrite app_nil_r.
  - exists []. by rewrite app_nil_r.
Qed.

(** A round that does not throw keeps the order of the turns. *)
Lemma Round_Ordered c item rest st env st' env' :
  Loop.queue st = item :: rest →
  LoopInvariant st →
  Ordered self c st →
  Round lib self question config item rest st env (Normal st') env' →
  Ordered self c st'.
Proof.
  intros Hq [Hv _ _ _] (done & pending & pushed & later & Hres & Hqu & Htr & Hlat) HR.
  rewrite Hq, fmap_cons in Hqu.
  destruct pending as [|d pending].
  - (* only pushed items are left *)
    inversion HR as [Hskip|agent r w Hu Hnv Ha Hi|]; subst.
    + exists done, [], (intent_of <$> rest), later.
      split; [done|]. split; [done|]. split; [done|]. by intros [].
    + eexists done, [], _, (later ++ [intent_of item]).
      split; [done|]. split; [done|]. cbn [Loop.turns].
      split; [|by intros []].
      by rewrite tried_app, Htr, <- app_assoc.
  - (* the head of the queue is an intent of the classification *)
    simpl in Hqu. injection Hqu as Hd Hqu. specialize (Hlat ltac:(done)).
    subst later. rewrite app_nil_r in Htr.
    assert (resolveOrderedIntents c = (done ++ [d]) ++ pending) as Hres'.
    { by rewrite <- app_assoc. }
    inversion HR as [Hskip|agent r w Hu Hnv Ha Hi|]; subst;
      cbn [Loop.turns Loop.queue].
    + assert (¬ dispatchable self (intent_of item)) as Hnd.
      { intros [Hu [a Ha]]. destruct Hskip as [?|[Hin|?]]; [done| |congruence].
        rewrite Hv, Htr in Hin. apply elem_of_list_to_set in Hin.
        apply list_elem_of_filter in Hin as [_ Hin].
        pose proof (resolveOrderedIntents_NoDup c) as Hn. rewrite Hres in Hn.
        apply NoDup_app in Hn as (_ & Hn & _). apply (Hn _ Hin).
        apply list_elem_of_here. }
      exists (done ++ [intent_of item]), pending, pushed, [].
      cbn [Loop.turns Loop.queue].
      split; [done|]. split; [done|]. split; [|done].
      rewrite filter_snoc_dispatchable, decide_False by done.
      by rewrite Htr, !app_nil_r.
    + destruct (enqueue_handoff_intents r
                  ({[intent_of item]} ∪ Loop.visited st) rest) as [extra Hex].
      exists (done ++ [intent_of item]), pending, (pushed ++ extra), [].
      cbn [Loop.turns Loop.queue].
      split; [done|]. split.
      * by rewrite Hex, Hqu, app_assoc.
      * split; [|done].
        rewrite filter_snoc_dispatchable, decide_True by (split; [done|by eexists]).
        by rewrite tried_app, Htr, app_nil_r.
Qed.

(** The loop, with the provenance of its calls and the order of its turns. *)
Lemma dispatch_story c t0 fuel st env out env' :
  LoopInvariant st →
  Story lib self question config c t0 st env →
  Ordered self c st →
  dispatch lib self fuel question config st env = Some (out, env') →
  match out with
  | Normal st' =>
      LoopInvariant st' ∧ Story lib self question config c t0 st' env' ∧
      Ordered self c st' ∧ Loop.queue st' = []
  | Throw e => Failed lib self question config c t0 e env'
  end.
Proof.
  intros HI HS HO Hd.
  apply (dispatch_rule lib self question config
           (λ st env, LoopInvariant st ∧
                      Story lib self question config c t0 st env ∧
                      Ordered self c st)
           (Failed lib self question config c t0)) in Hd; [| | |done].
  - destruct out as [st'|e]; [|done].
    destruct Hd as [(HI' & HS' & HO') Hexit].
    split; [done|]. split; [done|]. split; [done|].
    pose proof (LoopInvariant_three _ HI') as H3.
    destruct Hexit as [?|Hge]; [done|]. unfold TURN_BUDGET in Hge. lia.
  - intros item rest st1 env1 st2 env2 Hq Hlt (HI1 & HS1 & HO1) HR.
    split; [by eapply Round_LoopInvariant|].
    split; [by eapply Round_Story|by eapply Round_Ordered].
  - intros item rest st1 env1 e env2 Hq _ (HI1 & HS1 & _) HR.
    by eapply Round_Failed.
Qed.

Lemma route_locals_story env out env' :
  route_locals lib self question config env = Some (out, env') →
  match out with
  | Normal (c, st) =>
      (∃ w, classify lib (orchestrator self) question config (world env)
              = (Normal c, w)) ∧
      LoopInvariant st ∧
      Story lib self question config c (trace env ++ [Classified question None])
        st env' ∧
      Ordered self c st ∧ Loop.queue st = []
  | Throw e =>
      (∃ w, classify lib (orchestrator self) question config (world env)
              = (Throw e, w)) ∨
      (∃ c, Failed lib self question config c
              (trace env ++ [Classified question None]) e env')
  end.
Proof.
  unfold route_locals, observed.
  destruct (classify lib (orchestrator self) question config (world env))
    as [[c|e] w] eqn:Hc; simpl.
  2: { intros [= <- <-]. left. by eexists. }
  destruct (dispatch _ _ _ _ _ _ _) as [[[st'|e] env1]|] eqn:Hd; [| |done].
  - intros [= <- <-].
    apply (dispatch_story c (trace env ++ [Classified question None])) in Hd;
      [|apply initial_LoopInvariant|by apply initial_Story|apply initial_Ordered].
    split; [by eexists|]. done.
  - intros [= <- <-]. right. exists c.
    apply (dispatch_story c (trace env ++ [Classified question None])) in Hd;
      [done|apply initial_LoopInvariant|by apply initial_Story
       |apply initial_Ordered].
Qed.

(** The story of a returned result. *)
Lemma route_story env r env' :
  route lib self question config env = Some (Normal r, env') →
  (∃ w, classify lib (orchestrator self) question config (world env)
          = (Normal (classification r), w)) ∧
  NoDup (tried (turns r)) ∧ (unknown ∉ tried (turns r)) ∧
  (∃ invs,
     trace env' = trace env ++ Classified question None :: invs ∧
     length invs = length (turns r) ∧
     ∀ k ev, invs !! k = Some ev →
             call_of lib self question config (classification r) (turns r) k ev) ∧
  ∃ later,
    tried (turns r) =
      filter (dispatchable self) (resolveOrderedIntents (classification r))
      ++ later.
Proof.
  intros (st & Hl & Hr)%route_Normal.
  pose proof (route_locals_story _ _ _ Hl)
    as (Hc & [_ Hn Hk _] & (_ & invs & Ht & Hlen & Hcalls) & HO & Hq).
  assert (turns r = Loop.turns st) as -> by (by rewrite Hr).
  split; [done|]. split; [done|]. split; [done|]. split.
  - exists invs. rewrite Ht, <- app_assoc. done.
  - destruct HO as (done & pending & pushed & later & Hres & Hqu & Htr & _).
    rewrite Hq in Hqu. symmetry in Hqu. apply app_eq_nil in Hqu as [-> _].
    rewrite app_nil_r in Hres. exists later. by rewrite Hres.
Qed.

Lemma string_app_cons (x : ascii) (a b : string) :
  String x a +:+ b = String x (a +:+ b).
Proof. reflexivity. Qed.

Lemma string_app_nil_r (a : string) : a +:+ "" = a.
Proof. induction a as [|x a IH]; [done|]. by rewrite string_app_cons, IH. Qed.

Lemma string_app_assoc (a b c : string) : (a +:+ b) +:+ c = a +:+ b +:+ c.
Proof.
  induction a as [|x a IH]; [done|]. by rewrite !string_app_cons, IH.
Qed.

Lemma string_app_nonempty (a b : string) : b ≠ "" → a +:+ b ≠ "".
Proof. destruct a; [done|]. rewrite string_app_cons. discriminate. Qed.

Lemma truthy_nonempty s : truthy s = true ↔ s ≠ "".
Proof.
  unfold truthy. destruct (String.eqb_spec s ""); split; try done.
Qed.

(** The history of a transcript with a turn is not the empty string. *)
Lemma build_history_nonempty ts : ts ≠ [] → build_history self ts ≠ "".
Proof.
  destruct ts as [|t ts]; [done|]. intros _. unfold build_history, join.
  rewrite fmap_cons.
  assert (∀ rest, (history_label self t +:+ ":" +:+ nl +:+ text (response t))
                  +:+ rest ≠ "") as Hne.
  { intros rest. rewrite !string_app_assoc.
    apply string_app_nonempty. discriminate. }
  simpl. destruct (_ <$> ts); [|apply Hne].
  specialize (Hne ""). by rewrite string_app_nil_r in Hne.
Qed.

Lemma history_or_sentinel_nonempty ts :
  ts ≠ [] → history_or_sentinel (build_history self ts) = build_history self ts.
Proof.
  intros Hne. unfold history_or_sentinel.
  by rewrite (proj2 (truthy_nonempty _) (build_history_nonempty ts Hne)).
Qed.

Lemma calls_answered c (invs : list (Event Error)) ts :
  length invs = length ts →
  (∀ k ev, invs !! k = Some ev → call_of lib self question config c ts k ev) →
  Forall2 answered invs ts.
Proof.
  intros Hlen Hcalls. apply Forall2_same_length_lookup_2; [done|].
  intros k ev turn Hev Hturn.
  destruct (Hcalls k ev Hev) as (turn' & item & agent & w & w' & Hk & _ & _ & _ & _ & ->).
  rewrite Hturn in Hk. injection Hk as <-. by eexists _, _.
Qed.

(** X1.  The calls of a returned result are the classification and then one
    agent call for each turn, in the order of the turns, and the response of
    a turn is what the agent registered for its intent answered to that call. *)
Theorem route_calls_follow_turns env r env' :
  route lib self question config env = Some (Normal r, env') →
  ∃ invs,
    trace env' = trace env ++ Classified question None :: invs ∧
    length invs = length (turns r) ∧
    ∀ k turn, turns r !! k = Some turn →
      ∃ agent task history w w',
        invs !! k = Some (Invoked (intentTried turn) task history None) ∧
        agents self !! intentTried turn = Some agent ∧
        invoke lib agent task (Some history) config w
          = (Normal (response turn), w').
Proof.
  intros (_ & _ & _ & (invs & Ht & Hlen & Hcalls) & _)%route_story.
  exists invs. split; [done|]. split; [done|]. intros k turn Hk.
  destruct (lookup_lt_is_Some_2 invs k) as [ev Hev].
  { rewrite Hlen. by eapply lookup_lt_Some. }
  destruct (Hcalls k ev Hev)
    as (turn' & item & agent & w & w' & Hk' & _ & _ & Ha & Hi & ->).
  rewrite Hk in Hk'. injection Hk' as <-. by eexists agent, _, _, w, w'.
Qed.


Lemma task_directive_Some q n :
  task_directive q (Some n) =
  if decide (n = "") then q
  else q +:+ nl +:+ nl +:+ "Follow-up directive: " +:+ n.
Proof.
  unfold task_directive. destruct (decide (n = "")) as [->|Hn]; [done|].
  by rewrite (proj2 (truthy_nonempty n) Hn).
Qed.

Lemma handoff_items_app ts t :
  handoff_items (ts ++ [t]) =
  handoff_items ts ++ option_list (handoff_item t).
Proof.
  unfold handoff_items. rewrite omap_app. simpl.
  by destruct (handoff_item t).
Qed.

Lemma items_for_app d l1 l2 :
  items_for d (l1 ++ l2) = items_for d l1 ++ items_for d l2.
Proof. apply filter_app. Qed.

Lemma items_for_cons_ne d item l :
  intent_of item ≠ d → items_for d (item :: l) = items_for d l.
Proof. intros Hne. unfold items_for. by rewrite filter_cons_False. Qed.

Lemma items_for_cons_eq d item l :
  intent_of item = d → items_for d (item :: l) = item :: items_for d l.
Proof. intros He. unfold items_for. by rewrite filter_cons_True. Qed.

(** The handoff of a response puts behind the queue what it adds to the
    handoffs of the transcript, for a department that is not visited. *)
Lemma enqueue_handoff_items_for d intent r visited rest :
  d ∉ visited →
  items_for d (enqueue_handoff r visited rest) =
  items_for d rest ++
  items_for d
    (option_list (handoff_item {| intentTried := intent; response := r |})).
Proof.
  intros Hd. unfold enqueue_handoff, handoff_item. simpl.
  destruct (handoff r) as [h|]; simpl.
  2: { unfold items_for at 3. by rewrite filter_nil, app_nil_r. }
  case_bool_decide as Hv.
  - by rewrite items_for_app.
  - rewrite items_for_cons_ne, app_nil_r; [done|]. simpl.
    intros E. apply Hd. by rewrite <- E.
Qed.

Lemma directive_for_classified c ts d :
  d ∈ intents c → directive_for question c ts d = question.
Proof. intros Hd. unfold directive_for. by rewrite decide_True. Qed.

Lemma initial_Directed c env :
  Directed self question c (trace env) (initial_locals c) env.
Proof.
  split.
  - exists [], (resolveOrderedIntents c), []. split; [done|].
    split; [by rewrite app_nil_r|]. split; [|done].
    intros d Hd. by apply elem_of_nil in Hd.
  - exists []. split; [by rewrite app_nil_r|]. split; [done|].
    intros k turn Hk. done.
Qed.

(** A round that does not throw keeps the notes of the queue and the
    directives of the calls as [Directed] has them. *)
Lemma Round_Directed c t0 item rest st env st' env' :
  Loop.queue st = item :: rest →
  Directed self question c t0 st env →
  Round lib self question config item rest st env (Normal st') env' →
  Directed self question c t0 st' env'.
Proof.
  intros Hq ((done & pending & pushed & Hres & Hqu & Hdone & Hfor)
             & invs & Ht & Hlen & Hcalls) HR.
  rewrite Hq in Hqu.
  (* where the item came from *)
  assert (Hitem :
    (∃ pending', pending = intent_of item :: pending' ∧
                 note_of item = None ∧
                 rest = ((λ d, IntentQueueItem.mk d None) <$> pending')
                        ++ pushed) ∨
    (pending = [] ∧ pushed = item :: rest)).
  { destruct pending as [|x pending']; simpl in Hqu.
    - right. by split.
    - left. exists pending'. injection Hqu as -> ->. by simpl. }
  inversion HR as [Hskip|agent r w Hu Hv Ha Hinv|]; subst.
  - (* the item is dropped *)
    split; [|by exists invs].
    destruct Hitem as [(pending' & -> & Hnote & ->)|[-> ->]].
    + exists (done ++ [intent_of item]), pending', pushed.
      split; [by rewrite <- app_assoc|]. split; [done|]. split; [|done].
      simpl. intros d Hd Hdis. apply elem_of_app in Hd as [Hd|Hd];
        [by apply Hdone|].
      apply list_elem_of_singleton in Hd as ->.
      destruct Hdis as [Hdu [a Hda]].
      destruct Hskip as [?|[?|Hno]]; [done|done|congruence].
    + exists done, [], rest. split; [done|]. split; [done|].
      split; [done|]. simpl. intros d Hdis Hd.
      rewrite <- (Hfor d Hdis Hd). symmetry. apply items_for_cons_ne.
      intros <-. destruct Hdis as [Hdu [a Hda]].
      destruct Hskip as [?|[?|Hno]]; [done|done|congruence].
  - (* the agent of the item answers *)
    set (x := intent_of item) in *.
    set (turn := {| intentTried := x; response := r |}).
    assert (Hdis : dispatchable self x) by (split; [done|by eexists]).
    assert (Hcall :
      directive_for question c (Loop.turns st) x =
      task_directive question (note_of item) ∧
      ∃ done' pending' pushed',
        resolveOrderedIntents c = done' ++ pending' ∧
        rest = ((λ d, IntentQueueItem.mk d None) <$> pending') ++ pushed' ∧
        (∀ d, d ∈ done' → dispatchable self d →
              d ∈ ({[x]} ∪ Loop.visited st : gset DepartmentIntent)) ∧
        (∀ d, dispatchable self d → d ≠ x → d ∉ Loop.visited st →
              items_for d pushed' =
              items_for d (handoff_items (Loop.turns st)))).
    { destruct Hitem as [(pending' & -> & Hnote & ->)|[-> ->]].
      - split.
        + rewrite Hnote. simpl. apply directive_for_classified.
          assert (Hx : x ∈ resolveOrderedIntents c).
          { rewrite Hres. apply elem_of_app. right. apply list_elem_of_here. }
          rewrite resolveOrderedIntents_first_seen, elem_of_first_seen in Hx.
          by destruct Hx.
        + exists (done ++ [x]), pending', pushed.
          split; [by rewrite <- app_assoc|]. split; [done|]. split.
          * intros d Hd Hdd. apply elem_of_app in Hd as [Hd|Hd].
            -- apply elem_of_union. right. by apply Hdone.
            -- apply list_elem_of_singleton in Hd as ->.
               apply elem_of_union. left. by apply elem_of_singleton.
          * intros d Hdd _ Hd. by apply Hfor.
      - rewrite app_nil_r in Hres. split.
        + unfold directive_for. rewrite decide_False.
          2: { intros Hx. apply Hv, Hdone; [|done].
               rewrite <- Hres, resolveOrderedIntents_first_seen,
                 elem_of_first_seen.
               split; [done|]. apply not_elem_of_nil. }
          rewrite <- (Hfor x Hdis Hv).
          by rewrite items_for_cons_eq.
        + exists done, [], rest. split; [by rewrite app_nil_r|].
          split; [done|]. split.
          * intros d Hd Hdd. apply elem_of_union. right. by apply Hdone.
          * intros d Hdd Hne Hd. rewrite <- (Hfor d Hdd Hd).
            symmetry. by apply items_for_cons_ne. }
    destruct Hcall as (Htask & done' & pending' & pushed' & Hres' & Hrest
                       & Hdone' & Hfor').
    split.
    + exists done', pending',
        (pushed' ++
         filter (λ it, intent_of it ∉ ({[x]} ∪ Loop.visited st
                                       : gset DepartmentIntent))
           (option_list (handoff_item turn))).
      split; [done|]. split.
      { cbn [Loop.queue]. rewrite app_assoc, <- Hrest.
        unfold enqueue_handoff, handoff_item. simpl.
        destruct (handoff r) as [h|]; simpl; [|by rewrite app_nil_r].
        case_bool_decide as Hin.
        - by rewrite filter_cons_True.
        - rewrite filter_cons_False; [by rewrite app_nil_r|]. simpl. tauto. }
      split; [done|].
      cbn [Loop.visited Loop.turns]. intros d Hdd Hd.
      assert (Hne : d ≠ x) by (intros ->; apply Hd; set_solver).
      assert (Hd0 : d ∉ Loop.visited st) by set_solver.
      rewrite items_for_app, handoff_items_app, items_for_app.
      rewrite (Hfor' d Hdd Hne Hd0). f_equal.
      unfold items_for. destruct (handoff_item turn) as [it|]; simpl; [|done].
      destruct (decide (intent_of it = d)) as [E|E].
      * rewrite (filter_cons_True _ it) by (by rewrite E).
        by rewrite !filter_cons_True.
      * rewrite (filter_cons_False (λ item0, intent_of item0 = d)) by done.
        destruct (decide (intent_of it ∈ ({[x]} ∪ Loop.visited st
                                          : gset DepartmentIntent))).
        -- by rewrite filter_cons_False by tauto.
        -- rewrite filter_cons_True by done.
           by rewrite filter_cons_False.
    + exists (invs ++ [Invoked x (task_directive question (note_of item))
                        (history_or_sentinel
                           (build_history self (Loop.turns st))) None]).
      cbn [trace Loop.turns]. split; [by rewrite Ht, app_assoc|].
      split; [rewrite !length_app; simpl; lia|].
      intros k t Hk.
      destruct (decide (k < length (Loop.turns st))) as [Hlt|Hge].
      * rewrite lookup_app_l in Hk by done.
        destruct (Hcalls k t Hk) as (history & Hev).
        exists history. rewrite lookup_app_l by lia.
        rewrite take_app_le by lia. done.
      * rewrite lookup_app_r in Hk by lia.
        apply list_lookup_singleton_Some in Hk as [Hk0 <-].
        assert (k = length (Loop.turns st)) as -> by lia.
        eexists. rewrite lookup_app_r by lia.
        rewrite Hlen, Nat.sub_diag. simpl.
        rewrite take_app_length. by rewrite Htask.
Qed.

Lemma dispatch_directed c t0 fuel st env st' env' :
  Directed self question c t0 st env →
  dispatch lib self fuel question config st env = Some (Normal st', env') →
  Directed self question c t0 st' env'.
Proof.
  intros HD Hd.
  apply (dispatch_rule lib self question config
           (Directed self question c t0) (λ _ _, True)) in Hd;
    [by destruct Hd| | |done].
  - intros item rest st1 env1 st2 env2 Hq _ HD1 HR.
    by eapply Round_Directed.
  - done.
Qed.

(** The first handoff of a transcript to a department. *)
Lemma head_items_for d ts item :
  head (items_for d (handoff_items ts)) = Some item →
  ∃ k turn h,
    ts !! k = Some turn ∧ handoff (response turn) = Some h ∧
    Handoff.intent h = d ∧
    note_of item = Some (default (Handoff.reason h) (Handoff.context h)) ∧
    ∀ j turn' h', j < k → ts !! j = Some turn' →
      handoff (response turn') = Some h' → Handoff.intent h' ≠ d.
Proof.
  induction ts as [|t ts IH]; [done|].
  unfold handoff_items. simpl. fold (handoff_items ts).
  destruct (handoff_item t) as [it|] eqn:Hit.
  - unfold handoff_item in Hit.
    destruct (handoff (response t)) as [h|] eqn:Hh; [|done].
    injection Hit as <-.
    destruct (decide (Handoff.intent h = d)) as [E|E].
    + rewrite items_for_cons_eq by done. intros [= <-].
      exists 0, t, h. split; [done|]. split; [done|]. split; [done|].
      split; [done|]. intros j ? ? Hj. lia.
    + rewrite items_for_cons_ne by done. intros Hhd.
      destruct (IH Hhd) as (k & turn & h0 & Hk & Hh0 & Hd0 & Hn & Hmin).
      exists (S k), turn, h0. split; [done|]. split; [done|].
      split; [done|]. split; [done|].
      intros [|j] turn' h' Hj Hl Hh'.
      * simpl in Hl. injection Hl as <-. congruence.
      * eapply Hmin; [|exact Hl|exact Hh']. lia.
  - intros Hhd.
    destruct (IH Hhd) as (k & turn & h0 & Hk & Hh0 & Hd0 & Hn & Hmin).
    exists (S k), turn, h0. split; [done|]. split; [done|].
    split; [done|]. split; [done|].
    intros [|j] turn' h' Hj Hl Hh'.
    + simpl in Hl. injection Hl as <-. unfold handoff_item in Hit.
      by rewrite Hh' in Hit.
    + eapply Hmin; [|exact Hl|exact Hh']. lia.
Qed.

(** The directives of the calls of a returned result. *)
Lemma route_directed env r env' :
  route lib self question config env = Some (Normal r, env') →
  ∃ invs,
    trace env' = trace env ++ Classified question None :: invs ∧
    ∀ k turn, turns r !! k = Some turn →
      ∃ history,
        invs !! k =
          Some (Invoked (intentTried turn)
                  (directive_for question (classification r)
                     (take k (turns r)) (intentTried turn))
                  history None).
Proof.
  intros (st & Hl & Hr)%route_Normal.
  assert (turns r = Loop.turns st) as -> by (by rewrite Hr).
  revert Hl. generalize (classification r). intros c.
  unfold route_locals, observed.
  destruct (classify lib (orchestrator self) question config (world env))
    as [[c'|e] w] eqn:Hc; simpl; [|done].
  destruct (dispatch _ _ _ _ _ _ _) as [[[st'|e] env1]|] eqn:Hd; [|done|done].
  intros [= -> -> ->].
  apply (dispatch_directed c (trace env ++ [Classified question None])) in Hd.
  - destruct Hd as (_ & invs & Ht & _ & Hcalls).
    exists invs. split; [by rewrite Ht, <- app_assoc|]. done.
  - apply (initial_Directed c
             {| world := w; trace := trace env ++ [Classified question None] |}).
Qed.

(** X3.  The directive of the call of a turn.  For a department that the
    classification names it is the question as it was asked, also when an
    earlier turn handed off to that department.  For any other department
    it comes from the first turn that handed off to it: the note is the
    context of that handoff, or the reason when there is no context, and
    the directive is the question followed by the follow-up directive with
    that note; when the note is the empty string, the directive is the
    question alone. *)
Theorem route_directive_of_call env r env' :
  route lib self question config env = Some (Normal r, env') →
  ∃ invs,
    trace env' = trace env ++ Classified question None :: invs ∧
    ∀ k turn, turns r !! k = Some turn →
      ∃ task history,
        invs !! k = Some (Invoked (intentTried turn) task history None) ∧
        (intentTried turn ∈ intents (classification r) → task = question) ∧
        (intentTried turn ∉ intents (classification r) →
         ∃ k' turn' h,
           k' < k ∧ turns r !! k' = Some turn' ∧
           handoff (response turn') = Some h ∧
           Handoff.intent h = intentTried turn ∧
           (∀ j turn'' h'', j < k' → turns r !! j = Some turn'' →
              handoff (response turn'') = Some h'' →
              Handoff.intent h'' ≠ intentTried turn) ∧
           task =
             let note := default (Handoff.reason h) (Handoff.context h) in
             if decide (note = "") then question
             else question +:+ nl +:+ nl +:+ "Follow-up directive: " +:+ note).
Proof.
  intros Hroute.
  pose proof (route_story _ _ _ Hroute)
    as (_ & _ & _ & (invs0 & Ht0 & Hlen0 & Hcalls0) & _).
  destruct (route_directed _ _ _ Hroute) as (invs & Ht & Hcalls).
  assert (invs0 = invs) as ->.
  { rewrite Ht0 in Ht. apply app_inv_head in Ht. by injection Ht. }
  exists invs. split; [done|]. intros k turn Hk.
  destruct (Hcalls k turn Hk) as (history & Hev).
  eexists _, history. split; [exact Hev|].
  split; [apply directive_for_classified|].
  intros Hnot. unfold directive_for. rewrite decide_False by done.
  (* the call was made for an item of the classification or of a handoff *)
  destruct (Hcalls0 k _ Hev)
    as (turn0 & item & agent & w & w' & Hk0 & Hor & Hit & _ & _ & Heq).
  rewrite Hk in Hk0. injection Hk0 as <-.
  destruct (head (items_for (intentTried turn)
                    (handoff_items (take k (turns r))))) as [it|] eqn:Hhd.
  - destruct (head_items_for _ _ _ Hhd)
      as (k' & turn' & h & Hk' & Hh & Hd & Hn & Hmin).
    pose proof (lookup_lt_Some _ _ _ Hk') as Hlt.
    rewrite length_take in Hlt.
    rewrite lookup_take_lt in Hk' by lia.
    exists k', turn', h. split; [lia|]. split; [done|]. split; [done|].
    split; [done|]. split.
    + intros j turn'' h'' Hj Hl Hh''.
      eapply (Hmin j turn'' h''); [done| |done].
      rewrite lookup_take_lt by lia. done.
    + rewrite Hn, task_directive_Some. done.
  - (* no handoff: the item came from the classification *)
    exfalso.
    destruct Hor as [[Hin _]|(turn' & h & Hin & Hh & ->)].
    + apply Hnot. by rewrite <- Hit.
    + simpl in Hit.
      assert (Hmem : IntentQueueItem.mk (Handoff.intent h)
                       (Some (default (Handoff.reason h) (Handoff.context h)))
                     ∈ items_for (intentTried turn)
                         (handoff_items (take k (turns r)))).
      { apply list_elem_of_filter. split; [done|].
        apply list_elem_of_omap. exists turn'. split; [done|].
        unfold handoff_item. by rewrite Hh. }
      apply head_None in Hhd. rewrite Hhd in Hmem.
      by apply elem_of_nil in Hmem.
Qed.

(** X4.  A returned result has a turn for every department that has an
    agent and that the classification names, and for every department that
    has an agent and that the handoff of one of its turns names. *)
Theorem route_serves_requests env r env' :
  route lib self question config env = Some (Normal r, env') →
  (∀ d, d ∈ intents (classification r) → dispatchable self d →
        d ∈ intentTried <$> turns r) ∧
  (∀ turn h, turn ∈ turns r → handoff (response turn) = Some h →
             dispatchable self (Handoff.intent h) →
             Handoff.intent h ∈ intentTried <$> turns r).
Proof.
  intros Hr. destruct (route_serves _ _ _ _ _ _ _ Hr) as (_ & Hc & Hh). split.
  - intros d Hd [Hu Ha]. by apply Hc.
  - intros turn h Hin Hho [Hu Ha]. by apply (Hh turn h).
Qed.

(** X5.  The turns of a returned result begin with the dispatchable intents
    of the classification, in the order in which [resolveOrderedIntents]
    gives them; the turns after these are for departments that the
    classification does not name and that the handoff of a turn asked for. *)
Theorem route_classified_first env r env' :
  route lib self question config env = Some (Normal r, env') →
  ∃ later,
    intentTried <$> turns r =
      filter (dispatchable self) (resolveOrderedIntents (classification r))
      ++ later ∧
    Forall (λ d, d ∉ intents (classification r)) later ∧
    Forall (λ d, ∃ turn h, turn ∈ turns r ∧ handoff (response turn) = Some h ∧
                           Handoff.intent h = d) later.
Proof.
  intros (_ & Hn & Hu & (invs & Ht & Hlen & Hcalls) & later & Hord)%route_story.
  exists later. split; [done|].
  assert (∀ d, d ∈ later →
            (d ∉ intents (classification r)) ∧
            ∃ turn h, turn ∈ turns r ∧ handoff (response turn) = Some h ∧
                      Handoff.intent h = d) as Hlater.
  { intros d Hd.
    assert (d ∈ tried (turns r)) as Hin.
    { rewrite Hord. apply elem_of_app. by right. }
    rewrite Hord in Hn. apply NoDup_app in Hn as (_ & Hdisj & _).
    apply list_elem_of_fmap in Hin as (turn & -> & Hin).
    apply list_elem_of_lookup_1 in Hin as [k Hk].
    destruct (lookup_lt_is_Some_2 invs k) as [ev Hev].
    { rewrite Hlen. by eapply lookup_lt_Some. }
    destruct (Hcalls k ev Hev)
      as (turn' & item & agent & w & w' & Hk' & Hor & Hit & Ha & _ & _).
    rewrite Hk in Hk'. injection Hk' as <-.
    assert (intentTried turn ∉ intents (classification r)) as Hnin.
    { intros Hc. apply (Hdisj (intentTried turn)); [|done].
      apply list_elem_of_filter. split.
      - split; [|by eexists]. intros Heq. apply Hu. rewrite <- Heq.
        apply list_elem_of_fmap. exists turn. split; [done|].
        by eapply list_elem_of_lookup_2.
      - rewrite resolveOrderedIntents_first_seen, elem_of_first_seen.
        split; [done|apply not_elem_of_nil]. }
    split; [done|].
    destruct Hor as [[Hc _]|(turn' & h & Hin' & Hh & ->)].
    - by rewrite Hit in Hc.
    - exists turn', h. split; [|done].
      apply elem_of_take in Hin' as (k' & Hk' & _).
      by eapply list_elem_of_lookup_2. }
  split; apply Forall_forall; intros d Hd; by destruct (Hlater d Hd).
Qed.

(** X6.  A returned result has no turn exactly when the classification
    names no department that has an agent. *)
Theorem route_no_turn_iff env r env' :
  route lib self question config env = Some (Normal r, env') →
  turns r = [] ↔
  ∀ d, d ∈ intents (classification r) → ¬ dispatchable self d.
Proof.
  intros Hr.
  pose proof (route_story _ _ _ Hr)
    as (_ & _ & _ & (invs & Ht & Hlen & Hcalls) & later & Hord).
  split.
  - intros Hnil d Hd Hdisp. rewrite Hnil in Hord. simpl in Hord.
    symmetry in Hord. apply app_eq_nil in Hord as [Hf _].
    apply (filter_nil_not_elem_of _ _ d Hf Hdisp).
    rewrite resolveOrderedIntents_first_seen, elem_of_first_seen.
    split; [done|apply not_elem_of_nil].
  - intros Hnone. destruct (turns r) as [|turn ts] eqn:Hts; [done|].
    destruct (lookup_lt_is_Some_2 invs 0) as [ev Hev].
    { rewrite Hlen. simpl. lia. }
    destruct (Hcalls 0 ev Hev)
      as (turn' & item & agent & w & w' & Hk' & Hor & Hit & Ha & _ & _).
    simpl in Hk'. injection Hk' as <-.
    destruct Hor as [[Hc _]|(turn' & h & Hin' & _)].
    + exfalso. apply (Hnone (intentTried turn)); [by rewrite <- Hit|].
      split; [|by eexists].
      pose proof (route_story _ _ _ Hr) as (_ & _ & Hu & _).
      rewrite Hts in Hu. intros Heq. apply Hu. rewrite <- Heq.
      apply list_elem_of_here.
    + by apply elem_of_nil in Hin'.
Qed.

(** X7.  A call of [route], whether it returns or throws, asks for the
    classification once and invokes at most 3 agents, no two of them for
    the same department. *)
Theorem route_call_bound env out env' :
  route lib self question config env = Some (out, env') →
  ∃ f invs,
    trace env' = trace env ++ Classified question f :: invs ∧
    Forall (λ ev, is_Some (invoked_intent ev)) invs ∧
    length invs ≤ 3 ∧
    NoDup (omap invoked_intent invs).
Proof.
  destruct out as [r|e].
  - intros Hr.
    pose proof (route_story _ _ _ Hr)
      as (_ & Hn & Hu & (invs & Ht & Hlen & Hcalls) & _).
    pose proof (calls_answered _ _ _ Hlen Hcalls) as Hans.
    exists None, invs. split; [done|].
    split; [by eapply answered_is_invoked|].
    rewrite (answered_invoked _ _ Hans). split; [|done].
    rewrite Hlen, <- (length_fmap intentTried). by apply departments_length.
  - intros Hl%route_Throw.
    pose proof (route_locals_story _ _ _ Hl) as [[w Hc]|[c HF]].
    + revert Hl. unfold route_locals, observed. rewrite Hc.
      intros [= <-]. exists (Some e), []. simpl.
      split; [done|]. split; [constructor|]. split; [lia|constructor].
    + destruct HF as (st & invs & item & agent & w & w' & [Hv Hn Hk _] & Hlen
                      & Hcalls & _ & Hu & Hnv & _ & _ & Ht).
      pose proof (calls_answered _ _ _ Hlen Hcalls) as Hans.
      eexists None, (invs ++ [_]). rewrite Ht, <- app_assoc.
      split; [done|].
      assert (NoDup (tried (Loop.turns st) ++ [intent_of item])) as Hnd.
      { apply NoDup_app. split; [done|]. split; [|apply NoDup_singleton].
        intros x Hx ->%list_elem_of_singleton. apply Hnv. rewrite Hv.
        by apply elem_of_list_to_set. }
      split.
      { apply Forall_app. split; [by eapply answered_is_invoked|].
        by repeat constructor. }
      rewrite omap_app, (answered_invoked _ _ Hans). simpl.
      split; [|done].
      rewrite length_app, Hlen, <- (length_fmap intentTried). simpl.
      fold (tried (Loop.turns st)).
      assert (length (tried (Loop.turns st) ++ [intent_of item]) ≤ 3) as Hle.
      { apply departments_length; [done|].
        rewrite elem_of_app, list_elem_of_singleton. naive_solver. }
      rewrite length_app in Hle. simpl in Hle. lia.
Qed.

(** X8.  An error that [route] throws is an error of a collaborator: the
    classification threw it, or the agent of a department that has an agent
    threw it when it was invoked. *)
Theorem route_throws_collaborator_error env e env' :
  route lib self question config env = Some (Throw e, env') →
  (∃ w, classify lib (orchestrator self) question config (world env)
          = (Throw e, w)) ∨
  (∃ d agent task history w w',
     dispatchable self d ∧ agents self !! d = Some agent ∧
     invoke lib agent task (Some history) config w = (Throw e, w')).
Proof.
  intros Hl%route_Throw.
  pose proof (route_locals_story _ _ _ Hl) as [?|[c HF]]; [by left|right].
  destruct HF as (st & invs & item & agent & w & w' & _ & _ & _ & _ & Hu & _
                  & Ha & Hi & _).
  exists (intent_of item), agent. eexists _, _, w, w'.
  split; [|done]. split; [done|by eexists].
Qed.

End Calls.

(** * Termination of the dispatch loop *)

Section Termination.
Context {W Error RunnableConfig : Type}.
Variable lib : Library W Error.
Variable self : MultiAgentRouter W Error RunnableConfig.
Variable question : string.
Variable config : option RunnableConfig.

(** More rounds than the loop takes change nothing. *)
Lemma dispatch_more_fuel fuel st env out :
  dispatch lib self fuel question config st env = Some out →
  dispatch lib self (S fuel) question config st env = Some out.
Proof.
  revert st env. induction fuel as [|fuel IH]; intros st env.
  - simpl. destruct (Loop.queue st) as [|item rest]; [done|].
    by destruct (length (Loop.turns st) <? TURN_BUDGET).
  - intros Hd. change (dispatch lib self (S (S fuel)) question config st env)
      with (match Loop.queue st with
            | [] => Some (Normal st, env)
            | item :: rest =>
                if length (Loop.turns st) <? TURN_BUDGET then
                  match loop_body lib self question config item rest st env with
                  | (Normal st', env') =>
                      dispatch lib self (S fuel) question config st' env'
                  | (Throw e, env') => Some (Throw e, env')
                  end
                else Some (Normal st, env)
            end).
    simpl in Hd. destruct (Loop.queue st) as [|item rest]; [done|].
    destruct (length (Loop.turns st) <? TURN_BUDGET); [|done].
    destruct (loop_body lib self question config item rest st env)
      as [[st'|e] env1]; [|done].
    by apply IH.
Qed.

Lemma dispatch_fuel_le fuel fuel' st env out :
  fuel ≤ fuel' →
  dispatch lib self fuel question config st env = Some out →
  dispatch lib self fuel' question config st env = Some out.
Proof.
  induction 1 as [|fuel' _ IH]; [done|].
  intros Hd. by apply dispatch_more_fuel, IH.
Qed.

(** X9.  The loop comes to an end from every queue and transcript, whatever
    the agents answer and however they hand off: a number of rounds equal to
    the length of the queue plus twice the turns left in the budget is
    enough, and with more rounds the outcome is the same. *)
Theorem dispatch_terminates st env fuel :
  length (Loop.queue st) + 2 * (TURN_BUDGET - length (Loop.turns st)) ≤ fuel →
  ∃ out,
    dispatch lib self fuel question config st env = Some out ∧
    ∀ fuel',
      length (Loop.queue st) + 2 * (TURN_BUDGET - length (Loop.turns st))
        ≤ fuel' →
      dispatch lib self fuel' question config st env = Some out.
Proof.
  intros Hfuel.
  destruct (dispatch_returns lib self question config (rounds st) st env)
    as [out Hout]; [done|].
  exists out. split.
  - by eapply dispatch_fuel_le.
  - intros fuel' Hfuel'. by eapply dispatch_fuel_le.
Qed.

End Termination.

(** * More of [DomainRagAgent.invoke] *)

Section Invoke.
Context {W Error RunnableConfig : Type}.
Variable lib : Library W Error.
Variable self : DomainRagAgent W Error RunnableConfig.

(** A result of [invoke] comes from four calls that all returned. *)
Lemma invoke_Normal_inv question history config w r w' :
  invoke lib self question history config w = (Normal r, w') →
  ∃ sourceDocs messages llmResponse parsed w1 w2 w3,
    retriever_invoke (retriever self) question config w
      = (Normal sourceDocs, w1) ∧
    formatMessages (prompt self)
      (prompt_values self question (default "No prior agent responses." history)
         (formatContext sourceDocs)) w1 = (Normal messages, w2) ∧
    llm_invoke (llm self) messages config w2 = (Normal llmResponse, w3) ∧
    parse (parser self) (extractAnswer lib llmResponse) w3
      = (Normal parsed, w') ∧
    r = agent_result parsed sourceDocs.
Proof.
  unfold invoke, bind, ret, prompt_values.
  destruct (retriever_invoke _ _ _ w) as [[sourceDocs|?] w1] eqn:Hr; [|done].
  destruct (formatMessages _ _ w1) as [[messages|?] w2] eqn:Hf; [|done].
  destruct (llm_invoke _ _ _ w2) as [[llmResponse|?] w3] eqn:Hl; [|done].
  destruct (parse _ _ w3) as [[parsed|?] w4] eqn:Hp; [|done].
  intros [= <- <-]. by exists sourceDocs, messages, llmResponse, parsed, w1, w2, w3.
Qed.

(** X10.  The [sources] of a result are the citations of the parsed answer
    when it has any.  Otherwise there is one source for each retrieved
    passage, in the order of the passages: its [metadata.source] when that
    is a string, and "chunk-" followed by its index when not. *)
Theorem invoke_sources question history config w r w' :
  invoke lib self question history config w = (Normal r, w') →
  ∃ sourceDocs llmResponse parsed w1 w3,
    retriever_invoke (retriever self) question config w
      = (Normal sourceDocs, w1) ∧
    parse (parser self) (extractAnswer lib llmResponse) w3
      = (Normal parsed, w') ∧
    (citations parsed ≠ [] → sources r = citations parsed) ∧
    (citations parsed = [] →
       length (sources r) = length sourceDocs ∧
       ∀ idx doc, sourceDocs !! idx = Some doc →
         sources r !! idx =
           Some (match metadata_source doc with
                 | Some (MetaString s) => s
                 | _ => "chunk-" +:+ pretty idx
                 end)).
Proof.
  intros (sourceDocs & messages & llmResponse & parsed & w1 & w2 & w3
          & Hr & _ & _ & Hp & ->)%invoke_Normal_inv.
  exists sourceDocs, llmResponse, parsed, w1, w3.
  split; [done|]. split; [done|]. unfold agent_result. simpl. split.
  - intros Hne. destruct (citations parsed); done.
  - intros ->. simpl. split; [apply length_imap|].
    intros idx doc Hdoc. rewrite list_lookup_imap, Hdoc. simpl.
    unfold fallback_source, chunk_label.
    by destruct (metadata_source doc) as [[]|].
Qed.

Lemma chunk_label_inj i j : chunk_label i = chunk_label j → i = j.
Proof.
  unfold chunk_label. intros H. apply (inj (String.app "chunk-")) in H.
  by apply (inj pretty) in H.
Qed.

(** X11.  When the parsed answer has no citations and no retrieved passage
    has a string as [metadata.source], the sources of the result are the
    labels "chunk-0", "chunk-1", ..., and no two of them are the same. *)
Theorem invoke_chunk_sources_distinct question history config w r w' :
  invoke lib self question history config w = (Normal r, w') →
  ∃ sourceDocs llmResponse parsed w1 w3,
    retriever_invoke (retriever self) question config w
      = (Normal sourceDocs, w1) ∧
    parse (parser self) (extractAnswer lib llmResponse) w3
      = (Normal parsed, w') ∧
    (citations parsed = [] →
     Forall (λ doc, ∀ s, metadata_source doc ≠ Some (MetaString s)) sourceDocs →
     sources r = (λ idx, "chunk-" +:+ pretty idx) <$> seq 0 (length sourceDocs) ∧
     NoDup (sources r)).
Proof.
  intros (sourceDocs & messages & llmResponse & parsed & w1 & w2 & w3
          & Hr & _ & _ & Hp & ->)%invoke_Normal_inv.
  exists sourceDocs, llmResponse, parsed, w1, w3.
  split; [done|]. split; [done|]. intros Hc Hall.
  unfold agent_result. simpl. rewrite Hc. simpl.
  assert (imap fallback_source sourceDocs
          = chunk_label <$> seq 0 (length sourceDocs)) as ->.
  { apply list_eq. intros i.
    rewrite list_lookup_imap, list_lookup_fmap.
    destruct (sourceDocs !! i) as [doc|] eqn:Hdoc; simpl.
    - rewrite lookup_seq_lt by (by eapply lookup_lt_Some). simpl.
      rewrite Forall_forall in Hall.
      pose proof (Hall doc (list_elem_of_lookup_2 _ _ _ Hdoc)) as Hd.
      unfold fallback_source.
      destruct (metadata_source doc) as [[s|p]|]; [by destruct (Hd s)|done..].
    - apply lookup_ge_None in Hdoc. by rewrite lookup_seq_ge by done. }
  split; [done|].
  apply NoDup_fmap_2; [|apply NoDup_seq].
  intros i j. apply chunk_label_inj.
Qed.

(** X12.  [invoke] throws exactly when one of its four calls throws: the
    retriever, or the prompt on the retrieved context, or the model on the
    messages, or the parser on the reply.  It then throws the error of that
    call and leaves the world as that call left it, so that no later call
    was made. *)
Theorem invoke_throws_iff question history config w e w' :
  invoke lib self question history config w = (Throw e, w') ↔
  retriever_invoke (retriever self) question config w = (Throw e, w') ∨
  ∃ sourceDocs w1,
    retriever_invoke (retriever self) question config w
      = (Normal sourceDocs, w1) ∧
    (formatMessages (prompt self)
       (prompt_values self question (default "No prior agent responses." history)
          (formatContext sourceDocs)) w1 = (Throw e, w') ∨
     ∃ messages w2,
       formatMessages (prompt self)
         (prompt_values self question (default "No prior agent responses." history)
            (formatContext sourceDocs)) w1 = (Normal messages, w2) ∧
       (llm_invoke (llm self) messages config w2 = (Throw e, w') ∨
        ∃ llmResponse w3,
          llm_invoke (llm self) messages config w2 = (Normal llmResponse, w3) ∧
          parse (parser self) (extractAnswer lib llmResponse) w3
            = (Throw e, w'))).
Proof.
  unfold invoke, bind, ret, prompt_values.
  destruct (retriever_invoke _ _ _ w) as [[sourceDocs|e1] w1].
  2: { split; [intros [= <- <-]; by left|].
       intros [[= <- <-]|(? & ? & [=] & _)]. done. }
  destruct (formatMessages _ _ w1) as [[messages|e2] w2] eqn:Hf.
  2: { split.
       - intros [= <- <-]. right. eexists _, _. split; [done|]. rewrite Hf. by left.
       - intros [[=]|(? & ? & [= <- <-] & H)]. rewrite Hf in H.
         destruct H as [[= <- <-]|(? & ? & [=] & _)]. done. }
  destruct (llm_invoke _ _ _ w2) as [[llmResponse|e3] w3] eqn:Hl.
  2: { split.
       - intros [= <- <-]. right. eexists _, _. split; [done|]. rewrite Hf.
         right. eexists _, _. split; [done|]. rewrite Hl. by left.
       - intros [[=]|(? & ? & [= <- <-] & H)]. rewrite Hf in H.
         destruct H as [[=]|(? & ? & [= <- <-] & H)]. rewrite Hl in H.
         destruct H as [[= <- <-]|(? & ? & [=] & _)]. done. }
  destruct (parse _ _ w3) as [[parsed|e4] w4] eqn:Hp.
  - split; [done|].
    intros [[=]|(? & ? & [= <- <-] & H)]. rewrite Hf in H.
    destruct H as [[=]|(? & ? & [= <- <-] & H)]. rewrite Hl in H.
    destruct H as [[=]|(? & ? & [= <- <-] & H)]. by rewrite Hp in H.
  - split.
    + intros [= <- <-]. right. eexists _, _. split; [done|]. rewrite Hf.
      right. eexists _, _. split; [done|]. rewrite Hl.
      right. eexists _, _. split; [done|]. by rewrite Hp.
    + intros [[=]|(? & ? & [= <- <-] & H)]. rewrite Hf in H.
      destruct H as [[=]|(? & ? & [= <- <-] & H)]. rewrite Hl in H.
      destruct H as [[=]|(? & ? & [= <- <-] & H)]. rewrite Hp in H.
      by injection H as <- <-.
Qed.

End Invoke.

(** * More of [OrchestratorAgent.resolveOrderedIntents] *)

Lemma first_seen_id seen l :
  NoDup l → (∀ x, x ∈ l → x ∉ seen) → first_seen seen l = l.
Proof.
  revert seen. induction l as [|x l IH]; intros seen Hn Hd; simpl; [done|].
  apply NoDup_cons in Hn as [Hx Hn].
  rewrite bool_decide_eq_false_2 by (apply Hd; left).
  f_equal. apply IH; [done|].
  intros y Hy. rewrite not_elem_of_app, list_elem_of_singleton.
  split; [apply Hd; by right|]. by intros ->.
Qed.

(** X13.  [resolveOrderedIntents] gives at most 4 intents and never more
    than it is given; it gives none only when it is given none, and its
    first intent is the first intent of the input. *)
Theorem resolveOrderedIntents_bounds (r : OrchestratorResult) :
  length (resolveOrderedIntents r) ≤ 4 ∧
  length (resolveOrderedIntents r) ≤ length (intents r) ∧
  (resolveOrderedIntents r = [] ↔ intents r = []) ∧
  head (resolveOrderedIntents r) = head (intents r).
Proof.
  rewrite resolveOrderedIntents_first_seen. repeat split.
  - change 4 with (length [hr; tech; finance; unknown]).
    apply submseteq_length, NoDup_submseteq; [apply first_seen_NoDup|].
    intros [] _; set_solver.
  - apply sublist_length, first_seen_sublist.
  - by destruct (intents r).
  - by intros ->.
  - by destruct (intents r).
Qed.

(** X14.  [resolveOrderedIntents] gives back the intents as they are exactly
    when no department occurs twice among them; so it changes nothing when
    it is applied to its own output. *)
Theorem resolveOrderedIntents_fixes_NoDup (r : OrchestratorResult) :
  (resolveOrderedIntents r = intents r ↔ NoDup (intents r)) ∧
  resolveOrderedIntents
    {| intents := resolveOrderedIntents r;
       confidence := confidence r; reasoning := reasoning r |}
  = resolveOrderedIntents r.
Proof.
  split.
  - rewrite resolveOrderedIntents_first_seen. split.
    + intros <-. apply first_seen_NoDup.
    + intros Hn. apply first_seen_id; [done|]. intros x _. apply not_elem_of_nil.
  - rewrite (resolveOrderedIntents_first_seen {| intents := _ |}). simpl.
    apply first_seen_id.
    + rewrite resolveOrderedIntents_first_seen. apply first_seen_NoDup.
    + intros x _. apply not_elem_of_nil.
Qed.

(** * Namespaces, chunk ids, vector stores and the index *)

Lemma is_alnum_not_dash a : is_alnum a = true → is_dash a = false.
Proof.
  unfold is_dash. destruct (Ascii.eqb_spec a "-") as [->|]; [|done].
  by vm_compute.
Qed.

Lemma is_alnum_lower a :
  is_alnum a = true →
  is_lower_alnum (lower_ascii a) = true ∧ lower_ascii a ≠ "_"%char.
Proof.
  destruct a as [[] [] [] [] [] [] [] []]; vm_compute; intros H;
    (discriminate H || (split; [reflexivity|discriminate])).
Qed.

(** The dash that stands for a run is never followed by another dash. *)
Lemma squash_shape in_run s :
  string_forall (λ a, is_alnum a || is_dash a) (squash in_run s) = true ∧
  no_double_dash (squash in_run s) = true ∧
  (in_run = true →
   match squash in_run s with
   | String b _ => is_dash b = false
   | EmptyString => True
   end).
Proof.
  revert in_run. induction s as [|a s IH]; intros in_run; [done|].
  simpl. destruct (is_alnum a) eqn:Ha.
  - destruct (IH false) as (Hf & Hn & _). simpl.
    rewrite Ha, Hf, Hn, (is_alnum_not_dash a Ha). simpl.
    split; [done|]. split; [|done]. by destruct (squash false s).
  - destruct in_run; [apply IH|].
    destruct (IH true) as (Hf & Hn & Hh). specialize (Hh eq_refl).
    simpl. rewrite Hf, Hn. split; [done|]. split; [|done].
    destruct (squash true s); [done|]. by rewrite Hh.
Qed.

(** X15.  The slug of a folder name is made of ASCII letters, digits and
    dashes only, and no dash of it is followed by another dash. *)
Theorem slug_shape (domainFolder : string) :
  string_forall (λ a, is_alnum a || is_dash a) (slug domainFolder) = true ∧
  no_double_dash (slug domainFolder) = true.
Proof.
  unfold slug. destruct (squash_shape false (strip_docs domainFolder))
    as (Hf & Hn & _). done.
Qed.

Lemma string_forall_app P a b :
  string_forall P (a +:+ b) = string_forall P a && string_forall P b.
Proof.
  induction a as [|x a IH]; [done|].
  rewrite string_app_cons. simpl. by rewrite IH, andb_assoc.
Qed.

Lemma string_forall_impl (P Q : ascii → bool) s :
  (∀ a, P a = true → Q a = true) →
  string_forall P s = true → string_forall Q s = true.
Proof.
  intros HPQ. induction s as [|a s IH]; [done|]. simpl.
  intros [Ha Hs]%andb_prop. by rewrite (HPQ a Ha), IH.
Qed.

Lemma lower_string_shape s :
  string_forall (λ a, is_alnum a || is_dash a) s = true →
  string_forall (λ a, is_lower_alnum a || is_dash a) (lower_string s) = true.
Proof.
  induction s as [|a s IH]; [done|]. simpl.
  intros [Ha Hs]%andb_prop. rewrite (IH Hs), andb_true_r.
  apply orb_prop in Ha as [Ha|Ha].
  - destruct (is_alnum_lower a Ha) as [-> _]. done.
  - unfold is_dash in Ha. apply Ascii.eqb_eq in Ha as ->. done.
Qed.

(** X16.  When [toLowerCase] turns the ASCII capitals of an ASCII string
    into small letters, as [String.prototype.toLowerCase] does, and the
    prefix is made of ASCII letters, digits and dashes, every namespace is
    made of small ASCII letters, digits and dashes. *)
Theorem namespaceForDomain_shape (toLowerCase : string → string)
    (prefix domainFolder : string) :
  (∀ s, string_forall is_ascii s = true → toLowerCase s = lower_string s) →
  string_forall (λ a, is_alnum a || is_dash a) prefix = true →
  string_forall (λ a, is_lower_alnum a || is_dash a)
    (namespaceForDomain toLowerCase prefix domainFolder) = true.
Proof.
  intros Hlow Hprefix. unfold namespaceForDomain.
  assert (string_forall (λ a, is_alnum a || is_dash a)
            (prefix +:+ "-" +:+ slug domainFolder) = true) as Hall.
  { rewrite !string_forall_app, Hprefix. unfold slug.
    destruct (squash_shape false (strip_docs domainFolder)) as [-> _]. done. }
  rewrite Hlow; [by apply lower_string_shape|].
  revert Hall. apply string_forall_impl.
  intros a [Ha|Ha]%orb_prop.
  - revert Ha. destruct a as [[] [] [] [] [] [] [] []]; by vm_compute.
  - unfold is_dash in Ha. apply Ascii.eqb_eq in Ha as ->. done.
Qed.

Lemma string_length_app (a b : string) :
  String.length (a +:+ b) = String.length a + String.length b.
Proof.
  induction a as [|x a IH]; [done|]. rewrite string_app_cons. simpl.
  by rewrite IH.
Qed.

Lemma strip_suffix_ci_eq suffix s :
  strip_suffix_ci suffix s =
  if String.eqb (lower_string s) suffix then Some EmptyString
  else match s with
       | EmptyString => None
       | String a s' => String a <$> strip_suffix_ci suffix s'
       end.
Proof. by destruct s. Qed.

(** No match of the suffix starts at a letter or digit when the suffix
    starts with an underscore. *)
Lemma strip_suffix_ci_alnum suffix n t :
  string_forall is_alnum n = true →
  strip_suffix_ci (String "_" suffix) (n +:+ t)
  = String.app n <$> strip_suffix_ci (String "_" suffix) t.
Proof.
  induction n as [|a n IH]; intros Hn.
  - change ("" +:+ t) with t. by destruct (strip_suffix_ci _ t).
  - simpl in Hn. apply andb_prop in Hn as [Ha Hn].
    rewrite string_app_cons.
    change (strip_suffix_ci (String "_" suffix) (String a (n +:+ t)))
      with (if String.eqb (lower_string (String a (n +:+ t))) (String "_" suffix)
            then Some EmptyString
            else String a <$> strip_suffix_ci (String "_" suffix) (n +:+ t)).
    assert (String.eqb (lower_string (String a (n +:+ t))) (String "_" suffix)
            = false) as ->.
    { apply String.eqb_neq. simpl. intros [= Heq _].
      by destruct (is_alnum_lower a Ha) as [_ Hne]. }
    rewrite (IH Hn). by destruct (strip_suffix_ci _ t).
Qed.

Lemma lower_string_length s : String.length (lower_string s) = String.length s.
Proof. induction s as [|a s IH]; [done|]. simpl. by rewrite IH. Qed.

Lemma strip_suffix_ci_whole suffix s :
  lower_string s = suffix → strip_suffix_ci suffix s = Some "".
Proof.
  intros <-. rewrite strip_suffix_ci_eq. by rewrite String.eqb_refl.
Qed.

Lemma strip_suffix_ci_short suffix s :
  String.length s < String.length suffix → strip_suffix_ci suffix s = None.
Proof.
  induction s as [|a s IH]; intros Hlen.
  - simpl. destruct suffix; [simpl in Hlen; lia|done].
  - change (strip_suffix_ci suffix (String a s))
      with (if String.eqb (lower_string (String a s)) suffix
            then Some EmptyString
            else String a <$> strip_suffix_ci suffix s).
    assert (String.eqb (lower_string (String a s)) suffix = false) as ->.
    { apply String.eqb_neq. intros Heq.
      rewrite <- Heq, lower_string_length in Hlen. lia. }
    rewrite IH; [done|]. simpl in Hlen. lia.
Qed.

Lemma squash_alnum n : string_forall is_alnum n = true → squash false n = n.
Proof.
  induction n as [|a n IH]; [done|]. simpl.
  intros [Ha Hn]%andb_prop. by rewrite Ha, IH.
Qed.

Lemma strip_docs_alnum n t :
  string_forall is_alnum n = true →
  strip_docs (n +:+ t) =
  match strip_suffix_ci "_docs" t with
  | Some t' => n +:+ t'
  | None =>
      match strip_suffix_ci "_doc" t with
      | Some t' => n +:+ t'
      | None => n +:+ t
      end
  end.
Proof.
  intros Hn. unfold strip_docs.
  rewrite !(strip_suffix_ci_alnum _ n t Hn).
  destruct (strip_suffix_ci "_docs" t); [done|]. simpl.
  by destruct (strip_suffix_ci "_doc" t).
Qed.

(** X17.  For a name of ASCII letters and digits, the folders called by the
    name, by the name with "_doc" and by the name with "_docs", in any
    case of these letters, have the name as their slug, and so share one
    namespace. *)
Theorem slug_of_docs_folder (name suffix : string) :
  string_forall is_alnum name = true →
  lower_string suffix = "_docs" ∨ lower_string suffix = "_doc" ∨ suffix = "" →
  slug (name +:+ suffix) = name.
Proof.
  intros Hn Hs.
  assert (strip_docs (name +:+ suffix) = name) as Hstrip.
  { rewrite (strip_docs_alnum name suffix Hn).
    destruct Hs as [Hs|[Hs| ->]].
    - rewrite (strip_suffix_ci_whole _ _ Hs). apply string_app_nil_r.
    - rewrite (strip_suffix_ci_short "_docs" suffix).
      2: { rewrite <- (lower_string_length suffix), Hs. simpl. lia. }
      rewrite (strip_suffix_ci_whole _ _ Hs). apply string_app_nil_r.
    - simpl. apply string_app_nil_r. }
  unfold slug. rewrite Hstrip. by apply squash_alnum.
Qed.

(** X18.  The ids that [buildVectorStore] gives to the chunks of a folder
    are as many as the chunks, the id of chunk [idx] is the namespace, a
    dash and [idx], and no two chunks have the same id. *)
Theorem chunk_ids_distinct (namespace : string)
    (splitDocs : list DocumentInterface) :
  length (chunk_ids namespace splitDocs) = length splitDocs ∧
  (∀ idx, idx < length splitDocs →
     chunk_ids namespace splitDocs !! idx
       = Some (namespace +:+ "-" +:+ pretty idx)) ∧
  NoDup (chunk_ids namespace splitDocs).
Proof.
  unfold chunk_ids. split; [apply length_imap|].
  assert (∀ idx x, imap (λ idx _, namespace +:+ "-" +:+ pretty idx) splitDocs
                     !! idx = Some x →
                   x = namespace +:+ "-" +:+ pretty idx) as Hlook.
  { intros idx x. rewrite list_lookup_imap.
    destruct (splitDocs !! idx); simpl; [|done]. by intros [= <-]. }
  split.
  - intros idx Hlt. rewrite list_lookup_imap.
    by destruct (lookup_lt_is_Some_2 splitDocs idx Hlt) as [doc ->].
  - apply NoDup_alt. intros i j x Hi%Hlook Hj%Hlook. subst x.
    apply (inj (String.app namespace)) in Hj.
    apply (inj (String.app "-")) in Hj. by apply (inj pretty) in Hj.
Qed.

Section StoreProperties.
Context {W Error RunnableConfig Embeddings Index : Type}.
Variable platform : Platform W Error RunnableConfig Embeddings Index.

(** X19.  When the deletion of the namespace throws while a folder is
    seeded, an error whose message is a string that contains "404" is
    answered by a warning, after which the chunks are added as usual; with
    any other error [buildVectorStore] throws that error and adds no
    chunk. *)
Theorem buildVectorStore_delete_error domainFolder embeddings pineconeIndex
    w docs w1 splitDocs w2 store w3 error w4 :
  SHOULD_SEED_PINECONE platform = true →
  loadDocuments platform domainFolder w = (Normal docs, w1) →
  splitDocuments platform docs w1 = (Normal splitDocs, w2) →
  fromExistingIndex platform embeddings pineconeIndex
    (namespaceForDomain (toLowerCase platform)
       (PINECONE_NAMESPACE_PREFIX platform) domainFolder) w2
    = (Normal store, w3) →
  store_delete store
    (namespaceForDomain (toLowerCase platform)
       (PINECONE_NAMESPACE_PREFIX platform) domainFolder) w3
    = (Throw error, w4) →
  let namespace :=
    namespaceForDomain (toLowerCase platform)
      (PINECONE_NAMESPACE_PREFIX platform) domainFolder in
  ((∃ message, error_message platform error = Some message ∧
               includes "404" message = true) →
   buildVectorStore platform domainFolder embeddings pineconeIndex w =
   (let* _ := console_warn platform
                ("Pinecone namespace " +:+ namespace +:+
                 " not found yet. Skipping delete.") in
    let* _ := store_addDocuments store splitDocs
                (chunk_ids namespace splitDocs) namespace in
    ret store) w4) ∧
  ((∀ message, error_message platform error = Some message →
               includes "404" message = false) →
   buildVectorStore platform domainFolder embeddings pineconeIndex w
   = (Throw error, w4)).
Proof.
  intros Hseed Hload Hsplit Hstore Hdel namespace. subst namespace.
  unfold buildVectorStore, bind, delete_namespace, ret.
  rewrite Hload, Hsplit, Hstore, Hseed, Hdel.
  split.
  - intros (message & -> & ->). reflexivity.
  - intros Hno.
    destruct (error_message platform error) as [message|] eqn:Hm; [|done].
    by rewrite (Hno message eq_refl).
Qed.

(** X20.  In the agent map that [buildAgents] builds, every department
    other than [unknown] has an agent and [unknown] has none; the agent of
    a department has that department as its intent and retrieves 5
    passages from the store of the department. *)
Theorem buildAgents_complete (lib : Library W Error)
    (llm : ChatOpenAI W Error RunnableConfig)
    (stores_hr stores_tech stores_finance
       : PineconeStore W Error RunnableConfig) (d : DepartmentIntent) :
  let agentMap := buildAgents lib llm stores_hr stores_tech stores_finance in
  (is_Some (agentMap !! d) ↔ d ≠ unknown) ∧
  ∀ agent, agentMap !! d = Some agent →
    agent_intent agent = d ∧
    retriever agent =
      asRetriever
        (match d with
         | hr => stores_hr
         | tech => stores_tech
         | _ => stores_finance
         end) 5.
Proof.
  unfold buildAgents. split.
  - destruct d.
    + rewrite lookup_insert_eq. split; [done|by eexists].
    + rewrite lookup_insert_ne, lookup_insert_eq by done.
      split; [done|by eexists].
    + rewrite !lookup_insert_ne, lookup_insert_eq by done.
      split; [done|by eexists].
    + rewrite !lookup_insert_ne, lookup_empty by done.
      split; [by intros [? [=]]|done].
  - intros agent. destruct d.
    + rewrite lookup_insert_eq. by intros [= <-].
    + rewrite lookup_insert_ne, lookup_insert_eq by done. by intros [= <-].
    + rewrite !lookup_insert_ne, lookup_insert_eq by done. by intros [= <-].
    + by rewrite !lookup_insert_ne, lookup_empty by done.
Qed.

(** X21.  [resolvePineconeIndex] makes the index at most once: when a call
    returns an index, the index is kept, and every later call returns it
    without asking for a new one, in whatever world it is made. *)
Theorem resolvePineconeIndex_memo w memo index w1 memo1 :
  resolvePineconeIndex platform (w, memo) = (Normal index, (w1, memo1)) →
  memo1 = Some index ∧
  ∀ w2, resolvePineconeIndex platform (w2, memo1)
        = (Normal index, (w2, memo1)).
Proof.
  unfold resolvePineconeIndex.
  destruct (negb (truthy (PINECONE_API_KEY platform)) ||
            negb (truthy (PINECONE_INDEX platform))); [done|].
  destruct memo as [idx|].
  - intros [= <- <- <-]. done.
  - destruct (pinecone_index _ _ _ _ w) as [[idx|e] w']; [|done].
    intros [= <- <- <-]. done.
Qed.

(** X22.  Without a key or without the name of an index,
    [resolvePineconeIndex] throws before it looks at the index it may
    hold, and asks for none. *)
Theorem resolvePineconeIndex_unconfigured w memo :
  PINECONE_API_KEY platform = "" ∨ PINECONE_INDEX platform = "" →
  ∃ e, resolvePineconeIndex platform (w, memo) = (Throw e, (w, memo)).
Proof.
  intros Hmissing. unfold resolvePineconeIndex.
  assert (negb (truthy (PINECONE_API_KEY platform)) ||
          negb (truthy (PINECONE_INDEX platform)) = true) as ->.
  { destruct Hmissing as [-> | ->]; [done|]. apply orb_true_r. }
  by eexists.
Qed.

End StoreProperties.

(** * The turn budget *)

(** X23.  From whatever queue, visited set and transcript the loop is
    started, when it is left without an error the intents that
    [route_result] reports as unresolved are intents that are still queued
    and not visited, and there are some only when the 5 turns of the budget
    are used up. *)
Theorem dispatch_unresolved_only_at_budget {W Error RunnableConfig : Type}
    (lib : Library W Error) (self : MultiAgentRouter W Error RunnableConfig)
    (question : string) (config : option RunnableConfig)
    (c : OrchestratorResult) fuel st env st' env' :
  dispatch lib self fuel question config st env = Some (Normal st', env') →
  (∀ d, d ∈ unresolvedIntents (route_result c st') ↔
        d ∈ intent_of <$> Loop.queue st' ∧ (d ∉ Loop.visited st')) ∧
  (unresolvedIntents (route_result c st') ≠ [] →
   TURN_BUDGET ≤ length (Loop.turns st')).
Proof.
  intros Hd. split.
  - intros d. simpl. by rewrite list_elem_of_filter, (comm and).
  - apply (dispatch_rule lib self question config (λ _ _, True) (λ _ _, True))
      in Hd; [|done..].
    destruct Hd as [_ [Hq|Hge]]; [|done].
    simpl. by rewrite Hq.
Qed.

(** * The further properties on the scripted routers *)

(** X1, on the run with the sign-off handoff. *)
Lemma route_calls_follow_turns_witness :
  ∃ r env',
    route Stub.lib Stub.sign_off_router "Can I take leave?" None Stub.start
      = Some (Normal r, env') ∧
    (∃ invs,
      trace env' = trace Stub.start ++ Classified "Can I take leave?" None :: invs ∧
      length invs = length (turns r) ∧
      ∀ k turn, turns r !! k = Some turn →
        ∃ agent task history w w',
          invs !! k = Some (Invoked (intentTried turn) task history None) ∧
          agents Stub.sign_off_router !! intentTried turn = Some agent ∧
          invoke Stub.lib agent task (Some history) None w
            = (Normal (response turn), w')).
Proof.
  eexists _, _. split; [reflexivity|].
  eapply (route_calls_follow_turns Stub.lib Stub.sign_off_router
            "Can I take leave?" None Stub.start).
  reflexivity.
Defined.


(** X3, on the run with the sign-off handoff. *)
Lemma route_directive_of_call_witness :
  ∃ r env',
    route Stub.lib Stub.sign_off_router "Can I take leave?" None Stub.start
      = Some (Normal r, env') ∧
    (∃ invs,
      trace env' = trace Stub.start ++ Classified "Can I take leave?" None :: invs ∧
      ∀ k turn, turns r !! k = Some turn →
        ∃ task history,
          invs !! k = Some (Invoked (intentTried turn) task history None) ∧
          (intentTried turn ∈ intents (classification r) →
           task = "Can I take leave?") ∧
          (intentTried turn ∉ intents (classification r) →
           ∃ k' turn' h,
             k' < k ∧ turns r !! k' = Some turn' ∧
             handoff (response turn') = Some h ∧
             Handoff.intent h = intentTried turn ∧
             (∀ j turn'' h'', j < k' → turns r !! j = Some turn'' →
                handoff (response turn'') = Some h'' →
                Handoff.intent h'' ≠ intentTried turn) ∧
             task =
               let note := default (Handoff.reason h) (Handoff.context h) in
               if decide (note = "") then "Can I take leave?"
               else "Can I take leave?" +:+ nl +:+ nl +:+
                    "Follow-up directive: " +:+ note)).
Proof.
  eexists _, _. split; [reflexivity|].
  eapply (route_directive_of_call Stub.lib Stub.sign_off_router
            "Can I take leave?" None Stub.start).
  reflexivity.
Defined.

(** A department that the classification names and that an earlier turn
    handed off to: hr and tech are classified and hr hands off to tech;
    tech is given the question as it was asked. *)
Lemma classified_department_directive :
  ∃ history,
    Stub.summary
      (route Stub.lib
         (Stub.router (Stub.llm_says "hr, tech") (Stub.llm_says "ask tech")
            (Stub.llm_says "done") (Stub.llm_says "done"))
         "Can I take leave?" None Stub.start) =
    Some (Normal ([hr; tech], []),
          [ Classified "Can I take leave?" None;
            Invoked hr "Can I take leave?" "No prior agent responses." None;
            Invoked tech "Can I take leave?" history None ]).
Proof. eexists. reflexivity. Qed.

(** X4, on the cycle through the three departments. *)
Lemma route_serves_requests_witness :
  ∃ r env',
    route Stub.lib Stub.cycle_router "Who approves this?" None Stub.start
      = Some (Normal r, env') ∧
    ((∀ d, d ∈ intents (classification r) → dispatchable Stub.cycle_router d →
          d ∈ intentTried <$> turns r) ∧
    (∀ turn h, turn ∈ turns r → handoff (response turn) = Some h →
               dispatchable Stub.cycle_router (Handoff.intent h) →
               Handoff.intent h ∈ intentTried <$> turns r)).
Proof.
  eexists _, _. split; [reflexivity|].
  eapply (route_serves_requests Stub.lib Stub.cycle_router
            "Who approves this?" None Stub.start).
  reflexivity.
Defined.

(** X5, on the run with the sign-off handoff. *)
Lemma route_classified_first_witness :
  ∃ r env',
    route Stub.lib Stub.sign_off_router "Can I take leave?" None Stub.start
      = Some (Normal r, env') ∧
    (∃ later,
      intentTried <$> turns r =
        filter (dispatchable Stub.sign_off_router) (resolveOrderedIntents (classification r))
        ++ later ∧
      Forall (λ d, d ∉ intents (classification r)) later ∧
      Forall (λ d, ∃ turn h, turn ∈ turns r ∧ handoff (response turn) = Some h ∧
                             Handoff.intent h = d) later).
Proof.
  eexists _, _. split; [reflexivity|].
  eapply (route_classified_first Stub.lib Stub.sign_off_router
            "Can I take leave?" None Stub.start).
  reflexivity.
Defined.

(** X6, on a run with a tech agent. *)
Lemma route_no_turn_iff_witness :
  ∃ r env',
    route Stub.lib Stub.unknown_router "Where is the canteen?" None Stub.start
      = Some (Normal r, env') ∧
    (turns r = [] ↔
    ∀ d, d ∈ intents (classification r) → ¬ dispatchable Stub.unknown_router d).
Proof.
  eexists _, _. split; [reflexivity|].
  eapply (route_no_turn_iff Stub.lib Stub.unknown_router
            "Where is the canteen?" None Stub.start).
  reflexivity.
Defined.

(** X7, on a run whose tech agent throws. *)
Lemma route_call_bound_witness :
  ∃ out env',
    route Stub.lib Stub.broken_tech_router "New laptop" None Stub.start
      = Some (out, env') ∧
    (∃ f invs,
      trace env' = trace Stub.start ++ Classified "New laptop" f :: invs ∧
      Forall (λ ev, is_Some (invoked_intent ev)) invs ∧
      length invs ≤ 3 ∧
      NoDup (omap invoked_intent invs)).
Proof.
  eexists _, _. split; [reflexivity|].
  eapply (route_call_bound Stub.lib Stub.broken_tech_router
            "New laptop" None Stub.start).
  reflexivity.
Defined.

(** X8, on a run whose tech agent throws. *)
Lemma route_throws_collaborator_error_witness :
  ∃ e env',
    route Stub.lib Stub.broken_tech_router "New laptop" None Stub.start
      = Some (Throw e, env') ∧
    ((∃ w, classify Stub.lib (orchestrator Stub.broken_tech_router) "New laptop" None (world Stub.start)
            = (Throw e, w)) ∨
    (∃ d agent task history w w',
       dispatchable Stub.broken_tech_router d ∧ agents Stub.broken_tech_router !! d = Some agent ∧
       invoke Stub.lib agent task (Some history) None w = (Throw e, w'))).
Proof.
  eexists _, _. split; [reflexivity|].
  eapply (route_throws_collaborator_error Stub.lib Stub.broken_tech_router
            "New laptop" None Stub.start).
  reflexivity.
Defined.

(** X9, on the queue of hr and tech of the ping-pong router. *)
Lemma dispatch_terminates_witness :
  ∃ out,
    dispatch Stub.lib Stub.ping_pong_router 12 "VPN and leave" None
      (Loop.mk [IntentQueueItem.mk hr None; IntentQueueItem.mk tech None] ∅ [])
      Stub.start = Some out ∧
    ∀ fuel',
      length (Loop.queue
                (Loop.mk [IntentQueueItem.mk hr None; IntentQueueItem.mk tech None]
                   ∅ []))
      + 2 * (TURN_BUDGET
             - length (Loop.turns
                         (Loop.mk
                            [IntentQueueItem.mk hr None; IntentQueueItem.mk tech None]
                            ∅ []))) ≤ fuel' →
      dispatch Stub.lib Stub.ping_pong_router fuel' "VPN and leave" None
        (Loop.mk [IntentQueueItem.mk hr None; IntentQueueItem.mk tech None] ∅ [])
        Stub.start = Some out.
Proof.
  apply (dispatch_terminates Stub.lib Stub.ping_pong_router "VPN and leave" None
           (Loop.mk [IntentQueueItem.mk hr None; IntentQueueItem.mk tech None] ∅ [])
           Stub.start 12).
  simpl. unfold TURN_BUDGET. lia.
Defined.

(** X10, on an agent whose passages have no string source. *)
Lemma invoke_sources_witness :
  ∃ r w',
    invoke Stub.lib StubStore.bare_agent "VPN is down" None None 0
      = (Normal r, w') ∧
    sources r = ["chunk-0"; "chunk-1"] ∧
    ∃ sourceDocs llmResponse parsed w1 w3,
      retriever_invoke (retriever StubStore.bare_agent) "VPN is down" None 0
        = (Normal sourceDocs, w1) ∧
      parse (parser StubStore.bare_agent) (extractAnswer Stub.lib llmResponse) w3
        = (Normal parsed, w') ∧
      (citations parsed ≠ [] → sources r = citations parsed) ∧
      (citations parsed = [] →
         length (sources r) = length sourceDocs ∧
         ∀ idx doc, sourceDocs !! idx = Some doc →
           sources r !! idx =
             Some (match metadata_source doc with
                   | Some (MetaString s) => s
                   | _ => "chunk-" +:+ pretty idx
                   end)).
Proof.
  exists (agent_result (Stub.says "Here is the answer." None) StubStore.bare_docs), 1.
  split; [vm_compute; reflexivity|]. split; [vm_compute; reflexivity|].
  apply (invoke_sources Stub.lib StubStore.bare_agent "VPN is down" None None 0).
  vm_compute. reflexivity.
Defined.

(** X11, on the same agent. *)
Lemma invoke_chunk_sources_distinct_witness :
  ∃ r w',
    invoke Stub.lib StubStore.bare_agent "VPN is down" None None 0
      = (Normal r, w') ∧
    ∃ sourceDocs llmResponse parsed w1 w3,
      retriever_invoke (retriever StubStore.bare_agent) "VPN is down" None 0
        = (Normal sourceDocs, w1) ∧
      parse (parser StubStore.bare_agent) (extractAnswer Stub.lib llmResponse) w3
        = (Normal parsed, w') ∧
      (citations parsed = [] →
       Forall (λ doc, ∀ s, metadata_source doc ≠ Some (MetaString s)) sourceDocs →
       sources r = (λ idx, "chunk-" +:+ pretty idx) <$> seq 0 (length sourceDocs) ∧
       NoDup (sources r)).
Proof.
  exists (agent_result (Stub.says "Here is the answer." None) StubStore.bare_docs), 1.
  split; [vm_compute; reflexivity|].
  apply (invoke_chunk_sources_distinct Stub.lib StubStore.bare_agent
           "VPN is down" None None 0).
  vm_compute. reflexivity.
Defined.

(** X16, on the prefix and a folder of the repository. *)
Lemma namespaceForDomain_shape_witness :
  namespaceForDomain lower_string "Dept" "Finance_Docs" = "dept-finance" ∧
  string_forall (λ a, is_lower_alnum a || is_dash a)
    (namespaceForDomain lower_string "Dept" "Finance_Docs") = true.
Proof.
  split; [reflexivity|].
  apply (namespaceForDomain_shape lower_string "Dept" "Finance_Docs").
  - intros s _. reflexivity.
  - reflexivity.
Defined.

(** X17, on the folder of the hr documents. *)
Lemma slug_of_docs_folder_witness : slug ("hr" +:+ "_docs") = "hr".
Proof.
  apply (slug_of_docs_folder "hr" "_docs").
  - reflexivity.
  - left. reflexivity.
Defined.

(** X19, on a store whose deletion fails with a 404. *)
Lemma buildVectorStore_delete_error_witness :
  buildVectorStore (StubStore.platform "key" (Some "HTTP 404 Not Found"))
    "hr_docs" () 7 0
  = (Normal (StubStore.store (Some "HTTP 404 Not Found")), 3).
Proof.
  destruct (buildVectorStore_delete_error
              (StubStore.platform "key" (Some "HTTP 404 Not Found"))
              "hr_docs" () 7 0
              [Stub.doc "Leave policy" "hr/leave.md";
               Stub.doc "Onboarding" "hr/onboarding.md"] 0
              [Stub.doc "Leave policy" "hr/leave.md";
               Stub.doc "Onboarding" "hr/onboarding.md";
               Stub.doc "Leave policy" "hr/leave.md"] 0
              (StubStore.store (Some "HTTP 404 Not Found")) 0
              "HTTP 404 Not Found" 0
              eq_refl eq_refl eq_refl eq_refl eq_refl) as [Hswallow _].
  rewrite Hswallow; [reflexivity|].
  exists "HTTP 404 Not Found". split; reflexivity.
Defined.

(** X21, on a first call that makes the index. *)
Lemma resolvePineconeIndex_memo_witness :
  resolvePineconeIndex (StubStore.platform "key" None) (0, None)
    = (Normal 8, (1, Some 8)) ∧
  Some 8 = Some 8 ∧
  ∀ w2, resolvePineconeIndex (StubStore.platform "key" None) (w2, Some 8)
        = (Normal 8, (w2, Some 8)).
Proof.
  split; [reflexivity|].
  apply (resolvePineconeIndex_memo (StubStore.platform "key" None) 0 None 8 1
           (Some 8)).
  reflexivity.
Defined.

(** X22, on a platform without a key. *)
Lemma resolvePineconeIndex_unconfigured_witness :
  ∃ e, resolvePineconeIndex (StubStore.platform "" None) (0, Some 8)
       = (Throw e, (0, Some 8)).
Proof.
  apply (resolvePineconeIndex_unconfigured (StubStore.platform "" None) 0 (Some 8)).
  left. reflexivity.
Defined.

(** X23, on locals whose budget is used up while tech is queued. *)
Lemma dispatch_unresolved_only_at_budget_witness :
  unresolvedIntents (route_result (Stub.classified [hr; tech]) spent_locals)
    = [tech] ∧
  (∀ d, d ∈ unresolvedIntents
              (route_result (Stub.classified [hr; tech]) spent_locals) ↔
        d ∈ intent_of <$> Loop.queue spent_locals ∧
        (d ∉ Loop.visited spent_locals)) ∧
  (unresolvedIntents (route_result (Stub.classified [hr; tech]) spent_locals)
     ≠ [] →
   TURN_BUDGET ≤ length (Loop.turns spent_locals)).
Proof.
  split; [reflexivity|].
  apply (dispatch_unresolved_only_at_budget Stub.lib Stub.ping_pong_router
           "VPN and leave" None (Stub.classified [hr; tech]) 3 spent_locals
           Stub.start spent_locals Stub.start).
  reflexivity.
Defined.
